(** * robun: tool registry, shell and file tools, cron, heartbeat, agent loops

    A shallow embedding of the parts of the robun sources that the
    specification's claims C1-C10 talk about, with each claim stated and
    settled as a theorem.

    - [JsString], [Regex], [Js], [JsMap], [NodePath], [NodeFs]: the pieces of
      JavaScript and Node the sources rest on.
    - [Shell] (tools/shell.ts): C4; [Utf16], [ExecGuard]: its safety guard
      on commands of any code units, C2.
    - [Tool], [ToolRegistry] (tools/base.ts): C1, C10.
    - [Filesystem] (tools/filesystem.ts): C3, C5.
    - [Cron] (cron/types.ts, cron/service.ts): C6, C7.
    - [Heartbeat] (heartbeat/service.ts): C8.
    - [Agent] (providers/base.ts, agent/context.ts, agent/loop.ts,
      agent/subagent.ts): C9.

    Conventions of the embedding.
    - A JavaScript string is a Rocq [string]; each [ascii] stands for one
      UTF-16 code unit in the range U+0000..U+00FF, so [String.length] is the
      JavaScript [length].  Case mapping, white space and UTF-8 sizes are
      those of that range.  Where code units beyond it change what the
      sources do, as in the safety guard, a string is the list of its code
      units ([Utf16]).
    - Numbers are integers ([Z]): timestamps in milliseconds, exit codes.
    - A function that can throw returns a [Completion]; [try]/[catch] is
      written out.
    - An [async] function is run to completion; callbacks, the provider,
      the shell and the cron-parser package are parameters of a [Section]. *)

From Stdlib Require Import ZArith List String Ascii Bool Lia DecimalString.
From stdpp Require Import base gmap strings list.
Import ListNotations.
Open Scope string_scope.
Open Scope list_scope.

(* ===================================================================== *)
(** * JavaScript strings *)
(* ===================================================================== *)

Module JsString.

Definition code (c : ascii) : N := N_of_ascii c.

(** The first character of a literal, to write a character as "x". *)
Definition ch (s : string) : ascii :=
  match s with String c _ => c | EmptyString => Ascii.zero end.

Definition between (lo hi : N) (c : ascii) : bool :=
  ((lo <=? code c) && (code c <=? hi))%N.

(** White space and line terminators below U+0100: TAB, LF, VT, FF, CR,
    SPACE and NO-BREAK SPACE.  This is the set [String.prototype.trim]
    strips and the regular-expression class [\s] accepts. *)
Definition is_space (c : ascii) : bool :=
  between 9 13 c || (code c =? 32)%N || (code c =? 160)%N.

(** LF and CR: what [.] refuses. *)
Definition is_line_terminator (c : ascii) : bool :=
  (code c =? 10)%N || (code c =? 13)%N.

(** The class [\w]: [A-Za-z0-9_]. *)
Definition is_word (c : ascii) : bool :=
  between 65 90 c || between 97 122 c || between 48 57 c || (code c =? 95)%N.

(** [toLowerCase] on one code unit: A-Z, and the Latin-1 capitals
    U+00C0..U+00DE without the multiplication sign U+00D7. *)
Definition lower_char (c : ascii) : ascii :=
  if between 65 90 c then ascii_of_N (code c + 32)
  else if between 192 222 c && negb (code c =? 215)%N then ascii_of_N (code c + 32)
  else c.

Fixpoint toLowerCase (s : string) : string :=
  match s with
  | EmptyString => EmptyString
  | String c s' => String (lower_char c) (toLowerCase s')
  end.

(** [Canonicalize] of a non-unicode, ignore-case regular expression: the
    upper-case code unit, kept only when it is a single code unit and does
    not move a non-ASCII unit into ASCII.  The value may leave the 8-bit
    range (y-diaeresis, micro sign), hence [N]. *)
Definition canonicalize (c : ascii) : N :=
  if between 97 122 c then (code c - 32)%N
  else if between 224 254 c && negb (code c =? 247)%N then (code c - 32)%N
  else if (code c =? 255)%N then 376%N
  else if (code c =? 181)%N then 924%N
  else code c.

Fixpoint trimStart (s : string) : string :=
  match s with
  | EmptyString => EmptyString
  | String c s' => if is_space c then trimStart s' else s
  end.

(** [trimEnd], by recursion from the right end. *)
Fixpoint trimEnd (s : string) : string :=
  match s with
  | EmptyString => EmptyString
  | String c s' =>
      match trimEnd s' with
      | EmptyString => if is_space c then EmptyString else String c EmptyString
      | t => String c t
      end
  end.

Definition trim (s : string) : string := trimEnd (trimStart s).

(** Truthiness of a string: non-empty. *)
Definition truthy (s : string) : bool :=
  match s with EmptyString => false | _ => true end.

Definition startsWith (s p : string) : bool := String.prefix p s.

(** [s.includes(sub)]. *)
Fixpoint includes (s sub : string) : bool :=
  String.prefix sub s ||
  match s with
  | EmptyString => false
  | String _ s' => includes s' sub
  end.

(** [s.indexOf(sub)], [None] for -1. *)
Fixpoint indexOf (s sub : string) : option nat :=
  if String.prefix sub s then Some 0
  else match s with
       | EmptyString => None
       | String _ s' => S <$> indexOf s' sub
       end.

(** [s.slice(0, n)] for [0 <= n]. *)
Fixpoint take (n : nat) (s : string) : string :=
  match n, s with
  | S n', String c s' => String c (take n' s')
  | _, _ => EmptyString
  end.

(** [s.slice(n)] for [0 <= n]. *)
Fixpoint drop (n : nat) (s : string) : string :=
  match n, s with
  | S n', String _ s' => drop n' s'
  | _, _ => s
  end.

(** [s.split("\n")]: never empty, one more piece than there are LFs. *)
Fixpoint split_lines (s : string) : list string :=
  match s with
  | EmptyString => [EmptyString]
  | String c s' =>
      if (code c =? 10)%N then EmptyString :: split_lines s'
      else match split_lines s' with
           | l :: ls => String c l :: ls
           | [] => [String c EmptyString]
           end
  end.

(** The matches [s.split(sep)] finds for a non-empty [sep]: it looks for
    [sep] from the left and resumes behind each match, so matches do not
    overlap.  [skip] counts the characters of the last match still to pass. *)
Fixpoint split_matches (sep : string) (skip : nat) (s : string) : nat :=
  match s with
  | EmptyString => 0
  | String _ s' =>
      match skip with
      | S k => split_matches sep k s'
      | O =>
          if String.prefix sep s
          then S (split_matches sep (String.length sep - 1) s')
          else split_matches sep 0 s'
      end
  end.

(** [s.split(sep).length]: with the empty separator the string falls into
    its code units (none for the empty string). *)
Definition split_length (s sep : string) : nat :=
  match sep with
  | EmptyString => String.length s
  | _ => S (split_matches sep 0 s)
  end.

(** [GetSubstitution] for a string pattern (no captures): in the
    replacement text, [$$] is a dollar sign, [$&] the matched text,
    [$`] what precedes the match and [$'] what follows it; any other
    dollar sign stands for itself. *)
Fixpoint getSubstitution (matched before after : string) (template : string)
  : string :=
  match template with
  | EmptyString => EmptyString
  | String c rest =>
      if Ascii.eqb c (ascii_of_nat 36) then
        match rest with
        | EmptyString => String c EmptyString
        | String d rest' =>
            if Ascii.eqb d (ascii_of_nat 36)
            then String d (getSubstitution matched before after rest')
            else if Ascii.eqb d (ascii_of_nat 38)
            then matched +:+ getSubstitution matched before after rest'
            else if Ascii.eqb d (ascii_of_nat 96)
            then before +:+ getSubstitution matched before after rest'
            else if Ascii.eqb d (ascii_of_nat 39)
            then after +:+ getSubstitution matched before after rest'
            else String c (getSubstitution matched before after rest)
        end
      else String c (getSubstitution matched before after rest)
  end.

(** [s.replace(pattern, replacement)] with a string pattern: the first
    occurrence only, the replacement read as a template. *)
Definition replace (s pattern replacement : string) : string :=
  match indexOf s pattern with
  | None => s
  | Some pos =>
      let before := take pos s in
      let after := drop (pos + String.length pattern) s in
      before +:+ getSubstitution pattern before after replacement +:+ after
  end.

(** [xs.join(sep)]. *)
Fixpoint join (sep : string) (xs : list string) : string :=
  match xs with
  | [] => EmptyString
  | [x] => x
  | x :: rest => x +:+ sep +:+ join sep rest
  end.

(** Template rendering of an integer. *)
Definition of_Z (z : Z) : string := NilZero.string_of_int (Z.to_int z).
Definition of_nat (n : nat) : string := of_Z (Z.of_nat n).

(** A string of white space only. *)
Fixpoint all_space (s : string) : bool :=
  match s with
  | EmptyString => true
  | String c s' => is_space c && all_space s'
  end.


(** [c] occurs in [s]. *)
Fixpoint has_char (c : ascii) (s : string) : bool :=
  match s with
  | EmptyString => false
  | String a s' => Ascii.eqb a c || has_char c s'
  end.

(** All 256 code units, to decide properties of characters by enumeration. *)
Definition all_chars : list ascii := map ascii_of_nat (seq 0 256).

Definition for_all_chars (P : ascii -> bool) : bool := forallb P all_chars.

Lemma all_chars_complete (c : ascii) : In c all_chars.
Proof.
  unfold all_chars. rewrite <- (ascii_nat_embedding c).
  apply in_map, in_seq. pose proof (nat_ascii_bounded c). lia.
Qed.

Lemma for_all_chars_spec (P : ascii -> bool) :
  for_all_chars P = true -> forall c, P c = true.
Proof.
  unfold for_all_chars. rewrite forallb_forall.
  intros H c. apply H, all_chars_complete.
Qed.

Lemma toLowerCase_length (s : string) :
  String.length (toLowerCase s) = String.length s.
Proof. induction s as [|c s IH]; simpl; [reflexivity | now rewrite IH]. Qed.

Lemma lower_char_word (c : ascii) : is_word (lower_char c) = is_word c.
Proof.
  apply Bool.eqb_prop.
  apply (for_all_chars_spec
           (fun c => Bool.eqb (is_word (lower_char c)) (is_word c))).
  vm_compute. reflexivity.
Qed.

Lemma includes_prefix (s sub : string) :
  String.prefix sub s = true -> includes s sub = true.
Proof. intros H. destruct s; simpl in *; rewrite H; reflexivity. Qed.

Lemma includes_app_r (a s sub : string) :
  includes s sub = true -> includes (a +:+ s) sub = true.
Proof.
  induction a as [|c a IH]; simpl; intros H; [exact H|].
  rewrite (IH H). apply orb_true_r.
Qed.

Lemma lower_char_space (c : ascii) : is_space (lower_char c) = is_space c.
Proof.
  apply Bool.eqb_prop.
  apply (for_all_chars_spec
           (fun c => Bool.eqb (is_space (lower_char c)) (is_space c))).
  vm_compute. reflexivity.
Qed.

Lemma app_nil_l (s : string) : EmptyString +:+ s = s.
Proof. reflexivity. Qed.

Lemma app_cons (c : ascii) (a b : string) :
  String c a +:+ b = String c (a +:+ b).
Proof. reflexivity. Qed.

Lemma app_nil_r (s : string) : s +:+ EmptyString = s.
Proof. induction s as [|c s IH]; [reflexivity | now rewrite app_cons, IH]. Qed.

Lemma app_assoc (a b c : string) : a +:+ (b +:+ c) = (a +:+ b) +:+ c.
Proof. induction a as [|x a IH]; [reflexivity | now rewrite !app_cons, IH]. Qed.

Lemma app_length (a b : string) :
  String.length (a +:+ b) = String.length a + String.length b.
Proof. induction a as [|x a IH]; [reflexivity | now rewrite app_cons; simpl; rewrite IH]. Qed.

Lemma trimEnd_nonempty (c : ascii) (t : string) :
  is_space c = false -> truthy (trimEnd (String c t)) = true.
Proof. intros H. simpl. destruct (trimEnd t); [rewrite H|]; reflexivity. Qed.

(** [s.trim()] is truthy exactly when [s] has a character that is no
    white space. *)
Lemma trim_truthy (s : string) : truthy (trim s) = negb (all_space s).
Proof.
  unfold trim. induction s as [|c s IH]; [reflexivity|].
  cbn [trimStart all_space]. destruct (is_space c) eqn:Hc; [exact IH|].
  now rewrite (trimEnd_nonempty c s Hc).
Qed.



Lemma all_space_app (a b : string) :
  all_space (a +:+ b) = all_space a && all_space b.
Proof.
  induction a as [|c a IH]; simpl; [reflexivity|].
  now rewrite IH, andb_assoc.
Qed.

Lemma has_char_app (c : ascii) (a b : string) :
  has_char c (a +:+ b) = has_char c a || has_char c b.
Proof.
  induction a as [|x a IH]; simpl; [reflexivity|].
  now rewrite IH, orb_assoc.
Qed.

Lemma prefix_has_char (c : ascii) (sub s : string) :
  String.prefix (String c sub) s = true -> has_char c s = true.
Proof.
  destruct s as [|a s]; simpl; [discriminate|].
  destruct (ascii_dec c a) as [->|Hne]; [now rewrite Ascii.eqb_refl|discriminate].
Qed.

(** A string that lacks the first character of [sub] does not include it. *)
Lemma includes_has_char (c : ascii) (sub s : string) :
  has_char c s = false -> includes s (String c sub) = false.
Proof.
  induction s as [|a s IH]; [reflexivity|].
  intros H. cbn [has_char] in H. apply orb_false_iff in H as [Ha Hs].
  cbn [includes]. rewrite (IH Hs), orb_false_r.
  simpl. destruct (ascii_dec c a) as [->|Hne]; [|reflexivity].
  now rewrite Ascii.eqb_refl in Ha.
Qed.

Lemma includes_app_l (a b sub : string) :
  includes a sub = true -> includes (a +:+ b) sub = true.
Proof.
  assert (Hp : forall x y, String.prefix sub x = true ->
                           String.prefix sub (x +:+ y) = true).
  { induction sub as [|c sub IHs]; intros x y;
      [destruct (x +:+ y); reflexivity|].
    destruct x as [|d x]; simpl; [discriminate|].
    destruct (ascii_dec c d); [apply IHs | discriminate]. }
  induction a as [|c a IH]; intros H.
  - simpl in H. rewrite orb_false_r in H.
    destruct sub; [|discriminate]. destruct b; reflexivity.
  - cbn [includes] in H. apply orb_true_iff in H as [H|H].
    + apply includes_prefix. now apply Hp.
    + change (String c a +:+ b) with (String c (a +:+ b)). cbn [includes].
      rewrite (IH H). apply orb_true_r.
Qed.

Lemma indexOf_includes (s sub : string) (pos : nat) :
  indexOf s sub = Some pos -> includes s sub = true.
Proof.
  revert pos. induction s as [|c s IH]; intros pos; cbn [indexOf includes].
  - destruct (String.prefix sub ""); [reflexivity | discriminate].
  - destruct (String.prefix sub (String c s)); [reflexivity|]. cbn [orb].
    destruct (indexOf s sub) as [n|]; [|discriminate]. intros _. now apply (IH n).
Qed.

(** A replacement text without a dollar sign stands for itself. *)
Lemma getSubstitution_plain (matched before after template : string) :
  has_char (ch "$") template = false ->
  getSubstitution matched before after template = template.
Proof.
  induction template as [|c rest IH]; [reflexivity|].
  cbn [has_char]. rewrite orb_false_iff. intros [Hc Hr].
  cbn [getSubstitution]. change (ascii_of_nat 36) with (ch "$").
  now rewrite Hc, (IH Hr).
Qed.

Lemma eqb_digit_false (c d : ascii) :
  between 48 57 c = false -> between 48 57 d = true -> Ascii.eqb d c = false.
Proof.
  intros Hc Hd. destruct (Ascii.eqb d c) eqn:E; [|reflexivity].
  apply Ascii.eqb_eq in E. subst d. congruence.
Qed.

Lemma digits_no_letter (c : ascii) (d : Decimal.uint) :
  between 48 57 c = false ->
  has_char c (NilEmpty.string_of_uint d) = false.
Proof.
  intros Hc. induction d; cbn [NilEmpty.string_of_uint has_char];
    [reflexivity | ..]; rewrite IHd, orb_false_r;
    now apply eqb_digit_false.
Qed.

(** The rendering of an integer holds digits and at most a sign. *)
Lemma of_Z_no_letter (c : ascii) (z : Z) :
  between 48 57 c = false -> Ascii.eqb (ascii_of_nat 45) c = false ->
  has_char c (of_Z z) = false.
Proof.
  intros Hc Hm.
  assert (Hu : forall d, has_char c (NilZero.string_of_uint d) = false).
  { intros d. unfold NilZero.string_of_uint.
    destruct d; try (apply digits_no_letter; exact Hc).
    cbn [has_char]. rewrite orb_false_r. now apply eqb_digit_false. }
  unfold of_Z, NilZero.string_of_int.
  destruct (Z.to_int z) as [d|d]; [apply Hu|].
  cbn [has_char]. rewrite Hu, orb_false_r. exact Hm.
Qed.

End JsString.

(* ===================================================================== *)
(** * Regular expressions *)
(* ===================================================================== *)

(** The fragment of JavaScript regular expressions the sources use, with a
    backtracking matcher in continuation-passing style.  The matcher walks
    the input with the previous code unit at hand, which is what the
    assertions [\b] and [^] look at. *)

Module Regex.
Import JsString.

Inductive regex : Type :=
| Chr (c : ascii)                 (* a literal character *)
| Cls (cs : list ascii)           (* a class of literal characters, [rf] *)
| Spc                             (* \s *)
| Dot                             (* . *)
| WordB                           (* \b *)
| Bol                             (* ^ *)
| Eps                             (* the empty pattern *)
| Seq (r1 r2 : regex)
| Alt (r1 r2 : regex)
| Star (r : regex).               (* r* *)

(** r+ *)
Definition Plus (r : regex) : regex := Seq r (Star r).
(** r{1,2} *)
Definition Rep12 (r : regex) : regex := Seq r (Alt r Eps).

Fixpoint cat (rs : list regex) : regex :=
  match rs with
  | [] => Eps
  | [r] => r
  | r :: rest => Seq r (cat rest)
  end.

(** A run of literal characters. *)
Fixpoint lit (s : string) : regex :=
  match s with
  | EmptyString => Eps
  | String c EmptyString => Chr c
  | String c s' => Seq (Chr c) (lit s')
  end.

Fixpoint alts (rs : list regex) : regex :=
  match rs with
  | [] => Eps
  | [r] => r
  | r :: rest => Alt r (alts rest)
  end.

(** A regular expression object: the pattern and its [i] flag.  None of the
    patterns of the sources carries [g], [m], [s], [u] or [y]. *)
Record RegExp : Type := mkRegExp { source : regex; ignoreCase : bool }.

(** A pattern character [c] against an input character [a]. *)
Definition char_eq (i : bool) (c a : ascii) : bool :=
  if i then (canonicalize a =? canonicalize c)%N else Ascii.eqb a c.

Definition is_word_opt (o : option ascii) : bool :=
  match o with Some c => is_word c | None => false end.

Definition next_char (s : string) : option ascii :=
  match s with EmptyString => None | String c _ => Some c end.

(** The single-character atoms. *)
Definition atom (i : bool) (r : regex) (a : ascii) : bool :=
  match r with
  | Chr c => char_eq i c a
  | Cls cs => existsb (fun c => char_eq i c a) cs
  | Spc => is_space a
  | Dot => negb (is_line_terminator a)
  | _ => false
  end.

Definition Cont : Type := option ascii -> string -> bool.

(** The iterations of [r*]: [body] is the matcher of [r].  An iteration
    that consumes nothing is rejected, as in the RepeatMatcher of the
    language definition; that also bounds the number of iterations by the
    length of the input, which is the fuel the loop is started with. *)
Fixpoint star_loop (body : option ascii -> string -> Cont -> bool) (k : Cont)
  (fuel : nat) (prev : option ascii) (s : string) : bool :=
  match fuel with
  | O => k prev s
  | S fuel' =>
      body prev s
        (fun p t =>
           (String.length t <? String.length s)%nat && star_loop body k fuel' p t)
      || k prev s
  end.

(** [m i r prev s k]: [r] matches a prefix of [s] (the code unit before [s]
    being [prev]) and the continuation [k] accepts what follows. *)
Fixpoint m (i : bool) (r : regex) (prev : option ascii) (s : string)
  (k : Cont) {struct r} : bool :=
  match r with
  | Chr _ | Cls _ | Spc | Dot =>
      match s with
      | String a s' => atom i r a && k (Some a) s'
      | EmptyString => false
      end
  | WordB => xorb (is_word_opt prev) (is_word_opt (next_char s)) && k prev s
  | Bol => match prev with None => k prev s | Some _ => false end
  | Eps => k prev s
  | Seq r1 r2 => m i r1 prev s (fun p t => m i r2 p t k)
  | Alt r1 r2 => m i r1 prev s k || m i r2 prev s k
  | Star r1 => star_loop (m i r1) k (String.length s) prev s
  end.

(** A match starting at this or any later position. *)
Fixpoint search (i : bool) (r : regex) (prev : option ascii) (s : string) : bool :=
  m i r prev s (fun _ _ => true) ||
  match s with
  | EmptyString => false
  | String a s' => search i r (Some a) s'
  end.

(** [pattern.test(s)]. *)
Definition test (p : RegExp) (s : string) : bool :=
  search (ignoreCase p) (source p) None s.

(** A pattern is stable under lower-casing when each of its atoms that
    accepts a character also accepts its lower-case form. *)
Fixpoint stable (i : bool) (r : regex) : bool :=
  match r with
  | Chr _ | Cls _ | Spc | Dot =>
      for_all_chars (fun a => implb (atom i r a) (atom i r (lower_char a)))
  | WordB | Bol | Eps => true
  | Seq r1 r2 | Alt r1 r2 => stable i r1 && stable i r2
  | Star r1 => stable i r1
  end.

(** ** Matching survives lower-casing of the input *)

Definition lower_opt (o : option ascii) : option ascii := lower_char <$> o.

(** [k'] accepts the lower-cased form of whatever [k] accepts. *)
Definition cont_lower (k k' : Cont) : Prop :=
  forall p t, k p t = true -> k' (lower_opt p) (toLowerCase t) = true.

Lemma is_word_opt_lower (o : option ascii) :
  is_word_opt (lower_opt o) = is_word_opt o.
Proof. destruct o; simpl; [apply lower_char_word | reflexivity]. Qed.

Lemma next_char_lower (s : string) :
  next_char (toLowerCase s) = lower_opt (next_char s).
Proof. destruct s; reflexivity. Qed.

Lemma atom_lower (i : bool) (r : regex) (a : ascii) :
  for_all_chars (fun a => implb (atom i r a) (atom i r (lower_char a))) = true ->
  atom i r a = true -> atom i r (lower_char a) = true.
Proof.
  intros Hs Ha. pose proof (for_all_chars_spec _ Hs a) as H.
  simpl in H. rewrite Ha in H. exact H.
Qed.

Lemma step_lower (i : bool) (r : regex) (prev : option ascii) (s : string)
  (k k' : Cont) :
  for_all_chars (fun a => implb (atom i r a) (atom i r (lower_char a))) = true ->
  cont_lower k k' ->
  match s with
  | String a s' => atom i r a && k (Some a) s'
  | EmptyString => false
  end = true ->
  match toLowerCase s with
  | String a s' => atom i r a && k' (Some a) s'
  | EmptyString => false
  end = true.
Proof.
  intros Hs Hk. destruct s as [|a s']; simpl; [discriminate|].
  rewrite andb_true_iff. intros [Ha Hka].
  rewrite (atom_lower _ _ _ Hs Ha). simpl. exact (Hk _ _ Hka).
Qed.

Lemma star_loop_lower (body : option ascii -> string -> Cont -> bool) (k k' : Cont) :
  (forall prev s c c', cont_lower c c' ->
     body prev s c = true -> body (lower_opt prev) (toLowerCase s) c' = true) ->
  cont_lower k k' ->
  forall fuel prev s,
    star_loop body k fuel prev s = true ->
    star_loop body k' fuel (lower_opt prev) (toLowerCase s) = true.
Proof.
  intros Hbody Hk fuel. induction fuel as [|fuel IH]; intros prev s; simpl.
  - apply Hk.
  - rewrite !orb_true_iff. intros [H|H]; [left | right; now apply Hk].
    revert H. apply Hbody. intros p t. rewrite !andb_true_iff.
    rewrite !toLowerCase_length. intros [Hlt Hl]. split; [exact Hlt|].
    now apply IH.
Qed.

Lemma m_lower (i : bool) (r : regex) :
  stable i r = true ->
  forall prev s k k', cont_lower k k' ->
    m i r prev s k = true ->
    m i r (lower_opt prev) (toLowerCase s) k' = true.
Proof.
  induction r as [c|cs| | | | | |r1 IH1 r2 IH2|r1 IH1 r2 IH2|r1 IH1];
    simpl; intros Hst prev s k k' Hk.
  - now apply (step_lower i (Chr c) prev s k k').
  - now apply (step_lower i (Cls cs) prev s k k').
  - now apply (step_lower i Spc prev s k k').
  - now apply (step_lower i Dot prev s k k').
  - rewrite next_char_lower, !is_word_opt_lower, !andb_true_iff.
    intros [Hx Hc]. split; [exact Hx | now apply Hk].
  - destruct prev; simpl; [discriminate | apply (Hk None)].
  - apply Hk.
  - apply andb_true_iff in Hst as [H1 H2].
    apply (IH1 H1). intros p t. now apply (IH2 H2).
  - apply andb_true_iff in Hst as [H1 H2]. rewrite !orb_true_iff.
    intros [H|H]; [left; now apply (IH1 H1 _ _ k) | right; now apply (IH2 H2 _ _ k)].
  - rewrite toLowerCase_length. apply star_loop_lower; [|exact Hk].
    intros p t c c' Hc. now apply IH1.
Qed.

Lemma search_lower (i : bool) (r : regex) :
  stable i r = true ->
  forall s prev,
    search i r prev s = true ->
    search i r (lower_opt prev) (toLowerCase s) = true.
Proof.
  intros Hst s. induction s as [|a s IH]; intros prev; simpl;
    rewrite !orb_true_iff; intros [H|H].
  - left. revert H. apply (m_lower i r Hst prev EmptyString). now intros p t _.
  - discriminate.
  - left. revert H. apply (m_lower i r Hst prev (String a s)). now intros p t _.
  - right. apply (IH (Some a) H).
Qed.

(** A pattern with lower-stable atoms that matches a string also matches
    its lower-case form. *)
Lemma test_lower (p : RegExp) (s : string) :
  stable (ignoreCase p) (source p) = true ->
  test p s = true -> test p (toLowerCase s) = true.
Proof. intros Hst. apply (search_lower _ _ Hst s None). Qed.

End Regex.

(* ===================================================================== *)
(** * Thrown values and completions *)
(* ===================================================================== *)

Module Js.

(** One issue of a [ZodError]: the path into the value (keys and indices)
    and the message. *)
Inductive PathSeg : Type :=
| Key (k : string)
| Index (n : nat).

Record ZodIssue : Type := mkIssue { path : list PathSeg; message : string }.

(** What a [catch] clause can receive: a [ZodError] (an [Error] whose
    [message] renders its issues), an [Error] whose [name] is "Error" (what
    [new Error(msg)] and [node:fs] throw), an [Error] of another name
    ([TypeError], [RangeError], ...), or a value that is no [Error], known
    by its [String(...)] rendering. *)
Inductive Thrown : Type :=
| ZodError (errors : list ZodIssue) (msg : string)
| JsError (msg : string)
| NamedError (name msg : string)
| JsValue (rendered : string).

Inductive Completion (A : Type) : Type :=
| Normal (a : A)
| Throw (e : Thrown).
Arguments Normal {A} a.
Arguments Throw {A} e.

(** [err instanceof Error ? err.message : String(err)] *)
Definition describe (e : Thrown) : string :=
  match e with
  | ZodError _ msg => msg
  | JsError msg => msg
  | NamedError _ msg => msg
  | JsValue rendered => rendered
  end.

(** [Error.prototype.toString] by [name] and [message]: the one that is
    not empty, or "{name}: {message}". *)
Definition error_toString (name msg : string) : string :=
  match name, msg with
  | EmptyString, _ => msg
  | _, EmptyString => name
  | _, _ => name +:+ ": " +:+ msg
  end.

(** The values of tool arguments, as JSON has them. *)
#[local] Unset Elimination Schemes.
Inductive JsonValue : Type :=
| JNull
| JBool (b : bool)
| JNumber (z : Z)
| JString (s : string)
| JArray (items : list JsonValue)
| JObject (fields : list (string * JsonValue)).
#[local] Set Elimination Schemes.

(** A [Record<string, unknown>]. *)
Definition Params : Type := list (string * JsonValue).

(** The line feed, as the one-character string. *)
Definition nl : string := String (ascii_of_nat 10) EmptyString.
(** The backslash, as the one-character string. *)
Definition backslash : string := String (ascii_of_nat 92) EmptyString.

End Js.

(* ===================================================================== *)
(** * tools/shell.ts *)
(* ===================================================================== *)

Module Shell.
Import JsString Regex Js.

Definition DEFAULT_DENY_PATTERNS : list RegExp :=
  [ (* /\brm\s+-[rf]{1,2}\b/ *)
    mkRegExp (cat [WordB; lit "rm"; Plus Spc; Chr (ch "-");
                   Rep12 (Cls [ch "r"; ch "f"]); WordB]) false;
    (* /\bdel\s+\/[fq]\b/i *)
    mkRegExp (cat [WordB; lit "del"; Plus Spc; Chr (ch "/");
                   Cls [ch "f"; ch "q"]; WordB]) true;
    (* /\brmdir\s+\/s\b/i *)
    mkRegExp (cat [WordB; lit "rmdir"; Plus Spc; lit "/s"; WordB]) true;
    (* /\b(format|mkfs|diskpart)\b/i *)
    mkRegExp (cat [WordB; alts [lit "format"; lit "mkfs"; lit "diskpart"];
                   WordB]) true;
    (* /\bdd\s+if=/ *)
    mkRegExp (cat [WordB; lit "dd"; Plus Spc; lit "if="]) false;
    (* />\s*\/dev\/sd/ *)
    mkRegExp (cat [Chr (ch ">"); Star Spc; lit "/dev/sd"]) false;
    (* /\b(shutdown|reboot|poweroff)\b/ *)
    mkRegExp (cat [WordB; alts [lit "shutdown"; lit "reboot"; lit "poweroff"];
                   WordB]) false;
    (* /:\(\)\s*\{.*\};\s*:/ *)
    mkRegExp (cat [lit ":()"; Star Spc; Chr (ch "{"); Star Dot; lit "};";
                   Star Spc; Chr (ch ":")]) false ].

Record ExecTool : Type := mkExecTool {
  timeout : Z;
  workingDir : string;
  restrictToWorkspace : bool;
  denyPatterns : list RegExp
}.

Record ExecOptions : Type := mkExecOptions {
  opt_timeout : option Z;
  opt_workingDir : option string;
  opt_restrictToWorkspace : option bool;
  opt_denyPatterns : option (list RegExp)
}.

Definition no_options : ExecOptions := mkExecOptions None None None None.

(** The constructor; [cwd] is [process.cwd()]. *)
Definition new_ExecTool (options : ExecOptions) (cwd : string) : ExecTool :=
  {| timeout := default 60%Z (opt_timeout options);
     workingDir := default cwd (opt_workingDir options);
     restrictToWorkspace := default false (opt_restrictToWorkspace options);
     denyPatterns := default DEFAULT_DENY_PATTERNS (opt_denyPatterns options) |}.

Definition dangerous_msg : string :=
  "Error: Command blocked by safety guard (dangerous pattern detected)".
Definition traversal_msg : string :=
  "Error: Command blocked by safety guard (path traversal detected)".

(** The [for] loop of [guardCommand] over the deny patterns. *)
Fixpoint deny_loop (patterns : list RegExp) (lower : string) : option string :=
  match patterns with
  | [] => None
  | pattern :: rest =>
      if test pattern lower then Some dangerous_msg else deny_loop rest lower
  end.

(** [guardCommand], on a command of code units below U+0100;
    [ExecGuard.guardCommand] is the guard on any command, and is this one
    on such a command ([ExecGuard.guardCommand_of_string]). *)
Definition guardCommand (t : ExecTool) (command : string) : option string :=
  let lower := toLowerCase command in
  match deny_loop (denyPatterns t) lower with
  | Some blocked => Some blocked
  | None =>
      if restrictToWorkspace t
         && (includes command "../" || includes command (".." +:+ backslash))
      then Some traversal_msg
      else None
  end.

Record ExecParams : Type := mkExecParams {
  command : string;
  working_dir : option string
}.

Record ProcResult : Type := mkProcResult {
  stdout : string;
  stderr : string;
  exitCode : Z
}.

(** The output assembled from the two streams and the exit code, before
    truncation. *)
Definition render (r : ProcResult) : string :=
  let output := EmptyString in
  let output :=
    if truthy (trim (stdout r)) then output +:+ stdout r else output in
  let output :=
    if truthy (trim (stderr r))
    then output +:+ ((if truthy output then nl else EmptyString)
                     +:+ ("STDERR:" +:+ nl +:+ stderr r))
    else output in
  let output :=
    if negb (truthy (trim output))
    then "(no output, exit code " +:+ of_Z (exitCode r) +:+ ")"
    else output in
  if negb (exitCode r =? 0)%Z && negb (includes output "STDERR:")
  then output +:+ (nl +:+ "Exit code: " +:+ of_Z (exitCode r))
  else output.

Definition truncated_marker : string := nl +:+ "... (truncated)".

(** The output limit, 10,000 code units. *)
Definition MAX_OUTPUT : nat := 100 * 100.

(** Truncate at 10,000 chars. *)
Definition truncate (output : string) : string :=
  if (MAX_OUTPUT <? String.length output)%nat
  then take MAX_OUTPUT output +:+ truncated_marker
  else output.

Definition format_output (r : ProcResult) : string := truncate (render r).

Section Execute.

(** [Bun.spawn(["sh", "-c", command], {cwd, ...})] followed to the end of
    the process, by working directory and command: the two streams and the
    exit code, or the error thrown on the way.  The timer that kills the
    process after [timeout] seconds is part of what the process leaves. *)
Variable spawn : string -> string -> Completion ProcResult.

(** [execute], with the list of shell invocations it made, as
    (working directory, command). *)
Definition execute (t : ExecTool) (params : ExecParams)
  : string * list (string * string) :=
  match guardCommand t (command params) with
  | Some blocked => (blocked, [])
  | None =>
      let cwd := default (workingDir t) (working_dir params) in
      match spawn cwd (command params) with
      | Normal r => (format_output r, [(cwd, command params)])
      | Throw err => ("Error: " +:+ describe err, [(cwd, command params)])
      end
  end.

End Execute.

(** ** The safety guard *)

Lemma default_patterns_stable (pattern : RegExp) :
  In pattern DEFAULT_DENY_PATTERNS ->
  stable (ignoreCase pattern) (source pattern) = true.
Proof.
  assert (H : forallb (fun p => stable (ignoreCase p) (source p))
                DEFAULT_DENY_PATTERNS = true) by (vm_compute; reflexivity).
  rewrite forallb_forall in H. apply H.
Qed.

Lemma deny_loop_hit (patterns : list RegExp) (lower : string) (pattern : RegExp) :
  In pattern patterns -> test pattern lower = true ->
  deny_loop patterns lower = Some dangerous_msg.
Proof.
  induction patterns as [|q rest IH]; intros Hin Ht; [destruct Hin|].
  simpl. destruct (test q lower) eqn:Hq; [reflexivity|].
  destruct Hin as [->|Hin]; [congruence | now apply IH].
Qed.

Lemma deny_loop_msg (patterns : list RegExp) (lower msg : string) :
  deny_loop patterns lower = Some msg -> msg = dangerous_msg.
Proof.
  induction patterns as [|q rest IH]; simpl; [discriminate|].
  destruct (test q lower); [congruence | exact IH].
Qed.

(** Whatever the guard answers holds the common prefix of its two
    messages. *)
Lemma guardCommand_msg (t : ExecTool) (cmd msg : string) :
  guardCommand t cmd = Some msg ->
  includes msg "Error: Command blocked by safety guard" = true.
Proof.
  unfold guardCommand.
  destruct (deny_loop (denyPatterns t) (toLowerCase cmd)) as [b|] eqn:Hd.
  - intros [= <-]. now rewrite (deny_loop_msg _ _ _ Hd).
  - destruct (_ && _); [intros [= <-]; reflexivity | discriminate].
Qed.

(** ** The output of a command *)

Lemma no_output_has_no_marker (z : Z) :
  includes ("(no output, exit code " +:+ of_Z z +:+ ")") "STDERR:" = false.
Proof.
  apply includes_has_char. rewrite !has_char_app.
  rewrite of_Z_no_letter by reflexivity. reflexivity.
Qed.

Lemma render_with_stderr (r : ProcResult) :
  truthy (trim (stderr r)) = true ->
  render r = (if truthy (trim (stdout r)) then stdout r +:+ nl else EmptyString)
             +:+ ("STDERR:" +:+ nl +:+ stderr r).
Proof.
  intros He. unfold render. rewrite He.
  destruct (truthy (trim (stdout r))) eqn:Ho; rewrite ?app_nil_l.
  - assert (Hne : truthy (stdout r) = true).
    { destruct (stdout r); [discriminate | reflexivity]. }
    rewrite Hne.
    assert (Hb : truthy (trim (stdout r +:+ (nl +:+ ("STDERR:" +:+ nl +:+ stderr r))))
                 = true).
    { rewrite trim_truthy, all_space_app. rewrite trim_truthy in Ho.
      apply negb_true_iff in Ho. now rewrite Ho. }
    rewrite Hb. cbn [negb].
    rewrite (includes_app_r (stdout r) (nl +:+ ("STDERR:" +:+ nl +:+ stderr r)))
      by reflexivity.
    rewrite andb_false_r.
    now rewrite app_assoc.
  - cbn [truthy]. rewrite ?app_nil_l.
    assert (Hb : truthy (trim ("STDERR:" +:+ nl +:+ stderr r)) = true)
      by now rewrite trim_truthy.
    rewrite Hb. cbn [negb].
    rewrite (includes_prefix ("STDERR:" +:+ nl +:+ stderr r) "STDERR:")
      by reflexivity.
    now rewrite andb_false_r.
Qed.

Lemma blank_has_no_marker (o : string) :
  all_space o = true -> includes o "STDERR:" = false.
Proof.
  intros Ho. apply includes_has_char.
  induction o as [|c o IH]; [reflexivity|].
  cbn [has_char all_space] in *. apply andb_true_iff in Ho as [Hc Ho].
  rewrite (IH Ho), orb_false_r.
  destruct (Ascii.eqb c "S") eqn:E; [|reflexivity].
  apply Ascii.eqb_eq in E. subst c. discriminate.
Qed.

Lemma render_without_stderr (r : ProcResult) :
  truthy (trim (stderr r)) = false ->
  render r =
    (if truthy (trim (stdout r)) then stdout r
     else "(no output, exit code " +:+ of_Z (exitCode r) +:+ ")")
    +:+ (if negb (exitCode r =? 0)%Z && negb (includes (stdout r) "STDERR:")
         then nl +:+ "Exit code: " +:+ of_Z (exitCode r) else EmptyString).
Proof.
  intros He. unfold render. rewrite He.
  destruct (truthy (trim (stdout r))) eqn:Ho; rewrite ?app_nil_l.
  - rewrite Ho. cbn [negb].
    destruct (negb (exitCode r =? 0)%Z && negb (includes (stdout r) "STDERR:"));
      [reflexivity|]. now rewrite app_nil_r.
  - change (trim EmptyString) with EmptyString. cbn [truthy negb].
    rewrite no_output_has_no_marker.
    rewrite trim_truthy in Ho. apply negb_false_iff in Ho.
    rewrite (blank_has_no_marker _ Ho). cbn [negb]. rewrite !andb_true_r.
    destruct (negb (exitCode r =? 0)%Z); [reflexivity|].
    now rewrite app_nil_r.
Qed.

(** C4 (as amended).  For a command that passes the guard and whose
    process ends with streams [stdout], [stderr] and exit code N, the answer
    is the assembled output cut to its first 10,000 characters plus the
    marker "\n... (truncated)" when it is longer than that, where the
    assembled output is: with a non-blank [stderr], [stdout] (when
    non-blank, followed by a line feed), then "STDERR:\n" and [stderr], and
    no exit code; with a blank [stderr], [stdout] (or
    "(no output, exit code N)" when that is blank too), followed by
    "\nExit code: N" when N is not zero and [stdout] does not contain
    "STDERR:". *)
Theorem exec_output_format
  (spawn : string -> string -> Completion ProcResult)
  (t : ExecTool) (params : ExecParams) (r : ProcResult) :
  guardCommand t (command params) = None ->
  spawn (default (workingDir t) (working_dir params)) (command params)
    = Normal r ->
  exists raw,
    execute spawn t params
    = (if (MAX_OUTPUT <? String.length raw)%nat
       then take MAX_OUTPUT raw +:+ (nl +:+ "... (truncated)") else raw,
       [(default (workingDir t) (working_dir params), command params)])
    /\ (truthy (trim (stderr r)) = true ->
        raw = (if truthy (trim (stdout r)) then stdout r +:+ nl else EmptyString)
              +:+ ("STDERR:" +:+ nl +:+ stderr r))
    /\ (truthy (trim (stderr r)) = false ->
        raw = (if truthy (trim (stdout r)) then stdout r
               else "(no output, exit code " +:+ of_Z (exitCode r) +:+ ")")
              +:+ (if negb (exitCode r =? 0)%Z
                      && negb (includes (stdout r) "STDERR:")
                   then nl +:+ "Exit code: " +:+ of_Z (exitCode r)
                   else EmptyString)).
Proof.
  intros Hg Hs. exists (render r). split; [|split].
  - unfold execute. rewrite Hg, Hs. reflexivity.
  - apply render_with_stderr.
  - apply render_without_stderr.
Qed.

Lemma exec_output_format_witness :
  exists raw,
    execute (fun _ _ => Normal (mkProcResult "out" "" 2))
      (new_ExecTool no_options "/home/robun") (mkExecParams "ls" None)
    = (if (MAX_OUTPUT <? String.length raw)%nat
       then take MAX_OUTPUT raw +:+ (nl +:+ "... (truncated)") else raw,
       [("/home/robun", "ls")])
    /\ (truthy (trim "") = true ->
        raw = (if truthy (trim "out") then "out" +:+ nl else EmptyString)
              +:+ ("STDERR:" +:+ nl +:+ ""))
    /\ (truthy (trim "") = false ->
        raw = (if truthy (trim "out") then "out"
               else "(no output, exit code " +:+ of_Z 2 +:+ ")")
              +:+ (if negb (2 =? 0)%Z && negb (includes "out" "STDERR:")
                   then nl +:+ "Exit code: " +:+ of_Z 2
                   else EmptyString)).
Proof.
  apply (exec_output_format (fun _ _ => Normal (mkProcResult "out" "" 2))
           (new_ExecTool no_options "/home/robun") (mkExecParams "ls" None)
           (mkProcResult "out" "" 2)).
  - vm_compute. reflexivity.
  - reflexivity.
Defined.

(** C4 as stated fails: a process that writes to [stderr] and exits with
    code 1 is answered without "Exit code: 1". *)
Lemma exit_code_missing_with_stderr :
  exitCode (mkProcResult "" "boom" 1) <> 0%Z /\
  execute (fun _ _ => Normal (mkProcResult "" "boom" 1))
    (new_ExecTool no_options "/home/robun") (mkExecParams "false" None)
  = ("STDERR:" +:+ nl +:+ "boom", [("/home/robun", "false")]) /\
  includes ("STDERR:" +:+ nl +:+ "boom") ("Exit code: " +:+ of_Z 1) = false.
Proof. split; [discriminate|]. split; vm_compute; reflexivity. Qed.

End Shell.

(* ===================================================================== *)
(** * Strings in full: UTF-16 code units *)
(* ===================================================================== *)

(** The command the exec tool is given may hold any code unit.  Here a
    string is the list of its UTF-16 code units, and the regular
    expressions of [Regex] are matched against such a list: the classes
    [\s], [.] and [\w] and the comparison under the [i] flag are those of
    the language for every code unit.  The strings of [JsString] are the
    strings whose code units are below U+0100; on them the two matchers
    agree. *)

Module Utf16.
Import JsString Regex.

Definition wstring : Type := list N.

(** A string of code units below U+0100, unit by unit. *)
Fixpoint of_string (s : string) : wstring :=
  match s with
  | EmptyString => []
  | String c s' => code c :: of_string s'
  end.

Definition latin1 (s : wstring) : Prop := Forall (fun u => (u < 256)%N) s.

Definition in_range (lo hi u : N) : bool := ((lo <=? u) && (u <=? hi))%N.

(** WhiteSpace and LineTerminator, the class [\s]: TAB..CR, SPACE,
    U+00A0, U+1680, U+2000..U+200A, U+2028, U+2029, U+202F, U+205F, U+3000
    and U+FEFF. *)
Definition space_unit (u : N) : bool :=
  in_range 9 13 u || (u =? 32)%N || (u =? 160)%N || (u =? 5760)%N
  || in_range 8192 8202 u || (u =? 8232)%N || (u =? 8233)%N
  || (u =? 8239)%N || (u =? 8287)%N || (u =? 12288)%N || (u =? 65279)%N.

(** LineTerminator, what [.] refuses: LF, CR, U+2028 and U+2029. *)
Definition line_terminator_unit (u : N) : bool :=
  (u =? 10)%N || (u =? 13)%N || (u =? 8232)%N || (u =? 8233)%N.

(** The class [\w]: [A-Za-z0-9_]. *)
Definition word_unit (u : N) : bool :=
  in_range 65 90 u || in_range 97 122 u || in_range 48 57 u || (u =? 95)%N.

(** A pattern character [c] against an input code unit [u].  Under the
    [i] flag both are canonicalized: to the upper-case code unit when
    that is a single code unit and does not move a unit from U+0080 on
    into ASCII.  A unit from U+0100 on is therefore never taken for an
    ASCII character; of the values the pattern characters canonicalize
    to, U+0178 is reached from such a unit by U+0178 itself and U+039C by
    U+039C and U+03BC. *)
Definition unit_eq (i : bool) (c : ascii) (u : N) : bool :=
  if i then
    if (u <? 256)%N then (canonicalize (ascii_of_N u) =? canonicalize c)%N
    else ((canonicalize c =? 376)%N && (u =? 376)%N)
         || ((canonicalize c =? 924)%N && ((u =? 924)%N || (u =? 956)%N))
  else (u =? code c)%N.

Definition word_unit_opt (o : option N) : bool :=
  match o with Some u => word_unit u | None => false end.

(** The single-character atoms. *)
Definition unit_atom (i : bool) (r : regex) (u : N) : bool :=
  match r with
  | Chr c => unit_eq i c u
  | Cls cs => existsb (fun c => unit_eq i c u) cs
  | Spc => space_unit u
  | Dot => negb (line_terminator_unit u)
  | _ => false
  end.

Definition WCont : Type := option N -> wstring -> bool.

(** The iterations of [r*], as [Regex.star_loop]. *)
Fixpoint wstar_loop (body : option N -> wstring -> WCont -> bool) (k : WCont)
  (fuel : nat) (prev : option N) (s : wstring) : bool :=
  match fuel with
  | O => k prev s
  | S fuel' =>
      body prev s
        (fun p t => (length t <? length s)%nat && wstar_loop body k fuel' p t)
      || k prev s
  end.

(** [wm i r prev s k]: [r] matches a prefix of [s] (the code unit before
    [s] being [prev]) and the continuation [k] accepts what follows. *)
Fixpoint wm (i : bool) (r : regex) (prev : option N) (s : wstring)
  (k : WCont) {struct r} : bool :=
  match r with
  | Chr _ | Cls _ | Spc | Dot =>
      match s with
      | u :: s' => unit_atom i r u && k (Some u) s'
      | [] => false
      end
  | WordB => xorb (word_unit_opt prev) (word_unit_opt (head s)) && k prev s
  | Bol => match prev with None => k prev s | Some _ => false end
  | Eps => k prev s
  | Seq r1 r2 => wm i r1 prev s (fun p t => wm i r2 p t k)
  | Alt r1 r2 => wm i r1 prev s k || wm i r2 prev s k
  | Star r1 => wstar_loop (wm i r1) k (length s) prev s
  end.

(** A match starting at this or any later position. *)
Fixpoint wsearch (i : bool) (r : regex) (prev : option N) (s : wstring) : bool :=
  wm i r prev s (fun _ _ => true) ||
  match s with
  | [] => false
  | u :: s' => wsearch i r (Some u) s'
  end.

(** [pattern.test(s)]. *)
Definition wtest (p : RegExp) (s : wstring) : bool :=
  wsearch (ignoreCase p) (source p) None s.

Fixpoint wprefix (p s : wstring) : bool :=
  match p, s with
  | [], _ => true
  | a :: p', b :: s' => (a =? b)%N && wprefix p' s'
  | _ :: _, [] => false
  end.

(** [s.includes(sub)]. *)
Fixpoint wincludes (s sub : wstring) : bool :=
  wprefix sub s ||
  match s with
  | [] => false
  | _ :: s' => wincludes s' sub
  end.

(** [toLowerCase] on a code unit below U+0100 (any other is left). *)
Definition lower_latin1 (u : N) : N :=
  if (u <? 256)%N then code (lower_char (ascii_of_N u)) else u.

(** ** The strings below U+0100 *)

Lemma code_bound (c : ascii) : (code c < 256)%N.
Proof. apply N_ascii_bounded. Qed.

Lemma ascii_of_code (c : ascii) : ascii_of_N (code c) = c.
Proof. apply ascii_N_embedding. Qed.

Lemma code_of_ascii (u : N) : (u < 256)%N -> code (ascii_of_N u) = u.
Proof. apply N_ascii_embedding. Qed.

Lemma of_string_latin1 (s : string) : latin1 (of_string s).
Proof.
  induction s as [|c s IH]; [constructor|]. constructor; [apply code_bound | exact IH].
Qed.

Lemma latin1_of_string (s : wstring) : latin1 s -> exists x, s = of_string x.
Proof.
  induction s as [|u s IH]; intros H; [now exists EmptyString|].
  apply Forall_cons in H as [Hu Hs]. destruct (IH Hs) as [x ->].
  exists (String (ascii_of_N u) x). cbn [of_string]. now rewrite code_of_ascii.
Qed.

Lemma of_string_app (a b : string) :
  of_string (a +:+ b) = of_string a ++ of_string b.
Proof.
  induction a as [|c a IH]; [now rewrite app_nil_l|].
  rewrite app_cons. cbn [of_string]. now rewrite IH.
Qed.

Lemma of_string_length (s : string) : length (of_string s) = String.length s.
Proof. induction s as [|c s IH]; [reflexivity|]. cbn. now rewrite IH. Qed.

Lemma of_string_lower (s : string) :
  map lower_latin1 (of_string s) = of_string (toLowerCase s).
Proof.
  induction s as [|c s IH]; [reflexivity|]. cbn [of_string toLowerCase map].
  rewrite IH. unfold lower_latin1.
  pose proof (code_bound c) as Hc. apply N.ltb_lt in Hc. rewrite Hc.
  now rewrite ascii_of_code.
Qed.

Lemma space_unit_code (a : ascii) : space_unit (code a) = is_space a.
Proof.
  apply Bool.eqb_prop.
  apply (for_all_chars_spec (fun a => Bool.eqb (space_unit (code a)) (is_space a))).
  vm_compute. reflexivity.
Qed.

Lemma line_terminator_unit_code (a : ascii) :
  line_terminator_unit (code a) = is_line_terminator a.
Proof.
  apply Bool.eqb_prop.
  apply (for_all_chars_spec
           (fun a => Bool.eqb (line_terminator_unit (code a)) (is_line_terminator a))).
  vm_compute. reflexivity.
Qed.

Lemma word_unit_code (a : ascii) : word_unit (code a) = is_word a.
Proof. reflexivity. Qed.

Lemma unit_eq_code (i : bool) (c a : ascii) : unit_eq i c (code a) = char_eq i c a.
Proof.
  unfold unit_eq, char_eq. destruct i.
  - pose proof (code_bound a) as Ha. apply N.ltb_lt in Ha. rewrite Ha.
    now rewrite ascii_of_code.
  - destruct (Ascii.eqb_spec a c) as [->|Hne]; [apply N.eqb_refl|].
    apply N.eqb_neq. intros H. apply Hne.
    rewrite <- (ascii_of_code a), <- (ascii_of_code c). now rewrite H.
Qed.

Lemma unit_atom_code (i : bool) (r : regex) (a : ascii) :
  unit_atom i r (code a) = atom i r a.
Proof.
  destruct r; cbn [unit_atom atom]; try reflexivity.
  - apply unit_eq_code.
  - induction cs as [|c cs IH]; [reflexivity|]. cbn [existsb].
    now rewrite unit_eq_code, IH.
  - apply space_unit_code.
  - now rewrite line_terminator_unit_code.
Qed.

Definition code_opt (o : option ascii) : option N := code <$> o.

(** [k'] answers on a string below U+0100 what [k] answers on it. *)
Definition cont_agree (k : Cont) (k' : WCont) : Prop :=
  forall p t, k' (code_opt p) (of_string t) = k p t.

Lemma word_unit_opt_code (o : option ascii) :
  word_unit_opt (code_opt o) = is_word_opt o.
Proof. destruct o; reflexivity. Qed.

Lemma head_of_string (s : string) : head (of_string s) = code_opt (next_char s).
Proof. destruct s; reflexivity. Qed.

Lemma wstar_loop_of_string
  (body : option ascii -> string -> Cont -> bool)
  (body' : option N -> wstring -> WCont -> bool) (k : Cont) (k' : WCont) :
  (forall prev s c c', cont_agree c c' ->
     body' (code_opt prev) (of_string s) c' = body prev s c) ->
  cont_agree k k' ->
  forall fuel prev s,
    wstar_loop body' k' fuel (code_opt prev) (of_string s)
    = star_loop body k fuel prev s.
Proof.
  intros Hbody Hk fuel. induction fuel as [|fuel IH]; intros prev s; simpl.
  - apply Hk.
  - rewrite (Hk prev s). f_equal. apply Hbody. intros p t.
    rewrite !of_string_length. now rewrite IH.
Qed.

Lemma wm_of_string (i : bool) (r : regex) :
  forall prev s k k', cont_agree k k' ->
    wm i r (code_opt prev) (of_string s) k' = m i r prev s k.
Proof.
  induction r as [c|cs| | | | | |r1 IH1 r2 IH2|r1 IH1 r2 IH2|r1 IH1];
    intros prev s k k' Hk; cbn [wm m].
  - destruct s as [|a s]; [reflexivity|]. cbn [of_string].
    rewrite (unit_atom_code i (Chr c)). f_equal. apply (Hk (Some a) s).
  - destruct s as [|a s]; [reflexivity|]. cbn [of_string].
    rewrite (unit_atom_code i (Cls cs)). f_equal. apply (Hk (Some a) s).
  - destruct s as [|a s]; [reflexivity|]. cbn [of_string].
    rewrite (unit_atom_code i Spc). f_equal. apply (Hk (Some a) s).
  - destruct s as [|a s]; [reflexivity|]. cbn [of_string].
    rewrite (unit_atom_code i Dot). f_equal. apply (Hk (Some a) s).
  - now rewrite head_of_string, !word_unit_opt_code, (Hk prev s).
  - destruct prev; [reflexivity | apply (Hk None)].
  - apply Hk.
  - apply IH1. intros p t. now apply IH2.
  - now rewrite (IH1 _ _ k k' Hk), (IH2 _ _ k k' Hk).
  - rewrite of_string_length. apply wstar_loop_of_string; [|exact Hk].
    intros p t c c' Hc. now apply IH1.
Qed.

Lemma wsearch_of_string (i : bool) (r : regex) (s : string) :
  forall prev, wsearch i r (code_opt prev) (of_string s) = search i r prev s.
Proof.
  induction s as [|a s IH]; intros prev; cbn [wsearch search of_string].
  - f_equal. apply (wm_of_string i r prev EmptyString). now intros p t.
  - f_equal; [|apply (IH (Some a))].
    apply (wm_of_string i r prev (String a s)). now intros p t.
Qed.

(** On a string below U+0100 the two matchers agree. *)
Lemma wtest_of_string (p : RegExp) (s : string) :
  wtest p (of_string s) = test p s.
Proof. apply (wsearch_of_string _ _ s None). Qed.

Lemma wprefix_of_string (p s : string) :
  wprefix (of_string p) (of_string s) = String.prefix p s.
Proof.
  revert s. induction p as [|c p IH]; intros s; [now destruct s|].
  destruct s as [|d s]; [reflexivity|]. cbn [of_string wprefix String.prefix].
  rewrite IH. destruct (ascii_dec c d) as [->|Hne]; [now rewrite N.eqb_refl|].
  replace (code c =? code d)%N with false; [reflexivity|].
  symmetry. apply N.eqb_neq. intros H. apply Hne.
  rewrite <- (ascii_of_code c), <- (ascii_of_code d). now rewrite H.
Qed.

Lemma wincludes_of_string (s sub : string) :
  wincludes (of_string s) (of_string sub) = includes s sub.
Proof.
  induction s as [|c s IH]; cbn [of_string wincludes includes].
  - f_equal. apply (wprefix_of_string sub EmptyString).
  - f_equal; [apply (wprefix_of_string sub (String c s)) | exact IH].
Qed.

End Utf16.

(* ===================================================================== *)
(** * The safety guard of the exec tool, on commands in full *)
(* ===================================================================== *)

Module ExecGuard.
Import JsString Regex Js Utf16.

(** What [execute] is given; the command may hold any code unit. *)
Record ExecParams : Type := mkExecParams {
  command : wstring;
  working_dir : option string
}.

Section Guard.

(** [String.prototype.toLowerCase]: the case mapping of the Unicode
    standard, which is no part of the sources. *)
Variable toLowerCase : wstring -> wstring.

(** The [for] loop of [guardCommand] over the deny patterns. *)
Fixpoint deny_loop (patterns : list RegExp) (lower : wstring) : option string :=
  match patterns with
  | [] => None
  | pattern :: rest =>
      if wtest pattern lower then Some Shell.dangerous_msg
      else deny_loop rest lower
  end.

Definition guardCommand (t : Shell.ExecTool) (command : wstring) : option string :=
  let lower := toLowerCase command in
  match deny_loop (Shell.denyPatterns t) lower with
  | Some blocked => Some blocked
  | None =>
      if Shell.restrictToWorkspace t
         && (wincludes command (of_string "../")
             || wincludes command (of_string (".." +:+ backslash)))
      then Some Shell.traversal_msg
      else None
  end.

(** [Bun.spawn(["sh", "-c", command], {cwd, ...})] followed to the end of
    the process, as in [Shell]. *)
Variable spawn : string -> wstring -> Completion Shell.ProcResult.

(** [execute], with the list of shell invocations it made, as
    (working directory, command). *)
Definition execute (t : Shell.ExecTool) (params : ExecParams)
  : string * list (string * wstring) :=
  match guardCommand t (command params) with
  | Some blocked => (blocked, [])
  | None =>
      let cwd := default (Shell.workingDir t) (working_dir params) in
      match spawn cwd (command params) with
      | Normal r => (Shell.format_output r, [(cwd, command params)])
      | Throw err => ("Error: " +:+ describe err, [(cwd, command params)])
      end
  end.

End Guard.

(** [toLowerCase] as far as the examples below need it: unit by unit on
    the code units below U+0100, and on the five code units beyond them
    whose lower case reaches below U+0100: U+0130 (to "i" and U+0307),
    U+0178, U+1E9E, U+212A KELVIN SIGN (to "k") and U+212B.  Any other
    code unit is left as it is, which is its lower case for most and not
    for all. *)
Definition lower_known_unit (u : N) : wstring :=
  if (u <? 256)%N then [lower_latin1 u]
  else if (u =? 304)%N then [105; 775]%N
  else if (u =? 376)%N then [255]%N
  else if (u =? 7838)%N then [223]%N
  else if (u =? 8490)%N then [107]%N
  else if (u =? 8491)%N then [229]%N
  else [u].

Definition lower_known (s : wstring) : wstring := flat_map lower_known_unit s.

Lemma lower_known_latin1 (s : wstring) :
  latin1 s -> lower_known s = map lower_latin1 s.
Proof.
  unfold lower_known. induction s as [|u s IH]; intros H; [reflexivity|].
  apply Forall_cons in H as [Hu Hs]. cbn [flat_map map]. rewrite (IH Hs).
  unfold lower_known_unit. apply N.ltb_lt in Hu. now rewrite Hu.
Qed.

(** ** The guard *)

Lemma deny_loop_of_string (patterns : list RegExp) (lower : string) :
  deny_loop patterns (of_string lower) = Shell.deny_loop patterns lower.
Proof.
  induction patterns as [|q rest IH]; [reflexivity|].
  cbn [deny_loop Shell.deny_loop]. now rewrite wtest_of_string, IH.
Qed.

(** On a command below U+0100 the guard is the guard of [Shell]. *)
Lemma guardCommand_of_string (toLowerCase : wstring -> wstring)
  (t : Shell.ExecTool) (cmd : string) :
  (forall s, latin1 s -> toLowerCase s = map lower_latin1 s) ->
  guardCommand toLowerCase t (of_string cmd) = Shell.guardCommand t cmd.
Proof.
  intros Hlower. unfold guardCommand, Shell.guardCommand.
  rewrite (Hlower _ (of_string_latin1 cmd)), of_string_lower, deny_loop_of_string.
  now rewrite !wincludes_of_string.
Qed.

Lemma deny_hit (patterns : list RegExp) (lower : wstring) (pattern : RegExp) :
  In pattern patterns -> wtest pattern lower = true ->
  deny_loop patterns lower = Some Shell.dangerous_msg.
Proof.
  induction patterns as [|q rest IH]; intros Hin Ht; [destruct Hin|].
  cbn [deny_loop]. destruct (wtest q lower) eqn:Hq; [reflexivity|].
  destruct Hin as [->|Hin]; [congruence | now apply IH].
Qed.

Lemma deny_msg (patterns : list RegExp) (lower : wstring) (msg : string) :
  deny_loop patterns lower = Some msg -> msg = Shell.dangerous_msg.
Proof.
  induction patterns as [|q rest IH]; cbn [deny_loop]; [discriminate|].
  destruct (wtest q lower); [congruence | exact IH].
Qed.

Lemma guard_msg (toLowerCase : wstring -> wstring) (t : Shell.ExecTool)
  (cmd : wstring) (msg : string) :
  guardCommand toLowerCase t cmd = Some msg ->
  includes msg "Error: Command blocked by safety guard" = true.
Proof.
  unfold guardCommand.
  destruct (deny_loop (Shell.denyPatterns t) (toLowerCase cmd)) as [b|] eqn:Hd.
  - intros [= <-]. now rewrite (deny_msg _ _ _ Hd).
  - destruct (_ && _); [intros [= <-]; reflexivity | discriminate].
Qed.

(** A default pattern that matches a command below U+0100 matches its
    lower-case form. *)
Lemma wtest_lower_latin1 (pattern : RegExp) (cmd : wstring) :
  In pattern Shell.DEFAULT_DENY_PATTERNS -> latin1 cmd ->
  wtest pattern cmd = true -> wtest pattern (map lower_latin1 cmd) = true.
Proof.
  intros Hin Hl. destruct (latin1_of_string cmd Hl) as [x ->].
  rewrite of_string_lower, !wtest_of_string.
  apply test_lower, Shell.default_patterns_stable, Hin.
Qed.

(** C2 (as amended).  A command whose lower-case form matches one of the
    default deny patterns is answered by the exec tool with a message
    holding "Error: Command blocked by safety guard", and the shell is not
    invoked; so is every command of code units below U+0100 that matches
    one of the patterns as it is given; and with the workspace restriction
    on, every command that contains "../" or "..\".  [toLowerCase] is
    taken for what it is on the code units below U+0100, and is any
    function beyond them. *)
Theorem exec_guard_blocks_lowered
  (toLowerCase : wstring -> wstring)
  (spawn : string -> wstring -> Completion Shell.ProcResult)
  (t : Shell.ExecTool) (params : ExecParams) :
  (forall s, latin1 s -> toLowerCase s = map lower_latin1 s) ->
  (Shell.denyPatterns t = Shell.DEFAULT_DENY_PATTERNS /\
   exists pattern,
     In pattern Shell.DEFAULT_DENY_PATTERNS /\
     (wtest pattern (toLowerCase (command params)) = true \/
      (latin1 (command params) /\ wtest pattern (command params) = true)))
  \/ (Shell.restrictToWorkspace t = true /\
      (wincludes (command params) (of_string "../") = true \/
       wincludes (command params) (of_string (".." +:+ backslash)) = true)) ->
  exists msg,
    execute toLowerCase spawn t params = (msg, []) /\
    includes msg "Error: Command blocked by safety guard" = true.
Proof.
  intros Hlower H.
  assert (Hg : exists msg, guardCommand toLowerCase t (command params) = Some msg).
  { unfold guardCommand. destruct H as [[Hp [pattern [Hin Ht]]] | [Hr Hi]].
    - rewrite Hp. rewrite (deny_hit _ _ pattern Hin); [eauto|].
      destruct Ht as [Ht | [Hl Ht]]; [exact Ht|].
      rewrite (Hlower _ Hl). now apply wtest_lower_latin1.
    - destruct (deny_loop _ _); [eauto|]. rewrite Hr.
      destruct Hi as [-> | ->]; rewrite ?orb_true_r; cbn; eauto. }
  destruct Hg as [msg Hg]. exists msg. split.
  - unfold execute. now rewrite Hg.
  - exact (guard_msg _ _ _ _ Hg).
Qed.

Lemma exec_guard_blocks_lowered_witness :
  exists msg,
    execute lower_known (fun _ _ => Throw (JsError "spawn failed"))
      (Shell.new_ExecTool Shell.no_options "/home/robun")
      (mkExecParams (of_string "rm -rf /") None)
    = (msg, []) /\
    includes msg "Error: Command blocked by safety guard" = true.
Proof.
  apply (exec_guard_blocks_lowered lower_known
           (fun _ _ => Throw (JsError "spawn failed"))
           (Shell.new_ExecTool Shell.no_options "/home/robun")
           (mkExecParams (of_string "rm -rf /") None) lower_known_latin1).
  left. split; [reflexivity|].
  eexists. split; [left; reflexivity|]. right.
  split; [apply of_string_latin1 | vm_compute; reflexivity].
Defined.

(** U+212A KELVIN SIGN before "rm -rf /", and "rm -rf" with U+0130 behind
    it. *)
Definition kelvin_rm : wstring := 8490%N :: of_string "rm -rf /".
Definition dotted_rm : wstring := of_string "rm -rf" ++ 304%N :: of_string " /".

(** /\brm\s+-[rf]{1,2}\b/ *)
Definition rm_pattern : RegExp :=
  mkRegExp (cat [WordB; lit "rm"; Plus Spc; Chr (ch "-");
                 Rep12 (Cls [ch "r"; ch "f"]); WordB]) false.

(** A shell in which every command prints "done". *)
Definition a_shell (cwd : string) (command : wstring)
  : Completion Shell.ProcResult :=
  Normal (Shell.mkProcResult "done" EmptyString 0).

(** C2 as stated fails: each of the two commands matches the first deny
    pattern as it is given, its neighbour U+212A or U+0130 being no word
    character; lower-cased, the neighbour is "k" or starts with "i", the
    pattern no longer matches, and the command goes to the shell. *)
Lemma unicode_neighbour_passes_the_guard :
  In rm_pattern Shell.DEFAULT_DENY_PATTERNS /\
  (wtest rm_pattern kelvin_rm = true /\
   lower_known kelvin_rm = of_string "krm -rf /" /\
   execute lower_known a_shell (Shell.new_ExecTool Shell.no_options "/home/robun")
     (mkExecParams kelvin_rm None)
   = ("done", [("/home/robun", kelvin_rm)])) /\
  (wtest rm_pattern dotted_rm = true /\
   lower_known dotted_rm = of_string "rm -rfi" ++ 775%N :: of_string " /" /\
   execute lower_known a_shell (Shell.new_ExecTool Shell.no_options "/home/robun")
     (mkExecParams dotted_rm None)
   = ("done", [("/home/robun", dotted_rm)])) /\
  includes "done" "Error: Command blocked by safety guard" = false.
Proof.
  split; [left; reflexivity|]. repeat split; vm_compute; reflexivity.
Qed.

End ExecGuard.

(* ===================================================================== *)
(** * The JavaScript [Map] *)
(* ===================================================================== *)

(** A [Map<string, V>] keeps its entries in insertion order: [set] on a key
    that is present replaces the value where it stands, [set] on a new key
    appends.  Modelled as an association list. *)

Module JsMap.

Section Map.
Context {V : Type}.

Fixpoint get (m : list (string * V)) (k : string) : option V :=
  match m with
  | [] => None
  | (k', v) :: rest => if String.eqb k' k then Some v else get rest k
  end.

Definition has (m : list (string * V)) (k : string) : bool :=
  match get m k with Some _ => true | None => false end.

Fixpoint set (m : list (string * V)) (k : string) (v : V) : list (string * V) :=
  match m with
  | [] => [(k, v)]
  | (k', v') :: rest =>
      if String.eqb k' k then (k', v) :: rest else (k', v') :: set rest k v
  end.

Fixpoint delete (m : list (string * V)) (k : string) : list (string * V) :=
  match m with
  | [] => []
  | (k', v') :: rest =>
      if String.eqb k' k then rest else (k', v') :: delete rest k
  end.

Definition keys (m : list (string * V)) : list string := map fst m.
Definition values (m : list (string * V)) : list V := map snd m.
Definition size (m : list (string * V)) : nat := length m.

Lemma get_set_eq m k v : get (set m k v) k = Some v.
Proof.
  induction m as [|[k' v'] rest IH]; simpl.
  - now rewrite String.eqb_refl.
  - destruct (String.eqb k' k) eqn:E; simpl; rewrite E; [reflexivity | exact IH].
Qed.

Lemma get_set_ne m k v k0 : k <> k0 -> get (set m k v) k0 = get m k0.
Proof.
  intros Hne. induction m as [|[k' v'] rest IH]; simpl.
  - destruct (String.eqb k k0) eqn:E; [|reflexivity].
    apply String.eqb_eq in E. contradiction.
  - destruct (String.eqb k' k) eqn:E; simpl.
    + apply String.eqb_eq in E. subst k'.
      destruct (String.eqb k k0) eqn:E0; [|reflexivity].
      apply String.eqb_eq in E0. contradiction.
    + now rewrite IH.
Qed.

Lemma has_keys m k : has m k = true <-> In k (keys m).
Proof.
  unfold has. induction m as [|[k' v'] rest IH]; simpl.
  - split; [discriminate | tauto].
  - destruct (String.eqb k' k) eqn:E.
    + apply String.eqb_eq in E. split; [now left | reflexivity].
    + apply String.eqb_neq in E. rewrite IH. split; [now right|].
      intros [H|H]; [contradiction | exact H].
Qed.

Lemma keys_set m k v :
  keys (set m k v) = if has m k then keys m else keys m ++ [k].
Proof.
  unfold has. induction m as [|[k' v'] rest IH]; simpl; [reflexivity|].
  destruct (String.eqb k' k) eqn:E; simpl; [reflexivity|].
  rewrite IH. now destruct (get rest k).
Qed.

Lemma size_set m k v :
  size (set m k v) = if has m k then size m else S (size m).
Proof.
  unfold size. rewrite <- !(length_map fst). fold (keys (set m k v)) (keys m).
  rewrite keys_set. destruct (has m k); [reflexivity|].
  rewrite length_app. simpl. lia.
Qed.

Lemma NoDup_set m k v : NoDup (keys m) -> NoDup (keys (set m k v)).
Proof.
  intros Hnd. rewrite keys_set. destruct (has m k) eqn:Hk; [exact Hnd|].
  apply NoDup_app; repeat split.
  - exact Hnd.
  - intros x Hx Hx'. apply list_elem_of_singleton in Hx'. subst x.
    apply list_elem_of_In, has_keys in Hx. congruence.
  - apply NoDup_singleton.
Qed.

Lemma keys_delete_incl m k x : In x (keys (delete m k)) -> In x (keys m).
Proof.
  induction m as [|[k' v'] rest IH]; simpl; [tauto|].
  destruct (String.eqb k' k); simpl; [now right|].
  intros [H|H]; [now left | right; now apply IH].
Qed.

Lemma NoDup_delete m k : NoDup (keys m) -> NoDup (keys (delete m k)).
Proof.
  induction m as [|[k' v'] rest IH]; simpl; intros Hnd; [exact Hnd|].
  apply NoDup_cons in Hnd as [Hk Hnd].
  destruct (String.eqb k' k); simpl; [exact Hnd|].
  apply NoDup_cons. split; [|now apply IH].
  intros Hin. apply Hk. apply list_elem_of_In.
  apply list_elem_of_In in Hin. now apply keys_delete_incl in Hin.
Qed.

End Map.

End JsMap.

(* ===================================================================== *)
(** * tools/base.ts *)
(* ===================================================================== *)

Module Tool.
Import Js.

(** The [Tool] interface.  [parameters] is the schema, by what [parse]
    does with an argument map: the validated value, or the issues of the
    [ZodError] it throws with the error's message.  [execute] runs in a
    world of type [World] and returns or throws. *)
Record Tool (World : Type) : Type := mkTool {
  name : string;
  description : string;
  parameters : Params -> Params + (list ZodIssue * string);
  execute : Params -> World -> Completion string * World
}.
Arguments mkTool {World}.
Arguments name {World}.
Arguments description {World}.
Arguments parameters {World}.
Arguments execute {World}.

(** [schema.parse(params)] *)
Definition parse (schema : Params -> Params + (list ZodIssue * string))
  (params : Params) : Completion Params :=
  match schema params with
  | inl validated => Normal validated
  | inr (errors, msg) => Throw (ZodError errors msg)
  end.

End Tool.

Module ToolRegistry.
Import JsString Js.

Section Registry.
Variable World : Type.

Record ToolRegistry : Type := mkRegistry {
  tools : list (string * Tool.Tool World)
}.

(** [new ToolRegistry()] *)
Definition new_registry : ToolRegistry := mkRegistry [].

Definition register (reg : ToolRegistry) (tool : Tool.Tool World) : ToolRegistry :=
  mkRegistry (JsMap.set (tools reg) (Tool.name tool) tool).

Definition unregister (reg : ToolRegistry) (name : string) : ToolRegistry :=
  mkRegistry (JsMap.delete (tools reg) name).

Definition get (reg : ToolRegistry) (name : string) : option (Tool.Tool World) :=
  JsMap.get (tools reg) name.

Definition has (reg : ToolRegistry) (name : string) : bool :=
  JsMap.has (tools reg) name.

Definition toolNames (reg : ToolRegistry) : list string := JsMap.keys (tools reg).

Definition size (reg : ToolRegistry) : nat := JsMap.size (tools reg).

(** [e.path.join(".")] *)
Definition render_path (path : list PathSeg) : string :=
  join "." (map (fun seg => match seg with
                            | Key k => k
                            | Index n => of_nat n
                            end) path).

Definition render_issue (e : ZodIssue) : string :=
  render_path (path e) +:+ ": " +:+ message e.

(** The [catch] clause of [execute]. *)
Definition on_error (name : string) (err : Thrown) : string :=
  match err with
  | ZodError errors _ =>
      "Invalid parameters: " +:+ join ", " (map render_issue errors)
  | _ => "Error executing " +:+ name +:+ ": " +:+ describe err
  end.

Definition execute (reg : ToolRegistry) (name : string) (params : Params)
  (w : World) : Completion string * World :=
  match JsMap.get (tools reg) name with
  | None => (Normal ("Error: Tool '" +:+ name +:+ "' not found."), w)
  | Some tool =>
      (* try *)
      let attempt :=
        match Tool.parse (Tool.parameters tool) params with
        | Normal validated => Tool.execute tool validated w
        | Throw err => (Throw err, w)
        end in
      (* catch *)
      match attempt with
      | (Normal result, w') => (Normal result, w')
      | (Throw err, w') => (Normal (on_error name err), w')
      end
  end.

(** The registries the class can reach: the new one, and what [register]
    and [unregister] make of a reachable one. *)
Inductive built : ToolRegistry -> Prop :=
| built_new : built new_registry
| built_register reg tool : built reg -> built (register reg tool)
| built_unregister reg name : built reg -> built (unregister reg name).

Lemma built_NoDup (reg : ToolRegistry) : built reg -> NoDup (toolNames reg).
Proof.
  induction 1 as [|reg tool _ IH|reg name _ IH]; unfold toolNames; simpl.
  - apply NoDup_nil_2.
  - now apply JsMap.NoDup_set.
  - now apply JsMap.NoDup_delete.
Qed.

End Registry.

Arguments tools {World}.
Arguments new_registry {World}.
Arguments register {World}.
Arguments unregister {World}.
Arguments get {World}.
Arguments has {World}.
Arguments toolNames {World}.
Arguments size {World}.
Arguments execute {World}.
Arguments built {World}.

(** C10.  [register] has no error outcome and the last registration of a
    name wins: after [register], [get] of the tool's name is the tool just
    registered, every name stands once in the registry, the size is
    unchanged when the name was already registered (the names keep their
    order) and grows by one otherwise, and the other names keep their
    tools. *)
Theorem register_last_wins (World : Type) (reg : ToolRegistry World)
  (tool : Tool.Tool World) :
  built reg ->
  get (register reg tool) (Tool.name tool) = Some tool /\
  NoDup (toolNames (register reg tool)) /\
  (has reg (Tool.name tool) = true ->
     size (register reg tool) = size reg /\
     toolNames (register reg tool) = toolNames reg) /\
  (has reg (Tool.name tool) = false ->
     size (register reg tool) = S (size reg)) /\
  (forall other, other <> Tool.name tool ->
     get (register reg tool) other = get reg other).
Proof.
  intros Hb. unfold get, has, size, toolNames, register. simpl.
  split; [apply JsMap.get_set_eq|].
  split; [apply JsMap.NoDup_set, (built_NoDup _ _ Hb)|].
  split; [|split].
  - intros Hh. now rewrite JsMap.size_set, JsMap.keys_set, Hh.
  - intros Hh. now rewrite JsMap.size_set, Hh.
  - intros other Hne. apply JsMap.get_set_ne. congruence.
Qed.

(** A tool as in the tests: it wants a string under "value". *)
Definition dummy_schema (params : Params) : Params + (list ZodIssue * string) :=
  match JsMap.get params "value" with
  | Some (JString _) => inl params
  | Some _ =>
      inr ([mkIssue [Key "value"] "Expected string, received number"],
           "invalid_type")
  | None => inr ([mkIssue [Key "value"] "Required"], "invalid_type")
  end.

Definition dummyTool : Tool.Tool unit :=
  Tool.mkTool "dummy" "A dummy tool" dummy_schema
    (fun params w =>
       match JsMap.get params "value" with
       | Some (JString v) => (Normal ("got: " +:+ v), w)
       | _ => (Throw (JsError "value is not a string"), w)
       end).

(** A second tool under the same name. *)
Definition dummyTool2 : Tool.Tool unit :=
  Tool.mkTool "dummy" "Another dummy tool" dummy_schema
    (fun _ w => (Normal "second", w)).

Lemma register_last_wins_witness :
  get (register (register new_registry dummyTool) dummyTool2) "dummy"
    = Some dummyTool2 /\
  size (register (register new_registry dummyTool) dummyTool2) = 1.
Proof.
  pose proof (register_last_wins unit (register new_registry dummyTool)
                dummyTool2 (built_register _ _ _ (built_new _))) as H.
  destruct H as [Hget [_ [Hsame _]]]. split; [exact Hget|].
  destruct (Hsame eq_refl) as [Hsize _]. exact Hsize.
Defined.

(** ** The outcomes of [execute] *)

(** A tool that passes validation and then throws a [ZodError] of its own. *)
Definition strictTool : Tool.Tool unit :=
  Tool.mkTool "strict" "Validates again inside" (fun params => inl params)
    (fun _ w =>
       (Throw (ZodError [mkIssue [Key "jobs"; Index 0; Key "id"] "Required"]
                 "1 issue"), w)).

(** C1 as stated fails: the tool "strict" is registered, its arguments pass
    the schema, its execution throws, and the answer is not
    "Error executing strict: ..." but the message of a validation
    failure. *)
Lemma thrown_zod_error_reported_as_invalid :
  get (register new_registry strictTool) "strict" = Some strictTool /\
  Tool.parameters strictTool [] = inl [] /\
  Tool.execute strictTool [] tt
    = (Throw (ZodError [mkIssue [Key "jobs"; Index 0; Key "id"] "Required"]
                "1 issue"), tt) /\
  execute (register new_registry strictTool) "strict" [] tt
    = (Normal "Invalid parameters: jobs.0.id: Required", tt) /\
  "Invalid parameters: jobs.0.id: Required"
    <> "Error executing strict: " +:+ "1 issue".
Proof. repeat split; try reflexivity. discriminate. Qed.

(** [execute] ends normally: the [catch] clause turns every throw into a
    string. *)
Lemma execute_normal (World : Type) (reg : ToolRegistry World)
  (name : string) (params : Params) (w : World) :
  exists result w', execute reg name params w = (Normal result, w').
Proof.
  unfold execute. destruct (JsMap.get (tools reg) name) as [tool|]; [|eauto].
  destruct (Tool.parse (Tool.parameters tool) params) as [validated|err].
  - destruct (Tool.execute tool validated w) as [[r|err] w1]; eauto.
  - eauto.
Qed.

(** C1 (as amended).  [execute] never throws: for every registry, name,
    argument map and world it returns a string.  The string is
    "Error: Tool '{name}' not found." when the name is not registered;
    "Invalid parameters: " followed by the "{path}: {message}" of each
    issue, joined by ", ", when the arguments fail the tool's schema, and
    also when the tool's execution throws a [ZodError] of its own;
    "Error executing {name}: {message}" when the tool's execution throws
    anything else; and the tool's result otherwise. *)
Theorem execute_returns_string (World : Type) (reg : ToolRegistry World)
  (name : string) (params : Params) (w : World) :
  exists result w',
    execute reg name params w = (Normal result, w') /\
    (get reg name = None ->
       result = "Error: Tool '" +:+ name +:+ "' not found." /\ w' = w) /\
    (forall tool errors msg,
       get reg name = Some tool ->
       Tool.parameters tool params = inr (errors, msg) ->
       result = "Invalid parameters: "
                +:+ join ", " (map (fun e => render_path (path e) +:+ ": " +:+ message e)
                                 errors)
       /\ w' = w) /\
    (forall tool validated err w1,
       get reg name = Some tool ->
       Tool.parameters tool params = inl validated ->
       Tool.execute tool validated w = (Throw err, w1) ->
       w' = w1 /\
       match err with
       | ZodError errors _ =>
           result = "Invalid parameters: "
                    +:+ join ", " (map (fun e => render_path (path e) +:+ ": " +:+ message e)
                                     errors)
       | _ => result = "Error executing " +:+ name +:+ ": " +:+ describe err
       end) /\
    (forall tool validated r w1,
       get reg name = Some tool ->
       Tool.parameters tool params = inl validated ->
       Tool.execute tool validated w = (Normal r, w1) ->
       result = r /\ w' = w1).
Proof.
  unfold execute, get. destruct (JsMap.get (tools reg) name) as [tool|] eqn:Hg.
  - unfold Tool.parse.
    destruct (Tool.parameters tool params) as [validated|[errors msg]] eqn:Hp.
    + destruct (Tool.execute tool validated w) as [[r|err] w1] eqn:He.
      * exists r, w1. repeat split; intros; simplify_eq; congruence.
      * exists (on_error name err), w1.
        repeat split; intros; simplify_eq; try congruence.
        assert (validated0 = validated) by congruence. subst validated0.
        assert (err0 = err) by congruence. subst err0.
        destruct err; reflexivity.
    + exists ("Invalid parameters: " +:+ join ", " (map render_issue errors)), w.
      repeat split; intros; simplify_eq; try congruence.
      assert (errors0 = errors) by congruence. now subst errors0.
  - exists ("Error: Tool '" +:+ name +:+ "' not found."), w.
    repeat split; intros; simplify_eq.
Qed.

End ToolRegistry.

(* ===================================================================== *)
(** * node:path and node:fs *)
(* ===================================================================== *)

Module NodePath.
Import JsString.

(** [s.split(sep)] for a one-character separator. *)
Fixpoint split_on (sep : ascii) (s : string) : list string :=
  match s with
  | EmptyString => [EmptyString]
  | String c s' =>
      if Ascii.eqb c sep then EmptyString :: split_on sep s'
      else match split_on sep s' with
           | l :: ls => String c l :: ls
           | [] => [String c EmptyString]
           end
  end.

(** The non-empty components of a POSIX path. *)
Definition segments (p : string) : list string :=
  filter (fun seg => truthy seg = true) (split_on "/" p).

(** [normalizeString]: components pushed on a stack (innermost first); "."
    is dropped; ".." pops a component, and on an empty stack or on top of
    another ".." it is kept when the path may climb ([allowAbove], for
    relative paths) and dropped otherwise. *)
Fixpoint normalizeString (allowAbove : bool) (stack : list string)
  (segs : list string) : list string :=
  match segs with
  | [] => stack
  | seg :: rest =>
      if String.eqb seg "." then normalizeString allowAbove stack rest
      else if String.eqb seg ".." then
        match stack with
        | top :: below =>
            if String.eqb top ".."
            then normalizeString allowAbove
                   (if allowAbove then seg :: stack else stack) rest
            else normalizeString allowAbove below rest
        | [] =>
            normalizeString allowAbove (if allowAbove then [seg] else []) rest
        end
      else normalizeString allowAbove (seg :: stack) rest
  end.

(** The stack of an absolute path. *)
Definition normalize (stack : list string) (segs : list string) : list string :=
  normalizeString false stack segs.

Fixpoint endsWith_slash (p : string) : bool :=
  match p with
  | EmptyString => false
  | String c EmptyString => Ascii.eqb c "/"
  | String _ rest => endsWith_slash rest
  end.

(** [path.normalize(p)] *)
Definition normalize_path (p : string) : string :=
  if negb (truthy p) then "."
  else
    let isAbsolute := startsWith p "/" in
    let body :=
      join "/" (rev (normalizeString (negb isAbsolute) [] (segments p))) in
    let body :=
      if negb (truthy body) then (if isAbsolute then EmptyString else ".")
      else if endsWith_slash p then body +:+ "/" else body in
    if isAbsolute then "/" +:+ body else body.

(** [path.join(a, b)] *)
Definition path_join (a b : string) : string :=
  let joined :=
    if truthy a then (if truthy b then a +:+ "/" +:+ b else a) else b in
  normalize_path joined.

Definition of_segments (segs : list string) : string := "/" +:+ join "/" segs.

(** [path.resolve(p)] with [process.cwd()] = [cwd] (absolute). *)
Definition resolve (cwd p : string) : string :=
  let base := if startsWith p "/" then [] else rev (segments cwd) in
  of_segments (rev (normalize base (segments p))).

(** [path.dirname] of a resolved path. *)
Definition dirname (resolved : string) : string :=
  of_segments (removelast (segments resolved)).

(** A path component: not empty, without a slash. *)
Definition is_segment (seg : string) : Prop :=
  truthy seg = true /\ has_char "/" seg = false.

Lemma split_on_cons (sep : ascii) (s : string) :
  exists piece rest, split_on sep s = piece :: rest.
Proof.
  induction s as [|c s [piece [rest IH]]]; simpl; [eauto|].
  destruct (Ascii.eqb c sep); [eauto|]. rewrite IH. eauto.
Qed.

Lemma split_on_app (sep : ascii) (x s : string) :
  has_char sep x = false ->
  split_on sep (x +:+ s)
  = match split_on sep s with
    | piece :: rest => (x +:+ piece) :: rest
    | [] => [x]
    end.
Proof.
  induction x as [|c x IH]; intros Hx.
  - rewrite app_nil_l. destruct (split_on_cons sep s) as [piece [rest ->]].
    now rewrite app_nil_l.
  - cbn [has_char] in Hx. apply orb_false_iff in Hx as [Hc Hx].
    rewrite app_cons. cbn [split_on]. rewrite Hc, (IH Hx).
    destruct (split_on_cons sep s) as [piece [rest ->]]. now rewrite app_cons.
Qed.

Lemma split_on_pieces (sep : ascii) (s : string) :
  Forall (fun piece => has_char sep piece = false) (split_on sep s).
Proof.
  induction s as [|c s IH]; simpl; [repeat constructor|].
  destruct (Ascii.eqb c sep) eqn:Hc; [constructor; [reflexivity | exact IH]|].
  destruct (split_on sep s) as [|piece rest]; [repeat constructor; simpl; now rewrite Hc|].
  apply Forall_cons in IH as [Hp Hr]. constructor; [|exact Hr].
  simpl. now rewrite Hc, Hp.
Qed.

Lemma segments_are_segments (p : string) : Forall is_segment (segments p).
Proof.
  unfold segments. apply Forall_forall. intros seg Hin.
  apply list_elem_of_filter in Hin as [Ht Hin]. split; [exact Ht|].
  pose proof (split_on_pieces "/" p) as H. rewrite Forall_forall in H.
  now apply H.
Qed.

Lemma segments_join (l : list string) :
  Forall is_segment l ->
  filter (fun seg => truthy seg = true) (split_on "/" (join "/" l)) = l.
Proof.
  induction l as [|x rest IH]; intros Hl; [reflexivity|].
  apply Forall_cons in Hl as [[Ht Hx] Hrest].
  destruct rest as [|y rest].
  - cbn [join]. rewrite <- (app_nil_r x), (split_on_app "/" x EmptyString Hx).
    cbn [split_on]. rewrite app_nil_r. rewrite filter_cons.
    destruct (decide (truthy x = true)); [reflexivity | contradiction].
  - change (join "/" (x :: y :: rest)) with (x +:+ "/" +:+ join "/" (y :: rest)).
    rewrite (split_on_app "/" x _ Hx).
    change ("/" +:+ join "/" (y :: rest)) with (String "/" (join "/" (y :: rest))).
    cbn [split_on]. rewrite Ascii.eqb_refl, app_nil_r, filter_cons.
    destruct (decide (truthy x = true)); [|contradiction].
    now rewrite (IH Hrest).
Qed.

(** A path put together from components falls into the same components. *)
Lemma segments_of_segments (l : list string) :
  Forall is_segment l -> segments (of_segments l) = l.
Proof.
  intros Hl. unfold segments, of_segments.
  change ("/" +:+ join "/" l) with (String "/" (join "/" l)).
  cbn [split_on]. rewrite Ascii.eqb_refl, filter_cons.
  destruct (decide (truthy EmptyString = true)); [discriminate|].
  now apply segments_join.
Qed.

End NodePath.

Module NodeFs.
Import JsString Js NodePath.

(** A node of the file system.  A file is held as the text [readFileSync]
    decodes from it under "utf-8"; its bytes on disk are the UTF-8 encoding
    of that text. *)
Inductive Node : Type :=
| Dir
| File (content : string).

(** The file system, by resolved absolute path.  The root is a directory
    without an entry. *)
Abbreviation FS := (gmap string Node).

Definition node_at (fs : FS) (p : string) : option Node :=
  if String.eqb p "/" then Some Dir else fs !! p.

(** The text of the regular file at [p], if there is one. *)
Definition content_at (fs : FS) (p : string) : option string :=
  match node_at fs p with Some (File content) => Some content | _ => None end.

Definition existsSync (fs : FS) (p : string) : bool :=
  match node_at fs p with Some _ => true | None => false end.

(** The UTF-8 encoding of a code unit below U+0100: one byte below U+0080,
    two from there on. *)
Definition utf8_char (c : ascii) : list N :=
  if (code c <? 128)%N then [code c]
  else [N.lor 192 (N.shiftr (code c) 6); N.lor 128 (N.land (code c) 63)].

Fixpoint utf8_encode (s : string) : list N :=
  match s with
  | EmptyString => []
  | String c s' => utf8_char c ++ utf8_encode s'
  end.

(** The bytes of a file on disk. *)
Definition bytes_of (n : Node) : list N :=
  match n with Dir => [] | File content => utf8_encode content end.

Definition readFileSync (fs : FS) (p : string) : Completion string :=
  match node_at fs p with
  | Some (File content) => Normal content
  | Some Dir =>
      Throw (JsError "EISDIR: illegal operation on a directory, read")
  | None =>
      Throw (JsError ("ENOENT: no such file or directory, open '" +:+ p +:+ "'"))
  end.

(** [writeFileSync(p, content, "utf-8")]: the parent must be a directory and
    the target must not be one. *)
Definition writeFileSync (fs : FS) (p content : string) : Completion FS :=
  match node_at fs (dirname p) with
  | Some Dir =>
      match node_at fs p with
      | Some Dir =>
          Throw (JsError ("EISDIR: illegal operation on a directory, open '"
                          +:+ p +:+ "'"))
      | _ => Normal (<[p := File content]> fs)
      end
  | Some (File _) =>
      Throw (JsError ("ENOTDIR: not a directory, open '" +:+ p +:+ "'"))
  | None =>
      Throw (JsError ("ENOENT: no such file or directory, open '" +:+ p +:+ "'"))
  end.

(** The walk of [mkdirSync(dir, {recursive: true})] down the components of
    [dir]: [at_] is the directory reached so far (without its slash at the
    root). *)
Fixpoint mkdir_walk (fs : FS) (at_ : string) (segs : list string) : Completion FS :=
  match segs with
  | [] => Normal fs
  | seg :: rest =>
      let p := at_ +:+ "/" +:+ seg in
      match fs !! p with
      | Some Dir => mkdir_walk fs p rest
      | Some (File _) =>
          (* the message names the directory that was to be made *)
          Throw (JsError ((match rest with [] => "EEXIST: file already exists"
                                         | _ => "ENOTDIR: not a directory" end)
                          +:+ ", mkdir '" +:+ at_ +:+ "/"
                          +:+ join "/" (seg :: rest) +:+ "'"))
      | None => mkdir_walk (<[p := Dir]> fs) p rest
      end
  end.

Definition mkdirSync_recursive (fs : FS) (dir : string) : Completion FS :=
  mkdir_walk fs EmptyString (segments dir).

Lemma mkdir_walk_target (segs : list string) :
  forall (fs fs' : FS) (at_ : string),
    segs <> [] ->
    mkdir_walk fs at_ segs = Normal fs' ->
    fs' !! (at_ +:+ "/" +:+ join "/" segs) = Some Dir.
Proof.
  induction segs as [|seg rest IH]; intros fs fs' at_ Hne Hw; [contradiction|].
  destruct rest as [|next rest].
  - cbn [mkdir_walk join] in *.
    destruct (fs !! (at_ +:+ "/" +:+ seg)) as [[|c]|] eqn:Hp;
      [| discriminate |]; injection Hw as <-; [exact Hp | apply lookup_insert_eq].
  - change (join "/" (seg :: next :: rest))
      with (seg +:+ "/" +:+ join "/" (next :: rest)).
    replace (at_ +:+ "/" +:+ seg +:+ "/" +:+ join "/" (next :: rest))
      with ((at_ +:+ "/" +:+ seg) +:+ "/" +:+ join "/" (next :: rest))
      by (now rewrite <- !app_assoc).
    cbn [mkdir_walk] in Hw.
    destruct (fs !! (at_ +:+ "/" +:+ seg)) as [[|c]|]; [| discriminate |];
      (eapply IH; [discriminate | exact Hw]).
Qed.

(** After [mkdirSync(dir, {recursive: true})] has returned, [dir] is a
    directory. *)
Lemma mkdirSync_recursive_makes_dir (fs fs' : FS) (l : list string) :
  Forall is_segment l ->
  mkdirSync_recursive fs (of_segments l) = Normal fs' ->
  node_at fs' (of_segments l) = Some Dir.
Proof.
  intros Hl. unfold mkdirSync_recursive, node_at.
  rewrite (segments_of_segments l Hl).
  destruct l as [|seg rest]; [reflexivity|].
  destruct (String.eqb (of_segments (seg :: rest)) "/"); [reflexivity|]. intros Hw.
  apply (mkdir_walk_target (seg :: rest) fs fs' EmptyString); [discriminate | exact Hw].
Qed.

Definition is_ascii (c : ascii) : bool := (code c <? 128)%N.

(** ASCII text takes one byte per character. *)
Lemma utf8_encode_ascii (s : string) :
  forallb is_ascii (list_ascii_of_string s) = true ->
  length (utf8_encode s) = String.length s.
Proof.
  induction s as [|c s IH]; simpl; [reflexivity|].
  rewrite andb_true_iff. intros [Hc Hs]. unfold utf8_char.
  unfold is_ascii in Hc. rewrite Hc. simpl. now rewrite IH.
Qed.

End NodeFs.

(* ===================================================================== *)
(** * tools/filesystem.ts *)
(* ===================================================================== *)

Module Filesystem.
Import JsString Js NodePath NodeFs.

Definition resolvePath (cwd path : string) (allowedDir : option string)
  : Completion string :=
  let resolved := resolve cwd path in
  match allowedDir with
  | Some dir =>
      if truthy dir then
        let allowed := resolve cwd dir in
        if negb (startsWith resolved (allowed +:+ "/"))
           && negb (String.eqb resolved allowed)
        then Throw (JsError ("Access denied: path '" +:+ path
                             +:+ "' is outside workspace"))
        else Normal resolved
      else Normal resolved
  | None => Normal resolved
  end.

(** A file tool: the [allowedDir] of its constructor.  [cwd] is
    [process.cwd()]. *)
Record FileTool : Type := mkFileTool { allowedDir : option string; cwd : string }.

Record WriteParams : Type := mkWriteParams { w_path : string; w_content : string }.

(** [WriteFileTool.execute] *)
Definition write_file (t : FileTool) (params : WriteParams) (fs : FS)
  : string * FS :=
  match resolvePath (cwd t) (w_path params) (allowedDir t) with
  | Throw err => ("Error: " +:+ describe err, fs)
  | Normal resolved =>
      match mkdirSync_recursive fs (dirname resolved) with
      | Throw err => ("Error: " +:+ describe err, fs)
      | Normal fs1 =>
          match writeFileSync fs1 resolved (w_content params) with
          | Throw err => ("Error: " +:+ describe err, fs1)
          | Normal fs2 =>
              ("Successfully wrote "
               +:+ of_nat (String.length (w_content params))
               +:+ " bytes to " +:+ w_path params, fs2)
          end
      end
  end.

Record EditParams : Type := mkEditParams {
  e_path : string;
  old_text : string;
  new_text : string
}.

(** [EditFileTool.execute] *)
Definition edit_file (t : FileTool) (params : EditParams) (fs : FS)
  : string * FS :=
  match resolvePath (cwd t) (e_path params) (allowedDir t) with
  | Throw err => ("Error: " +:+ describe err, fs)
  | Normal resolved =>
      if negb (existsSync fs resolved)
      then ("Error: File not found: " +:+ e_path params, fs)
      else
        match readFileSync fs resolved with
        | Throw err => ("Error: " +:+ describe err, fs)
        | Normal content =>
            if negb (includes content (old_text params))
            then ("Error: old_text not found in file. Make sure it matches exactly.",
                  fs)
            else
              let count :=
                (Z.of_nat (split_length content (old_text params)) - 1)%Z in
              if (1 <? count)%Z
              then ("Warning: old_text appears " +:+ of_Z count
                    +:+ " times. Please provide more context to make it unique.",
                    fs)
              else
                let content := replace content (old_text params) (new_text params) in
                match writeFileSync fs resolved content with
                | Throw err => ("Error: " +:+ describe err, fs)
                | Normal fs' => ("Successfully edited " +:+ e_path params, fs')
                end
        end
  end.

(** ** edit_file *)

(** The positions at which [sub] occurs in [s]. *)
Fixpoint occurrences (s sub : string) : nat :=
  (if String.prefix sub s then 1 else 0) +
  match s with
  | EmptyString => 0
  | String _ s' => occurrences s' sub
  end.

(** With no occurrence of [old_text] the answer is the error and the file
    system is untouched. *)
Lemma edit_file_absent (t : FileTool) (params : EditParams) (fs : FS)
  (resolved content : string) :
  resolvePath (cwd t) (e_path params) (allowedDir t) = Normal resolved ->
  content_at fs resolved = Some content ->
  includes content (old_text params) = false ->
  edit_file t params fs
  = ("Error: old_text not found in file. Make sure it matches exactly.", fs).
Proof.
  intros Hr Hc Hi. unfold edit_file, existsSync, readFileSync. rewrite Hr.
  unfold content_at in Hc.
  destruct (node_at fs resolved) as [[|c]|]; try discriminate.
  injection Hc as ->. simpl. now rewrite Hi.
Qed.

(** With more than one match counted by [split] the answer is the warning
    with the count and the file system is untouched. *)
Lemma edit_file_ambiguous (t : FileTool) (params : EditParams) (fs : FS)
  (resolved content : string) :
  resolvePath (cwd t) (e_path params) (allowedDir t) = Normal resolved ->
  content_at fs resolved = Some content ->
  includes content (old_text params) = true ->
  (1 < Z.of_nat (split_length content (old_text params)) - 1)%Z ->
  edit_file t params fs
  = ("Warning: old_text appears "
     +:+ of_Z (Z.of_nat (split_length content (old_text params)) - 1)
     +:+ " times. Please provide more context to make it unique.", fs).
Proof.
  intros Hr Hc Hi Hn. unfold edit_file, existsSync, readFileSync. rewrite Hr.
  unfold content_at in Hc.
  destruct (node_at fs resolved) as [[|c]|]; try discriminate.
  injection Hc as ->. simpl. rewrite Hi. simpl.
  apply Z.ltb_lt in Hn. now rewrite Hn.
Qed.

(** With one match, in a file whose directory is there, and a replacement
    text without a dollar sign, the match gives way to the replacement. *)
Lemma edit_file_unique (t : FileTool) (params : EditParams) (fs : FS)
  (resolved content : string) (pos : nat) :
  resolvePath (cwd t) (e_path params) (allowedDir t) = Normal resolved ->
  content_at fs resolved = Some content ->
  node_at fs (dirname resolved) = Some Dir ->
  indexOf content (old_text params) = Some pos ->
  (Z.of_nat (split_length content (old_text params)) - 1 <= 1)%Z ->
  has_char (ch "$") (new_text params) = false ->
  edit_file t params fs
  = ("Successfully edited " +:+ e_path params,
     <[resolved := File (take pos content +:+ new_text params
                         +:+ drop (pos + String.length (old_text params)) content)]>
       fs).
Proof.
  intros Hr Hc Hd Hi Hn Hp. unfold edit_file, existsSync, readFileSync.
  rewrite Hr. unfold content_at in Hc.
  destruct (node_at fs resolved) as [[|c]|] eqn:Hnode; try discriminate.
  injection Hc as ->. cbn [negb]. rewrite (indexOf_includes _ _ _ Hi). cbn [negb].
  apply Z.ltb_ge in Hn. rewrite Hn.
  unfold writeFileSync. rewrite Hd, Hnode.
  unfold replace. rewrite Hi. now rewrite (getSubstitution_plain _ _ _ _ Hp).
Qed.

Definition a_tool : FileTool := mkFileTool None "/home/robun".

(** The file of the tests, "foo bar foo", and two more. *)
Definition a_disk : FS :=
  <["/tmp" := Dir]>
    (<["/tmp/dupes.txt" := File "foo bar foo"]>
       (<["/tmp/price.txt" := File "price: 5"]>
          (<["/tmp/aaa.txt" := File "aaa"]> ∅))).

Example edit_file_two_matches :
  edit_file a_tool (mkEditParams "/tmp/dupes.txt" "foo" "baz") a_disk
  = ("Warning: old_text appears 2 times. Please provide more context to make it unique.",
     a_disk).
Proof. vm_compute. reflexivity. Qed.

(** C3, at inputs where the code leaves the claim.  (1) "5" occurs exactly
    once in "price: 5"; replacing it by the text "$$7" leaves "price: $7"
    in the file, not "price: $$7": [String.prototype.replace] reads the
    replacement as a template.  (2) "aa" occurs twice in "aaa" (at 0 and
    at 1); [split] counts one match, and the file is rewritten. *)
Theorem edit_file_leaves_claim :
  (occurrences "price: 5" "5" = 1 /\
   edit_file a_tool (mkEditParams "/tmp/price.txt" "5" "$$7") a_disk
   = ("Successfully edited /tmp/price.txt",
      <["/tmp/price.txt" := File "price: $7"]> a_disk) /\
   "price: $7" <> "price: " +:+ "$$7")
  /\
  (occurrences "aaa" "aa" = 2 /\
   edit_file a_tool (mkEditParams "/tmp/aaa.txt" "aa" "b") a_disk
   = ("Successfully edited /tmp/aaa.txt",
      <["/tmp/aaa.txt" := File "ba"]> a_disk) /\
   content_at a_disk "/tmp/aaa.txt" = Some "aaa").
Proof.
  repeat split; try (vm_compute; reflexivity). discriminate.
Qed.

(** ** write_file *)

Lemma Forall_removelast {A : Type} (P : A -> Prop) (l : list A) :
  Forall P l -> Forall P (removelast l).
Proof.
  induction l as [|x [|y rest] IH]; intros H; simpl; [constructor | constructor |].
  apply Forall_cons in H as [Hx H]. constructor; [exact Hx | now apply IH].
Qed.

(** The parent directory is there when [mkdirSync] has returned, before the
    file is written. *)
Lemma write_file_parent_exists (fs fs1 : FS) (resolved : string) :
  mkdirSync_recursive fs (dirname resolved) = Normal fs1 ->
  node_at fs1 (dirname resolved) = Some Dir.
Proof.
  unfold dirname. apply mkdirSync_recursive_makes_dir.
  apply Forall_removelast, segments_are_segments.
Qed.

(** [write_file] succeeds when the path is allowed, no ancestor of it is a
    file and the target is no directory; it then reports the length of the
    content, which is the number of bytes written for ASCII content. *)
Lemma write_file_success (t : FileTool) (params : WriteParams) (fs fs1 : FS)
  (resolved : string) :
  resolvePath (cwd t) (w_path params) (allowedDir t) = Normal resolved ->
  mkdirSync_recursive fs (dirname resolved) = Normal fs1 ->
  node_at fs1 resolved <> Some Dir ->
  write_file t params fs
  = ("Successfully wrote " +:+ of_nat (String.length (w_content params))
     +:+ " bytes to " +:+ w_path params,
     <[resolved := File (w_content params)]> fs1)
  /\ (forallb is_ascii (list_ascii_of_string (w_content params)) = true ->
      length (bytes_of (File (w_content params)))
      = String.length (w_content params)).
Proof.
  intros Hr Hm Hn. split; [|apply utf8_encode_ascii].
  unfold write_file. rewrite Hr, Hm. unfold writeFileSync.
  rewrite (write_file_parent_exists _ _ _ Hm).
  destruct (node_at fs1 resolved) as [[|c]|]; [contradiction | reflexivity..].
Qed.

(** The file of the tests below three directories that are not there yet. *)
Example write_file_creates_parents :
  write_file a_tool (mkWriteParams "/tmp/deep/nested/file.txt" "deep content")
    a_disk
  = ("Successfully wrote 12 bytes to /tmp/deep/nested/file.txt",
     <["/tmp/deep/nested/file.txt" := File "deep content"]>
       (<["/tmp/deep/nested" := Dir]> (<["/tmp/deep" := Dir]> a_disk))).
Proof. vm_compute. reflexivity. Qed.

(** The one-character text U+00E9 (e with acute accent). *)
Definition e_acute : string := String (ascii_of_nat 233) EmptyString.

(** C5, at an input where the code leaves the claim: the text U+00E9 is
    written as two bytes and reported as one. *)
Theorem write_file_reports_length_not_bytes :
  write_file a_tool (mkWriteParams "/tmp/e.txt" e_acute) a_disk
  = ("Successfully wrote 1 bytes to /tmp/e.txt",
     <["/tmp/e.txt" := File e_acute]> a_disk) /\
  bytes_of (File e_acute) = [195%N; 169%N] /\
  length (bytes_of (File e_acute)) = 2.
Proof. repeat split; vm_compute; reflexivity. Qed.

End Filesystem.

(* ===================================================================== *)
(** * cron/types.ts and cron/service.ts *)
(* ===================================================================== *)

Module Cron.
Import JsString Js.

Inductive ScheduleKind : Type := KindAt | KindEvery | KindCron.

Record CronSchedule : Type := mkSchedule {
  kind : ScheduleKind;
  atMs : option Z;
  everyMs : option Z;
  expr : option string;
  tz : option string
}.

Inductive PayloadKind : Type := SystemEvent | AgentTurn.

Record CronPayload : Type := mkPayload {
  payload_kind : PayloadKind;
  payload_message : string;
  deliver : bool;
  channel : option string;
  to : option string
}.

Inductive RunStatus : Type := StatusOk | StatusError | StatusSkipped.

Record CronJobState : Type := mkJobState {
  nextRunAtMs : option Z;
  lastRunAtMs : option Z;
  lastStatus : option RunStatus;
  lastError : option string
}.

Record CronJob : Type := mkJob {
  id : string;
  name : string;
  enabled : bool;
  schedule : CronSchedule;
  payload : CronPayload;
  state : CronJobState;
  createdAtMs : Z;
  updatedAtMs : Z;
  deleteAfterRun : bool
}.

(** Truthiness of a number that may be null: neither null nor zero. *)
Definition truthy_num (o : option Z) : bool :=
  match o with Some z => negb (z =? 0)%Z | None => false end.

(** [a > b] for a number [a] that may be null (null counts as 0). *)
Definition num_gt (a : option Z) (b : Z) : bool :=
  match a with Some z => (b <? z)%Z | None => (b <? 0)%Z end.

Definition truthy_str (o : option string) : bool :=
  match o with Some s => truthy s | None => false end.

Section ComputeNextRun.

(** The cron-parser package: [parseExpression(expr, {tz, currentDate})]
    followed by [next().getTime()], by expression, time zone and current
    date; [None] when either throws.  Without [currentDate] the package
    takes the clock at the time of the call. *)
Variable cron_next : string -> option string -> Z -> option Z.

(** [computeNextRun(schedule, now)] called when the clock reads [wall]. *)
Definition computeNextRun (wall : Z) (schedule : CronSchedule) (now : Z)
  : option Z :=
  match kind schedule with
  | KindAt =>
      if truthy_num (atMs schedule) && num_gt (atMs schedule) now
      then atMs schedule else None
  | KindEvery =>
      if truthy_num (everyMs schedule) && num_gt (everyMs schedule) 0
      then Z.add now <$> everyMs schedule else None
  | KindCron =>
      if truthy_str (expr schedule) then
        (* try { parseExpression(expr, {tz}); next().getTime() }
           catch { null } *)
        match expr schedule with
        | Some e => cron_next e (tz schedule) wall
        | None => None
        end
      else None
  end.

End ComputeNextRun.

(** [String(e)] of a thrown value: [toString] of an [Error] puts its name
    before its message, and [ZodError] overrides it to answer its message
    alone. *)
Definition to_String (e : Thrown) : string :=
  match e with
  | ZodError _ msg => msg
  | JsError msg => error_toString "Error" msg
  | NamedError name msg => error_toString name msg
  | JsValue rendered => rendered
  end.

Example to_String_of_errors :
  to_String (JsError "boom") = "Error: boom" /\
  to_String (JsError EmptyString) = "Error" /\
  to_String (NamedError "TypeError" "boom") = "TypeError: boom" /\
  to_String (ZodError [] "[]") = "[]" /\
  to_String (JsValue "42") = "42".
Proof. repeat split. Qed.

(** The service.  Job objects live in a heap, [objects], by address;
    [jobs] is [this.store.jobs], an array of references into it, so that a
    write through a reference is seen through every other.  [ticks] are the
    readings of the clock and [reads] counts those taken so far. *)
Record Service : Type := mkService {
  objects : nat -> CronJob;
  jobs : list nat;
  ticks : nat -> Z;
  reads : nat
}.

(** What the clock reads now. *)
Definition wall (s : Service) : Z := ticks s (reads s).

(** [nowMs()] *)
Definition nowMs (s : Service) : Z * Service :=
  (wall s, mkService (objects s) (jobs s) (ticks s) (S (reads s))).

(** A write to the object at [job]. *)
Definition modify (job : nat) (f : CronJob -> CronJob) (s : Service) : Service :=
  mkService (fun a => if Nat.eqb a job then f (objects s job) else objects s a)
    (jobs s) (ticks s) (reads s).

Definition set_jobs (js : list nat) (s : Service) : Service :=
  mkService (objects s) js (ticks s) (reads s).

Definition with_state (f : CronJobState -> CronJobState) (j : CronJob) : CronJob :=
  mkJob (id j) (name j) (enabled j) (schedule j) (payload j) (f (state j))
    (createdAtMs j) (updatedAtMs j) (deleteAfterRun j).

Definition with_enabled (b : bool) (j : CronJob) : CronJob :=
  mkJob (id j) (name j) b (schedule j) (payload j) (state j)
    (createdAtMs j) (updatedAtMs j) (deleteAfterRun j).

Definition with_updatedAtMs (t : Z) (j : CronJob) : CronJob :=
  mkJob (id j) (name j) (enabled j) (schedule j) (payload j) (state j)
    (createdAtMs j) t (deleteAfterRun j).

Definition with_nextRunAtMs (n : option Z) (st : CronJobState) : CronJobState :=
  mkJobState n (lastRunAtMs st) (lastStatus st) (lastError st).

Definition with_lastRunAtMs (n : option Z) (st : CronJobState) : CronJobState :=
  mkJobState (nextRunAtMs st) n (lastStatus st) (lastError st).

Definition with_outcome (status : RunStatus) (err : option string)
  (st : CronJobState) : CronJobState :=
  mkJobState (nextRunAtMs st) (lastRunAtMs st) (Some status) err.

Section Service.

Variable cron_next : string -> option string -> Z -> option Z.

(** [this.onJob]: the callback gets the job (its reference) and may do
    anything to the service on the way, through its public methods. *)
Variable onJob : option (nat -> Service -> Completion (option string) * Service).

(** The first half of [executeJob]: the callback under [try]/[catch],
    then [lastRunAtMs] and [updatedAtMs]. *)
Definition run_handler (job : nat) (s : Service) : Service :=
  let '(startMs, s) := nowMs s in
  let s :=
    match onJob with
    | Some handler =>
        match handler job s with
        | (Normal _, s) => modify job (with_state (with_outcome StatusOk None)) s
        | (Throw e, s) =>
            modify job
              (with_state (with_outcome StatusError (Some (to_String e)))) s
        end
    | None => modify job (with_state (with_outcome StatusOk None)) s
    end in
  let s := modify job (with_state (with_lastRunAtMs (Some startMs))) s in
  let '(updated, s) := nowMs s in
  modify job (with_updatedAtMs updated) s.

Definition executeJob (job : nat) (s : Service) : Service :=
  let s := run_handler job s in
  (* Handle one-shot jobs *)
  match kind (schedule (objects s job)) with
  | KindAt =>
      if deleteAfterRun (objects s job)
      then set_jobs
             (filter (fun j => negb (String.eqb (id (objects s j))
                                       (id (objects s job))) = true)
                (jobs s)) s
      else modify job
             (fun j => with_state (with_nextRunAtMs None) (with_enabled false j)) s
  | _ =>
      let '(now, s) := nowMs s in
      modify job
        (with_state
           (with_nextRunAtMs
              (computeNextRun cron_next (wall s) (schedule (objects s job)) now)))
        s
  end.

(** The key [listJobs] sorts by: [nextRunAtMs ?? Infinity]. *)
Definition before (objs : nat -> CronJob) (a b : nat) : bool :=
  match nextRunAtMs (state (objs a)), nextRunAtMs (state (objs b)) with
  | Some x, Some y => (x <=? y)%Z
  | Some _, None => true
  | None, Some _ => false
  | None, None => true
  end.

Fixpoint insert_sorted (objs : nat -> CronJob) (a : nat) (l : list nat) : list nat :=
  match l with
  | [] => [a]
  | b :: rest =>
      if before objs a b then a :: l else b :: insert_sorted objs a rest
  end.

(** [Array.prototype.sort] with that comparator: a stable sort. *)
Fixpoint sort_jobs (objs : nat -> CronJob) (l : list nat) : list nat :=
  match l with
  | [] => []
  | a :: rest => insert_sorted objs a (sort_jobs objs rest)
  end.

(** [listJobs(includeDisabled)]: [sort] works in place, on [store.jobs]
    itself when the disabled jobs are included and on the filtered copy
    otherwise. *)
Definition listJobs (includeDisabled : bool) (s : Service) : list nat * Service :=
  if includeDisabled then
    let sorted := sort_jobs (objects s) (jobs s) in
    (sorted, set_jobs sorted s)
  else
    (sort_jobs (objects s)
       (filter (fun j => enabled (objects s j) = true) (jobs s)), s).

(** [runJob(jobId, force)]: the first job of the store with that id.
    [saveStore] and [armTimer], which follow, leave the store as it is. *)
Definition runJob (jobId : string) (force : bool) (s : Service) : bool * Service :=
  match List.find (fun j => String.eqb (id (objects s j)) jobId) (jobs s) with
  | Some job =>
      if negb force && negb (enabled (objects s job)) then (false, s)
      else (true, executeJob job s)
  | None => (false, s)
  end.

End Service.

(** ** computeNextRun *)

(** The [at] branch, for instants from the epoch on. *)
Lemma computeNextRun_at (cron_next : string -> option string -> Z -> option Z)
  (wall : Z) (schedule : CronSchedule) (now : Z) :
  kind schedule = KindAt -> (0 <= now)%Z ->
  computeNextRun cron_next wall schedule now
  = match atMs schedule with
    | Some at_ => if (now <? at_)%Z then Some at_ else None
    | None => None
    end.
Proof.
  intros Hk Hn. unfold computeNextRun. rewrite Hk.
  destruct (atMs schedule) as [a|]; [|reflexivity]. simpl.
  destruct (now <? a)%Z eqn:E; [|now rewrite andb_false_r].
  apply Z.ltb_lt in E.
  assert ((a =? 0)%Z = false) as -> by (apply Z.eqb_neq; lia). reflexivity.
Qed.

(** The [every] branch. *)
Lemma computeNextRun_every (cron_next : string -> option string -> Z -> option Z)
  (wall : Z) (schedule : CronSchedule) (now : Z) :
  kind schedule = KindEvery ->
  computeNextRun cron_next wall schedule now
  = match everyMs schedule with
    | Some every => if (0 <? every)%Z then Some (now + every)%Z else None
    | None => None
    end.
Proof.
  intros Hk. unfold computeNextRun. rewrite Hk.
  destruct (everyMs schedule) as [e|]; [|reflexivity]. simpl.
  destruct (0 <? e)%Z eqn:E; [|now rewrite andb_false_r].
  apply Z.ltb_lt in E.
  assert ((e =? 0)%Z = false) as -> by (apply Z.eqb_neq; lia). reflexivity.
Qed.

(** The [cron] branch does not look at [now]. *)
Lemma computeNextRun_cron_ignores_now
  (cron_next : string -> option string -> Z -> option Z)
  (wall : Z) (schedule : CronSchedule) (now now' : Z) :
  kind schedule = KindCron ->
  computeNextRun cron_next wall schedule now
  = computeNextRun cron_next wall schedule now'.
Proof. intros Hk. unfold computeNextRun. now rewrite Hk. Qed.

(** A parser that knows the expression "* * * * *" alone: the start of the
    next minute, strictly after the current date. *)
Definition every_minute (e : string) (tz : option string) (current : Z)
  : option Z :=
  if String.eqb e "* * * * *" then Some ((current / 60000 + 1) * 60000)%Z
  else None.

Definition minutely : CronSchedule :=
  mkSchedule KindCron None None (Some "* * * * *") None.

(** C6, at an input where the code leaves the claim.  [now] is one
    millisecond before 2026-01-01T00:00:00Z (1767225600000) and the clock
    reads one millisecond after it when the expression is parsed.  The next
    match after [now] is that minute; the answer is the minute after. *)
Theorem computeNextRun_cron_reads_the_clock :
  every_minute "* * * * *" None 1767225599999 = Some 1767225600000%Z /\
  computeNextRun every_minute 1767225600001 minutely 1767225599999
  = Some 1767225660000%Z.
Proof. split; reflexivity. Qed.

(** ** One-shot jobs *)

Lemma modify_same (job : nat) (f : CronJob -> CronJob) (s : Service) :
  objects (modify job f s) job = f (objects s job).
Proof. simpl. now rewrite Nat.eqb_refl. Qed.

Lemma insert_sorted_In (objs : nat -> CronJob) (a j : nat) (l : list nat) :
  In j (insert_sorted objs a l) <-> j = a \/ In j l.
Proof.
  induction l as [|b rest IH]; simpl; [intuition|].
  destruct (before objs a b); simpl; [intuition|]. rewrite IH. intuition.
Qed.

(** Sorting keeps the members. *)
Lemma sort_jobs_In (objs : nat -> CronJob) (j : nat) (l : list nat) :
  In j (sort_jobs objs l) <-> In j l.
Proof.
  induction l as [|a rest IH]; simpl; [tauto|].
  rewrite insert_sorted_In, IH. intuition.
Qed.

(** A callback that leaves the kind of the job's schedule and its
    [deleteAfterRun] as they are, whatever else it does. *)
Definition keeps_one_shot
  (onJob : option (nat -> Service -> Completion (option string) * Service))
  (job : nat) : Prop :=
  match onJob with
  | Some handler =>
      forall s,
        kind (schedule (objects (snd (handler job s)) job))
        = kind (schedule (objects s job)) /\
        deleteAfterRun (objects (snd (handler job s)) job)
        = deleteAfterRun (objects s job)
  | None => True
  end.

(** The job is out of the store [s'], with every job of its id, and the
    other jobs of [s1] are all there; no job object has changed. *)
Definition removed_from (s1 s' : Service) (job : nat) : Prop :=
  ~ In job (fst (listJobs true s')) /\
  (forall j, In j (fst (listJobs true s')) <->
             In j (jobs s1) /\ id (objects s1 j) <> id (objects s1 job)) /\
  objects s' = objects s1.

(** The job is disabled in [s'] and has no next run; the store holds the
    jobs it held in [s1], and no other job object has changed. *)
Definition disabled_in (s1 s' : Service) (job : nat) : Prop :=
  enabled (objects s' job) = false /\
  nextRunAtMs (state (objects s' job)) = None /\
  jobs s' = jobs s1 /\
  (forall a, a <> job -> objects s' a = objects s1 a).

Lemma run_handler_keeps
  (onJob : option (nat -> Service -> Completion (option string) * Service))
  (job : nat) (s : Service) :
  keeps_one_shot onJob job ->
  kind (schedule (objects (run_handler onJob job s) job))
  = kind (schedule (objects s job)) /\
  deleteAfterRun (objects (run_handler onJob job s) job)
  = deleteAfterRun (objects s job).
Proof.
  unfold keeps_one_shot, run_handler, nowMs. destruct onJob as [handler|].
  - intros Hk.
    specialize (Hk (mkService (objects s) (jobs s) (ticks s) (S (reads s)))).
    destruct (handler job _) as [[r|e] s1]; cbn [snd objects] in Hk;
      cbn; rewrite !Nat.eqb_refl; exact Hk.
  - intros _. cbn. rewrite !Nat.eqb_refl. now split.
Qed.

Lemma one_shot_after_callback
  (cron_next : string -> option string -> Z -> option Z)
  (onJob : option (nat -> Service -> Completion (option string) * Service))
  (job : nat) (s : Service) :
  kind (schedule (objects (run_handler onJob job s) job)) = KindAt ->
  (deleteAfterRun (objects (run_handler onJob job s) job) = true ->
   removed_from (run_handler onJob job s) (executeJob cron_next onJob job s) job) /\
  (deleteAfterRun (objects (run_handler onJob job s) job) = false ->
   disabled_in (run_handler onJob job s) (executeJob cron_next onJob job s) job).
Proof.
  unfold executeJob. generalize (run_handler onJob job s) as s1. intros s1 Hk.
  rewrite Hk. split; intros Hd; rewrite Hd.
  - assert (Hin : forall j,
               In j (fst (listJobs true
                            (set_jobs
                               (filter (fun j => negb (String.eqb (id (objects s1 j))
                                                         (id (objects s1 job))) = true)
                                  (jobs s1)) s1))) <->
               In j (jobs s1) /\ id (objects s1 j) <> id (objects s1 job)).
    { intros j. cbn. rewrite sort_jobs_In, <- !list_elem_of_In, list_elem_of_filter.
      rewrite negb_true_iff, String.eqb_neq. tauto. }
    split; [|split; [exact Hin | reflexivity]].
    intros H. apply Hin in H as [_ H]. now apply H.
  - unfold disabled_in. rewrite modify_same. cbn.
    repeat split. intros a Ha. apply Nat.eqb_neq in Ha. now rewrite Ha.
Qed.

(** C7.  An execution of a job whose schedule kind is [at], by what the
    job says when the callback is done, which is when [executeJob] looks,
    and so for every callback: with [deleteAfterRun] the job, and every job
    of its id, is out of the store, so that [listJobs(true)] does not
    return it, the other jobs staying; without, the job stays in the store,
    disabled and with a null [nextRunAtMs].  For a callback that leaves the
    job's kind and [deleteAfterRun] alone, the same by what the job says
    before the execution. *)
Theorem executeJob_one_shot
  (cron_next : string -> option string -> Z -> option Z)
  (onJob : option (nat -> Service -> Completion (option string) * Service))
  (job : nat) (s : Service) :
  (kind (schedule (objects (run_handler onJob job s) job)) = KindAt ->
   (deleteAfterRun (objects (run_handler onJob job s) job) = true ->
    removed_from (run_handler onJob job s) (executeJob cron_next onJob job s) job)
   /\
   (deleteAfterRun (objects (run_handler onJob job s) job) = false ->
    disabled_in (run_handler onJob job s) (executeJob cron_next onJob job s) job))
  /\
  (keeps_one_shot onJob job ->
   kind (schedule (objects s job)) = KindAt ->
   (deleteAfterRun (objects s job) = true ->
    removed_from (run_handler onJob job s) (executeJob cron_next onJob job s) job)
   /\
   (deleteAfterRun (objects s job) = false ->
    disabled_in (run_handler onJob job s) (executeJob cron_next onJob job s) job)).
Proof.
  split; [apply one_shot_after_callback|].
  intros Hkeeps Hk. destruct (run_handler_keeps onJob job s Hkeeps) as [H1 H2].
  rewrite <- H1 in Hk. rewrite <- H2.
  now apply one_shot_after_callback.
Qed.

(** A reminder to run once, and a recurring job beside it. *)
Definition reminder : CronJob :=
  mkJob "a1b2c3d4" "reminder" true
    (mkSchedule KindAt (Some 5000%Z) None None None)
    (mkPayload AgentTurn "stand up" true (Some "telegram") (Some "42"))
    (mkJobState (Some 5000%Z) None None None) 1000 1000 true.

Definition recurring : CronJob :=
  mkJob "e5f6a7b8" "poll" true
    (mkSchedule KindEvery None (Some 60000%Z) None None)
    (mkPayload AgentTurn "poll" false None None)
    (mkJobState (Some 61000%Z) None None None) 1000 1000 false.

Definition a_service : Service :=
  mkService (fun a => if Nat.eqb a 0 then reminder else recurring) [0; 1]
    (fun n => 5000 + Z.of_nat n)%Z 0.

Definition quiet_handler (job : nat) (s : Service)
  : Completion (option string) * Service := (Normal None, s).

(** The same reminder, to be kept after its run. *)
Definition kept_reminder : CronJob :=
  mkJob "a1b2c3d4" "reminder" true
    (mkSchedule KindAt (Some 5000%Z) None None None)
    (mkPayload AgentTurn "stand up" true (Some "telegram") (Some "42"))
    (mkJobState (Some 5000%Z) None None None) 1000 1000 false.

Definition b_service : Service :=
  mkService (fun a => if Nat.eqb a 0 then kept_reminder else recurring) [0; 1]
    (fun n => 5000 + Z.of_nat n)%Z 0.

Lemma quiet_handler_keeps (job : nat) : keeps_one_shot (Some quiet_handler) job.
Proof. intros s. now split. Qed.

Lemma executeJob_one_shot_witness :
  (In 0 (fst (listJobs true a_service)) /\
   removed_from (run_handler (Some quiet_handler) 0 a_service)
     (executeJob (fun _ _ _ => None) (Some quiet_handler) 0 a_service) 0 /\
   fst (listJobs true
          (executeJob (fun _ _ _ => None) (Some quiet_handler) 0 a_service))
   = [1]) /\
  (disabled_in (run_handler (Some quiet_handler) 0 b_service)
     (executeJob (fun _ _ _ => None) (Some quiet_handler) 0 b_service) 0 /\
   fst (listJobs true
          (executeJob (fun _ _ _ => None) (Some quiet_handler) 0 b_service))
   = [1; 0]).
Proof.
  split.
  - split; [now left|]. split; [|reflexivity].
    apply (executeJob_one_shot (fun _ _ _ => None) (Some quiet_handler) 0 a_service);
      [apply quiet_handler_keeps | reflexivity | reflexivity].
  - split; [|reflexivity].
    apply (executeJob_one_shot (fun _ _ _ => None) (Some quiet_handler) 0 b_service);
      [apply quiet_handler_keeps | reflexivity | reflexivity].
Defined.

(** The reminder is in the list before it runs and out of it after. *)
Example reminder_vanishes :
  fst (listJobs true a_service) = [0; 1] /\
  fst (listJobs true
         (snd (runJob (fun _ _ _ => None) (Some quiet_handler) "a1b2c3d4" false
                 a_service))) = [1].
Proof. split; reflexivity. Qed.

End Cron.

(* ===================================================================== *)
(** * heartbeat/service.ts *)
(* ===================================================================== *)

Module Heartbeat.
Import JsString Regex Js NodePath NodeFs.

Definition DEFAULT_INTERVAL_S : Z := 30 * 60.

Definition HEARTBEAT_PROMPT : string :=
  "Read HEARTBEAT.md in your workspace (if it exists)." +:+ nl +:+
  "Follow any instructions or tasks listed there." +:+ nl +:+
  "If nothing needs attention, reply with just: HEARTBEAT_OK".

(** /^[-*] \[[ x]\]/ *)
Definition checkbox : RegExp :=
  mkRegExp (cat [Bol; Cls [ch "-"; ch "*"]; Chr (ch " ");
                 Chr (ch "["); Cls [ch " "; ch "x"];
                 Chr (ch "]")]) false.

(** The [for] loop of [isHeartbeatEmpty] over the lines. *)
Fixpoint scan_lines (lines : list string) : bool :=
  match lines with
  | [] => true
  | line :: rest =>
      let trimmed := trim line in
      if negb (truthy trimmed) then scan_lines rest
      else if startsWith trimmed "#" then scan_lines rest
      else if startsWith trimmed "<!--" then scan_lines rest
      (* Checkboxes are actionable content *)
      else if test checkbox trimmed then false
      else if (0 <? String.length trimmed)%nat then false
      else scan_lines rest
  end.

Definition isHeartbeatEmpty (content : option string) : bool :=
  match content with
  | None => true
  | Some c => if negb (truthy c) then true else scan_lines (split_lines c)
  end.

Record HeartbeatService : Type := mkHeartbeat {
  workspace : string;
  intervalS : Z;
  enabled : bool;
  running : bool;
  (** the delay of the armed timer, in milliseconds *)
  timer : option Z
}.

(** The getter [heartbeatFile]. *)
Definition heartbeatFile (svc : HeartbeatService) : string :=
  path_join (workspace svc) "HEARTBEAT.md".

Section Tick.

(** [process.cwd()] *)
Variable cwd : string.

(** [this.onHeartbeat] *)
Variable onHeartbeat : option (string -> Completion string).

(** The file a path names for [node:fs]: relative paths start at the
    working directory. *)
Definition at_cwd (p : string) : string := resolve cwd p.

Definition readHeartbeatFile (svc : HeartbeatService) (fs : FS) : option string :=
  if negb (existsSync fs (at_cwd (heartbeatFile svc))) then None
  else match readFileSync fs (at_cwd (heartbeatFile svc)) with
       | Normal content => Some content
       | Throw _ => None
       end.

Definition scheduleNext (svc : HeartbeatService) : HeartbeatService :=
  if negb (running svc) then svc
  else mkHeartbeat (workspace svc) (intervalS svc) (enabled svc) (running svc)
         (Some (intervalS svc * 1000)%Z).

(** [tick]: the prompts the handler was invoked with, and the service
    afterwards.  What the handler answers or throws goes to the log
    only. *)
Definition tick (svc : HeartbeatService) (fs : FS)
  : list string * HeartbeatService :=
  if negb (running svc) then ([], svc)
  else
    let content := readHeartbeatFile svc fs in
    if isHeartbeatEmpty content then ([], scheduleNext svc)
    else
      match onHeartbeat with
      | Some handler =>
          match handler HEARTBEAT_PROMPT with
          | Normal _ => ([HEARTBEAT_PROMPT], scheduleNext svc)
          | Throw _ => ([HEARTBEAT_PROMPT], scheduleNext svc)
          end
      | None => ([], scheduleNext svc)
      end.

End Tick.

(** ** What counts as empty *)










Definition a_heartbeat : HeartbeatService :=
  mkHeartbeat "/home/robun/ws" DEFAULT_INTERVAL_S true true None.

(** The workspace of the tests: a header and blank lines. *)
Definition header_only : FS :=
  <["/home/robun/ws/HEARTBEAT.md" := File ("# Tasks" +:+ nl +:+ nl)]> ∅.

(** The same with a task. *)
Definition with_task : FS :=
  <["/home/robun/ws/HEARTBEAT.md" :=
      File ("# Tasks" +:+ nl +:+ nl +:+ "- [ ] Deploy v2" +:+ nl)]> ∅.


End Heartbeat.

(* ===================================================================== *)
(** * providers/base.ts, agent/context.ts and the agent loop *)
(* ===================================================================== *)

Module Agent.
Import JsString Js.

Record ToolCallRequest : Type := mkToolCall {
  tc_id : string;
  tc_name : string;
  tc_arguments : Params
}.

Record LLMResponse : Type := mkResponse {
  content : option string;
  toolCalls : list ToolCallRequest;
  reasoningContent : option string
}.

Definition hasToolCalls (response : LLMResponse) : bool :=
  (0 <? length (toolCalls response))%nat.

(** An entry of [tool_calls] in an assistant message:
    [{id, type: "function", function: {name, arguments}}]. *)
Record ToolCallDict : Type := mkDict {
  d_id : string;
  d_name : string;
  d_arguments : string
}.

(** A message object: [role], and the keys that may be absent. *)
Record Message : Type := mkMessage {
  role : string;
  m_content : option string;
  m_tool_calls : option (list ToolCallDict);
  m_tool_call_id : option string;
  m_name : option string;
  m_reasoning_content : option string
}.

Definition system_message (text : string) : Message :=
  mkMessage "system" (Some text) None None None None.

Definition user_message (text : string) : Message :=
  mkMessage "user" (Some text) None None None None.

Definition REFLECT : string := "Reflect on the results and decide next steps.".

(** What a run of a tool loop leaves: the final content or the error thrown
    on the way, the message list, the message lists the provider was called
    with (in order), and the world. *)
Record Run (World : Type) : Type := mkRun {
  result : Completion (option string);
  messages : list Message;
  chats : list (list Message);
  world : World
}.
Arguments mkRun {World}.
Arguments result {World}.
Arguments messages {World}.
Arguments chats {World}.
Arguments world {World}.

(** A run, after one more call of the provider before it. *)
Definition after_chat {World : Type} (input : list Message) (r : Run World)
  : Run World :=
  mkRun (result r) (messages r) (input :: chats r) (world r).

(** [ContextBuilder.addToolResult]; the tool name is not recorded. *)
Definition addToolResult (msgs : list Message) (toolCallId _toolName res : string)
  : list Message :=
  msgs ++ [mkMessage "tool" (Some res) None (Some toolCallId) None None].

(** [ContextBuilder.addAssistantMessage] *)
Definition addAssistantMessage (msgs : list Message) (text : option string)
  (calls : list ToolCallDict) (reasoning : option string) : list Message :=
  msgs ++ [mkMessage "assistant" text
             (if (0 <? length calls)%nat then Some calls else None)
             None None
             (match reasoning with
              | Some r => if truthy r then Some r else None
              | None => None
              end)].

Section Loops.
Variable World : Type.

(** [this.provider.chat(messages, options)] *)
Variable chat : list Message -> World -> Completion LLMResponse * World.

(** [JSON.stringify] of an argument map. *)
Variable stringify : Params -> string.

(** The registry of the loop. *)
Variable tools : ToolRegistry.ToolRegistry World.

Definition toolCallDict (tc : ToolCallRequest) : ToolCallDict :=
  mkDict (tc_id tc) (tc_name tc) (stringify (tc_arguments tc)).

(** *** AgentLoop.runAgentLoop *)

(** The [for] loop over [response.toolCalls] of the agent loop. *)
Fixpoint agent_tool_calls (tcs : list ToolCallRequest) (msgs : list Message)
  (toolsUsed : list string) (w : World)
  : Completion (list Message * list string) * World :=
  match tcs with
  | [] => (Normal (msgs, toolsUsed), w)
  | tc :: rest =>
      match ToolRegistry.execute tools (tc_name tc) (tc_arguments tc) w with
      | (Normal res, w) =>
          agent_tool_calls rest (addToolResult msgs (tc_id tc) (tc_name tc) res)
            (toolsUsed ++ [tc_name tc]) w
      | (Throw err, w) => (Throw err, w)
      end
  end.

(** The [while (iteration < this.maxIterations)] loop, by the iterations
    that remain; with the run, the tools used. *)
Fixpoint agent_loop (remaining : nat) (msgs : list Message)
  (toolsUsed : list string) (w : World) : Run World * list string :=
  match remaining with
  | O => (mkRun (Normal None) msgs [] w, toolsUsed)
  | S n =>
      match chat msgs w with
      | (Throw err, w) => (mkRun (Throw err) msgs [msgs] w, toolsUsed)
      | (Normal response, w) =>
          if hasToolCalls response then
            let pushed :=
              addAssistantMessage msgs (content response)
                (map toolCallDict (toolCalls response))
                (reasoningContent response) in
            match agent_tool_calls (toolCalls response) pushed toolsUsed w with
            | (Normal (pushed, toolsUsed), w) =>
                let '(r, used) :=
                  agent_loop n (pushed ++ [user_message REFLECT]) toolsUsed w in
                (after_chat msgs r, used)
            | (Throw err, w) => (mkRun (Throw err) pushed [msgs] w, toolsUsed)
            end
          else (mkRun (Normal (content response)) msgs [msgs] w, toolsUsed)
      end
  end.

(** [runAgentLoop(initialMessages)] of a loop built with [maxIterations]. *)
Definition runAgentLoop (maxIterations : nat) (initialMessages : list Message)
  (w : World) : Run World * list string :=
  agent_loop maxIterations initialMessages [] w.

(** *** SubagentManager.runSubagent *)

(** The [for] loop over [response.toolCalls]: execute, push the tool
    message. *)
Fixpoint run_tool_calls (tcs : list ToolCallRequest) (msgs : list Message)
  (w : World) : Completion (list Message) * World :=
  match tcs with
  | [] => (Normal msgs, w)
  | tc :: rest =>
      match ToolRegistry.execute tools (tc_name tc) (tc_arguments tc) w with
      | (Normal res, w) =>
          run_tool_calls rest
            (msgs ++ [mkMessage "tool" (Some res) None (Some (tc_id tc))
                        (Some (tc_name tc)) None]) w
      | (Throw err, w) => (Throw err, w)
      end
  end.

(** The [while (iteration < maxIterations)] loop, by the iterations that
    remain. *)
Fixpoint tool_loop (remaining : nat) (msgs : list Message) (w : World)
  : Run World :=
  match remaining with
  | O => mkRun (Normal None) msgs [] w
  | S n =>
      match chat msgs w with
      | (Throw err, w) => mkRun (Throw err) msgs [msgs] w
      | (Normal response, w) =>
          if hasToolCalls response then
            let pushed :=
              msgs ++ [mkMessage "assistant"
                         (Some (default EmptyString (content response)))
                         (Some (map toolCallDict (toolCalls response)))
                         None None None] in
            match run_tool_calls (toolCalls response) pushed w with
            | (Normal pushed, w) => after_chat msgs (tool_loop n pushed w)
            | (Throw err, w) => mkRun (Throw err) pushed [msgs] w
            end
          else mkRun (Normal (content response)) msgs [msgs] w
      end
  end.

Definition maxIterations : nat := 15.

(** The body of [runSubagent] up to the announcement: the seed messages,
    the loop, the default for a missing final result.  [systemPrompt] is
    what [buildSubagentPrompt] renders. *)
Definition runSubagent (systemPrompt task : string) (w : World) : Run World :=
  let r := tool_loop maxIterations
             [system_message systemPrompt; user_message task] w in
  match result r with
  | Normal None =>
      mkRun (Normal (Some "Task completed but no final response was generated."))
        (messages r) (chats r) (world r)
  | _ => r
  end.

End Loops.

Arguments toolCallDict stringify tc : rename.
Arguments agent_tool_calls {World}.
Arguments agent_loop {World}.
Arguments runAgentLoop {World}.
Arguments run_tool_calls {World}.
Arguments tool_loop {World}.
Arguments runSubagent {World}.

(** ** The turns of the sub-agent's loop *)

(** The tool messages of a turn: one per call, in order, under the id and
    the name of the call. *)
Definition tool_messages (tcs : list ToolCallRequest) (results : list string)
  : list Message :=
  zip_with (fun tc res =>
              mkMessage "tool" (Some res) None (Some (tc_id tc))
                (Some (tc_name tc)) None) tcs results.

Lemma run_tool_calls_pushes (World : Type) (tools : ToolRegistry.ToolRegistry World)
  (tcs : list ToolCallRequest) :
  forall msgs w, exists results w',
    length results = length tcs /\
    run_tool_calls tools tcs msgs w
    = (Normal (msgs ++ tool_messages tcs results), w').
Proof.
  induction tcs as [|tc rest IH]; intros msgs w.
  - exists [], w. split; [reflexivity|]. simpl. now rewrite List.app_nil_r.
  - destruct (ToolRegistry.execute_normal World tools (tc_name tc)
                (tc_arguments tc) w) as [res [w1 He]].
    destruct (IH (msgs ++ [mkMessage "tool" (Some res) None (Some (tc_id tc))
                             (Some (tc_name tc)) None]) w1)
      as [results [w2 [Hlen Hrun]]].
    exists (res :: results), w2. split; [simpl; now rewrite Hlen|].
    simpl. rewrite He, Hrun. now rewrite <- List.app_assoc.
Qed.

Lemma chats_bound (World : Type)
  (chat : list Message -> World -> Completion LLMResponse * World)
  (stringify : Params -> string) (tools : ToolRegistry.ToolRegistry World)
  (n : nat) :
  forall msgs w, length (chats (tool_loop chat stringify tools n msgs w)) <= n.
Proof.
  induction n as [|n IH]; intros msgs w; simpl; [lia|].
  destruct (chat msgs w) as [[response|err] w1]; simpl; [|lia].
  destruct (hasToolCalls response); simpl; [|lia].
  destruct (run_tool_calls tools (toolCalls response) _ w1) as [[pushed|err] w2];
    simpl; [|lia].
  specialize (IH pushed w2). lia.
Qed.

(** C9 (as amended).  The loop of the sub-agent calls the provider at most
    15 times.  On a turn whose response carries tool calls it appends one
    assistant message with the tool calls, then one tool message per tool
    call, in order, each under the id of its call, and goes on to the next
    call of the provider with exactly these messages appended: no user
    message is put between or after the tool results. *)
Theorem subagent_turn_appends (World : Type)
  (chat : list Message -> World -> Completion LLMResponse * World)
  (stringify : Params -> string) (tools : ToolRegistry.ToolRegistry World)
  (n : nat) (msgs : list Message) (w w1 : World) (response : LLMResponse) :
  chat msgs w = (Normal response, w1) ->
  toolCalls response <> [] ->
  length (chats (tool_loop chat stringify tools maxIterations msgs w)) <= 15 /\
  exists results w2,
    length results = length (toolCalls response) /\
    tool_loop chat stringify tools (S n) msgs w
    = after_chat msgs
        (tool_loop chat stringify tools n
           (msgs
            ++ mkMessage "assistant"
                 (Some (default EmptyString (content response)))
                 (Some (map (toolCallDict stringify) (toolCalls response)))
                 None None None
               :: tool_messages (toolCalls response) results)
           w2).
Proof.
  intros Hchat Hcalls. split; [apply chats_bound|].
  destruct (run_tool_calls_pushes World tools (toolCalls response)
              (msgs ++ [mkMessage "assistant"
                          (Some (default EmptyString (content response)))
                          (Some (map (toolCallDict stringify) (toolCalls response)))
                          None None None]) w1)
    as [results [w2 [Hlen Hrun]]].
  exists results, w2. split; [exact Hlen|].
  simpl. rewrite Hchat.
  assert (hasToolCalls response = true) as ->.
  { unfold hasToolCalls. destruct (toolCalls response); [contradiction | reflexivity]. }
  rewrite Hrun. now rewrite <- List.app_assoc.
Qed.

(** ** The turns of the agent loop *)

Definition agent_tool_messages (tcs : list ToolCallRequest) (results : list string)
  : list Message :=
  zip_with (fun tc res =>
              mkMessage "tool" (Some res) None (Some (tc_id tc)) None None)
    tcs results.

Lemma agent_tool_calls_pushes (World : Type)
  (tools : ToolRegistry.ToolRegistry World) (tcs : list ToolCallRequest) :
  forall msgs used w, exists results w',
    length results = length tcs /\
    agent_tool_calls tools tcs msgs used w
    = (Normal (msgs ++ agent_tool_messages tcs results,
               used ++ map tc_name tcs), w').
Proof.
  induction tcs as [|tc rest IH]; intros msgs used w.
  - exists [], w. split; [reflexivity|]. simpl. now rewrite !List.app_nil_r.
  - destruct (ToolRegistry.execute_normal World tools (tc_name tc)
                (tc_arguments tc) w) as [res [w1 He]].
    destruct (IH (addToolResult msgs (tc_id tc) (tc_name tc) res)
                (used ++ [tc_name tc]) w1) as [results [w2 [Hlen Hrun]]].
    exists (res :: results), w2. split; [simpl; now rewrite Hlen|].
    simpl. rewrite He, Hrun. unfold addToolResult.
    now rewrite <- !List.app_assoc.
Qed.

(** On a turn with tool calls the agent loop goes on with the assistant
    message, one tool message per call and, after all of them, the user
    message that asks to reflect. *)
Lemma agent_turn_reflects (World : Type)
  (chat : list Message -> World -> Completion LLMResponse * World)
  (stringify : Params -> string) (tools : ToolRegistry.ToolRegistry World)
  (n : nat) (msgs : list Message) (used : list string) (w w1 : World)
  (response : LLMResponse) :
  chat msgs w = (Normal response, w1) ->
  toolCalls response <> [] ->
  exists results w2,
    length results = length (toolCalls response) /\
    agent_loop chat stringify tools (S n) msgs used w
    = (let '(r, u) :=
         agent_loop chat stringify tools n
           (addAssistantMessage msgs (content response)
              (map (toolCallDict stringify) (toolCalls response))
              (reasoningContent response)
            ++ agent_tool_messages (toolCalls response) results
            ++ [user_message REFLECT])
           (used ++ map tc_name (toolCalls response)) w2 in
       (after_chat msgs r, u)).
Proof.
  intros Hchat Hcalls.
  destruct (agent_tool_calls_pushes World tools (toolCalls response)
              (addAssistantMessage msgs (content response)
                 (map (toolCallDict stringify) (toolCalls response))
                 (reasoningContent response)) used w1)
    as [results [w2 [Hlen Hrun]]].
  exists results, w2. split; [exact Hlen|].
  simpl. rewrite Hchat.
  assert (hasToolCalls response = true) as ->.
  { unfold hasToolCalls. destruct (toolCalls response); [contradiction | reflexivity]. }
  rewrite Hrun. now rewrite <- List.app_assoc.
Qed.

(** A provider that asks for one tool call and then answers. *)
Definition scripted (msgs : list Message) (w : unit)
  : Completion LLMResponse * unit :=
  if (length msgs =? 2)%nat
  then (Normal (mkResponse None
                  [mkToolCall "call_1" "dummy" [("value", JString "x")]] None), w)
  else (Normal (mkResponse (Some "done") [] None), w).

Definition one_tool : ToolRegistry.ToolRegistry unit :=
  ToolRegistry.register ToolRegistry.new_registry ToolRegistry.dummyTool.

Lemma subagent_turn_appends_witness :
  length (chats (tool_loop scripted (fun _ => "{}") one_tool maxIterations
                   [system_message "prompt"; user_message "task"] tt)) <= 15 /\
  exists results w2,
    length results = 1 /\
    tool_loop scripted (fun _ => "{}") one_tool 15
      [system_message "prompt"; user_message "task"] tt
    = after_chat [system_message "prompt"; user_message "task"]
        (tool_loop scripted (fun _ => "{}") one_tool 14
           ([system_message "prompt"; user_message "task"]
            ++ mkMessage "assistant" (Some EmptyString)
                 (Some [mkDict "call_1" "dummy" "{}"]) None None None
               :: tool_messages
                    [mkToolCall "call_1" "dummy" [("value", JString "x")]]
                    results)
           w2).
Proof.
  apply (subagent_turn_appends unit scripted (fun _ => "{}") one_tool 14
           [system_message "prompt"; user_message "task"] tt tt
           (mkResponse None
              [mkToolCall "call_1" "dummy" [("value", JString "x")]] None)).
  - reflexivity.
  - discriminate.
Defined.

(** C9 as stated fails: after a turn with one tool call the sub-agent calls
    the provider with the assistant message and the tool message at the
    end, and the user message "Reflect on the results and decide next
    steps." is nowhere in its conversation.  The agent loop, on the same
    provider and registry, does put it after the tool message. *)
Lemma subagent_sends_no_reflection :
  chats (runSubagent scripted (fun _ => "{}") one_tool "prompt" "task" tt)
  = [ [system_message "prompt"; user_message "task"];
      [system_message "prompt"; user_message "task";
       mkMessage "assistant" (Some EmptyString)
         (Some [mkDict "call_1" "dummy" "{}"]) None None None;
       mkMessage "tool" (Some "got: x") None (Some "call_1") (Some "dummy") None] ]
  /\
  result (runSubagent scripted (fun _ => "{}") one_tool "prompt" "task" tt)
  = Normal (Some "done") /\
  ~ In (user_message REFLECT)
      (messages (runSubagent scripted (fun _ => "{}") one_tool "prompt" "task" tt))
  /\
  messages (fst (runAgentLoop scripted (fun _ => "{}") one_tool 20
                   [system_message "prompt"; user_message "task"] tt))
  = [system_message "prompt"; user_message "task";
     mkMessage "assistant" None (Some [mkDict "call_1" "dummy" "{}"]) None None None;
     mkMessage "tool" (Some "got: x") None (Some "call_1") None None;
     user_message REFLECT].
Proof.
  split; [reflexivity|]. split; [reflexivity|]. split; [|reflexivity].
  simpl. intros [H|[H|[H|[H|[]]]]]; discriminate.
Qed.

End Agent.

(* ===================================================================== *)
(** * More of tools/base.ts: unregister, toolNames, getDefinitions *)
(* ===================================================================== *)

Module RegistryMore.
Import JsString Js ToolRegistry.

Section MapFacts.
Context {V : Type}.

Lemma get_absent (m : list (string * V)) (k : string) :
  ~ In k (JsMap.keys m) -> JsMap.get m k = None.
Proof.
  intros H. destruct (JsMap.get m k) eqn:E; [|reflexivity].
  exfalso. apply H, JsMap.has_keys. unfold JsMap.has. now rewrite E.
Qed.

Lemma get_delete_eq (m : list (string * V)) (k : string) :
  NoDup (JsMap.keys m) -> JsMap.get (JsMap.delete m k) k = None.
Proof.
  induction m as [|[k' v'] rest IH]; simpl; intros Hnd; [reflexivity|].
  apply NoDup_cons in Hnd as [Hk Hnd].
  destruct (String.eqb k' k) eqn:E.
  - apply String.eqb_eq in E. subst k'. apply get_absent.
    intros Hin. apply Hk. now apply list_elem_of_In.
  - simpl. rewrite E. now apply IH.
Qed.

Lemma get_delete_ne (m : list (string * V)) (k k0 : string) :
  k <> k0 -> JsMap.get (JsMap.delete m k) k0 = JsMap.get m k0.
Proof.
  intros Hne. induction m as [|[k' v'] rest IH]; simpl; [reflexivity|].
  destruct (String.eqb k' k) eqn:E; simpl.
  - apply String.eqb_eq in E. subst k'.
    destruct (String.eqb k k0) eqn:E0; [|reflexivity].
    apply String.eqb_eq in E0. contradiction.
  - now rewrite IH.
Qed.

Lemma size_delete (m : list (string * V)) (k : string) :
  JsMap.size (JsMap.delete m k)
  = if JsMap.has m k then JsMap.size m - 1 else JsMap.size m.
Proof.
  unfold JsMap.has, JsMap.size.
  induction m as [|[k' v'] rest IH]; simpl; [reflexivity|].
  destruct (String.eqb k' k); simpl; [lia|].
  rewrite IH. destruct (JsMap.get rest k) eqn:E; [|reflexivity].
  destruct rest; [discriminate | simpl; lia].
Qed.

End MapFacts.

(** In a reachable registry every tool stands under its own name. *)
Lemma built_keys_are_names (World : Type) (reg : ToolRegistry World) :
  built reg ->
  Forall (fun entry => fst entry = Tool.name (snd entry)) (tools reg).
Proof.
  induction 1 as [|reg tool _ IH|reg name _ IH]; simpl.
  - constructor.
  - induction (tools reg) as [|[k v] rest IHr]; simpl.
    + constructor; [reflexivity | constructor].
    + apply Forall_cons in IH as [Hk Hrest].
      destruct (String.eqb k (Tool.name tool)) eqn:E.
      * apply String.eqb_eq in E. constructor; [exact E | exact Hrest].
      * constructor; [exact Hk | now apply IHr].
  - induction (tools reg) as [|[k v] rest IHr]; simpl; [constructor|].
    apply Forall_cons in IH as [Hk Hrest].
    destruct (String.eqb k name); [exact Hrest|].
    constructor; [exact Hk | now apply IHr].
Qed.

(** The function schema [toolToSchema] builds:
    [{type: "function", function: {name, description, parameters}}]. *)
Record FunctionSchema : Type := mkFunctionSchema {
  schema_type : string;
  fn_name : string;
  fn_description : string;
  fn_parameters : JsonValue
}.

Section Definitions.
Variable World : Type.

(** [zodToJsonSchema(schema, {target: "openAi"})] *)
Variable zodToJsonSchema : (Params -> Params + (list ZodIssue * string)) -> JsonValue.

Definition toolToSchema (tool : Tool.Tool World) : FunctionSchema :=
  mkFunctionSchema "function" (Tool.name tool) (Tool.description tool)
    (zodToJsonSchema (Tool.parameters tool)).

Definition getDefinitions (reg : ToolRegistry World) : list FunctionSchema :=
  map toolToSchema (JsMap.values (tools reg)).

End Definitions.

Arguments toolToSchema {World}.
Arguments getDefinitions {World}.

(** X1.  After [unregister(name)] the name is gone: [get] finds nothing,
    [execute] answers that the tool is not found and leaves the world as it
    is, the other names keep their tools, and the size is one less when the
    name was registered and the same otherwise. *)
Theorem unregister_removes (World : Type) (reg : ToolRegistry World)
  (name : string) :
  built reg ->
  get (unregister reg name) name = None /\
  has (unregister reg name) name = false /\
  (forall params w,
     execute (unregister reg name) name params w
     = (Normal ("Error: Tool '" +:+ name +:+ "' not found."), w)) /\
  (forall other, other <> name ->
     get (unregister reg name) other = get reg other) /\
  size (unregister reg name) = (if has reg name then size reg - 1 else size reg) /\
  built (unregister reg name).
Proof.
  intros Hb. pose proof (built_NoDup World reg Hb) as Hnd.
  unfold get, has, size, execute, unregister, toolNames in *. simpl.
  unfold JsMap.has. rewrite (get_delete_eq _ _ Hnd).
  repeat split; try reflexivity.
  - intros other Hne. apply get_delete_ne. congruence.
  - apply size_delete.
  - now constructor.
Qed.

Lemma unregister_removes_witness :
  get (unregister (register new_registry dummyTool) "dummy") "dummy" = None /\
  size (unregister (register new_registry dummyTool) "dummy") = 0.
Proof.
  pose proof (unregister_removes unit (register new_registry dummyTool) "dummy"
                (built_register _ _ _ (built_new _))) as H.
  destruct H as [Hget [_ [_ [_ [Hsize _]]]]]. split; [exact Hget | exact Hsize].
Defined.

(** X2.  [toolNames] and [getDefinitions] go through the registry in the same
    order: the names of the schemas are the tool names; and a tool under a
    name that is not registered yet goes to the end of both. *)
Theorem definitions_follow_names (World : Type)
  (zodToJsonSchema : (Params -> Params + (list ZodIssue * string)) -> JsonValue)
  (reg : ToolRegistry World) (tool : Tool.Tool World) :
  built reg ->
  map fn_name (getDefinitions zodToJsonSchema reg) = toolNames reg /\
  length (getDefinitions zodToJsonSchema reg) = size reg /\
  (has reg (Tool.name tool) = false ->
     toolNames (register reg tool) = toolNames reg ++ [Tool.name tool] /\
     getDefinitions zodToJsonSchema (register reg tool)
     = getDefinitions zodToJsonSchema reg ++ [toolToSchema zodToJsonSchema tool]).
Proof.
  intros Hb. pose proof (built_keys_are_names World reg Hb) as Hk.
  unfold getDefinitions, toolNames, size, has, register, JsMap.values,
    JsMap.keys, JsMap.size. simpl.
  split; [|split].
  - rewrite map_map. induction (tools reg) as [|[k v] rest IH]; [reflexivity|].
    apply Forall_cons in Hk as [Hkv Hrest]. simpl in *.
    now rewrite (IH Hrest), Hkv.
  - now rewrite !length_map.
  - intros Hh. fold (JsMap.keys (JsMap.set (tools reg) (Tool.name tool) tool)).
    rewrite JsMap.keys_set, Hh. split; [reflexivity|].
    clear Hk. unfold JsMap.has in Hh.
    induction (tools reg) as [|[k v] rest IH]; [reflexivity|].
    simpl in *. destruct (String.eqb k (Tool.name tool)); [discriminate|].
    simpl. now rewrite (IH Hh).
Qed.

Lemma definitions_follow_names_witness :
  map fn_name (getDefinitions (fun _ => JNull) (register new_registry dummyTool))
  = ["dummy"] /\
  toolNames (register (register new_registry dummyTool) strictTool)
  = ["dummy"; "strict"].
Proof.
  pose proof (definitions_follow_names unit (fun _ => JNull)
                (register new_registry dummyTool) strictTool
                (built_register _ _ _ (built_new _))) as H.
  destruct H as [Hn [_ Hf]]. split; [exact Hn|].
  destruct (Hf eq_refl) as [Ht _]. exact Ht.
Defined.

End RegistryMore.

(* ===================================================================== *)
(** * More on regular expressions: a match inside a longer input *)
(* ===================================================================== *)

Module RegexMore.
Import JsString Regex.

(** A pattern without the assertion [^]. *)
Fixpoint unanchored (r : regex) : bool :=
  match r with
  | Bol => false
  | Seq r1 r2 | Alt r1 r2 => unanchored r1 && unanchored r2
  | Star r1 => unanchored r1
  | _ => true
  end.

(** The character before the text that follows [pre], when [p] is the
    character before [pre]. *)
Fixpoint char_before (p : option ascii) (pre : string) : option ascii :=
  match pre with
  | EmptyString => p
  | String c rest => char_before (Some c) rest
  end.

(** [k'] accepts, with [suf] appended, whatever [k] accepts. *)
Definition cont_suffix (suf : string) (k k' : Cont) : Prop :=
  forall p t, k p t = true -> k' p (t +:+ suf) = true.

Lemma star_loop_suffix (suf : string)
  (body : option ascii -> string -> Cont -> bool) (k k' : Cont) :
  (forall prev s c c', cont_suffix suf c c' ->
     body prev s c = true -> body prev (s +:+ suf) c' = true) ->
  cont_suffix suf k k' ->
  forall fuel fuel' prev s, fuel <= fuel' ->
    star_loop body k fuel prev s = true ->
    star_loop body k' fuel' prev (s +:+ suf) = true.
Proof.
  intros Hbody Hk fuel. induction fuel as [|fuel IH]; intros fuel' prev s Hle.
  - simpl. intros H. destruct fuel'; simpl; [now apply Hk|].
    rewrite (Hk _ _ H). apply orb_true_r.
  - destruct fuel' as [|fuel']; [lia|]. simpl. rewrite !orb_true_iff.
    intros [H|H]; [left | right; now apply Hk].
    revert H. apply Hbody. intros p t. rewrite !andb_true_iff, !app_length.
    intros [Hlt Hl]. split.
    + apply Nat.ltb_lt in Hlt. apply Nat.ltb_lt. lia.
    + apply IH; [lia | exact Hl].
Qed.

(** What follows a match may be anything that does not start with a word
    character. *)
Lemma m_suffix (i : bool) (suf : string) (r : regex) :
  is_word_opt (next_char suf) = false ->
  forall prev s k k', cont_suffix suf k k' ->
    m i r prev s k = true -> m i r prev (s +:+ suf) k' = true.
Proof.
  intros Hsuf.
  assert (Hstep : forall (a : regex) s (prev : option ascii) k k',
            cont_suffix suf k k' ->
            match s with
            | String c s' => atom i a c && k (Some c) s'
            | EmptyString => false
            end = true ->
            match s +:+ suf with
            | String c s' => atom i a c && k' (Some c) s'
            | EmptyString => false
            end = true).
  { intros a s prev k k' Hk. destruct s as [|c s']; [discriminate|].
    rewrite app_cons, !andb_true_iff. intros [Ha Hc]. split; [exact Ha|].
    now apply Hk. }
  induction r as [c|cs| | | | | |r1 IH1 r2 IH2|r1 IH1 r2 IH2|r1 IH1];
    simpl; intros prev s k k' Hk.
  - now apply (Hstep (Chr c) s prev).
  - now apply (Hstep (Cls cs) s prev).
  - now apply (Hstep Spc s prev).
  - now apply (Hstep Dot s prev).
  - rewrite !andb_true_iff. intros [Hx Hc]. split; [|now apply Hk].
    destruct s as [|c s']; [|exact Hx].
    rewrite app_nil_l, Hsuf. exact Hx.
  - destruct prev; [discriminate | apply Hk].
  - apply Hk.
  - apply IH1. intros p t. now apply IH2.
  - rewrite !orb_true_iff.
    intros [H|H]; [left; now apply (IH1 _ _ k) | right; now apply (IH2 _ _ k)].
  - apply star_loop_suffix; [|exact Hk|rewrite app_length; lia].
    intros p t c c' Hc. now apply IH1.
Qed.

Lemma search_suffix (i : bool) (suf : string) (r : regex) :
  is_word_opt (next_char suf) = false ->
  forall s prev, search i r prev s = true -> search i r prev (s +:+ suf) = true.
Proof.
  intros Hsuf s. induction s as [|a s IH]; intros prev.
  - simpl. rewrite orb_false_r. intros H. rewrite app_nil_l.
    assert (Hm : m i r prev (EmptyString +:+ suf) (fun _ _ => true) = true)
      by (revert H; apply m_suffix; [exact Hsuf | now intros p t _]).
    rewrite app_nil_l in Hm. destruct suf; simpl; now rewrite Hm.
  - rewrite app_cons. simpl. rewrite !orb_true_iff. intros [H|H].
    + left. rewrite <- app_cons. revert H.
      apply m_suffix; [exact Hsuf | now intros p t _].
    + right. now apply IH.
Qed.

(** An unanchored pattern looks at the character before the input only
    through the word boundary. *)
Lemma m_change_prev (i : bool) (r : regex) :
  unanchored r = true ->
  forall p q s k k',
    is_word_opt p = is_word_opt q ->
    (forall x t, k x t = true -> k' x t = true) ->
    (forall t, k p t = true -> k' q t = true) ->
    m i r p s k = true -> m i r q s k' = true.
Proof.
  induction r as [c|cs| | | | | |r1 IH1 r2 IH2|r1 IH1 r2 IH2|r1 IH1];
    simpl; intros Hu p q s k k' Hpq Hall Hk;
    try (destruct s as [|a s']; [discriminate|];
         rewrite !andb_true_iff; intros [Ha Hc]; split; [exact Ha | now apply Hall]).
  - rewrite Hpq, !andb_true_iff. intros [Hx Hc]. split; [exact Hx | now apply Hk].
  - discriminate.
  - apply Hk.
  - apply andb_true_iff in Hu as [H1 H2]. apply (IH1 H1); [exact Hpq | |].
    + intros x t. apply (IH2 H2 x x); [reflexivity | exact Hall | apply Hall].
    + intros t. now apply (IH2 H2).
  - apply andb_true_iff in Hu as [H1 H2]. rewrite !orb_true_iff.
    intros [H|H]; [left; now apply (IH1 H1 p q s k) | right; now apply (IH2 H2 p q s k)].
  - generalize (String.length s) as fuel. intros fuel. revert p q s Hpq Hk.
    induction fuel as [|fuel IHf]; intros p q s Hpq Hk; simpl; [apply Hk|].
    rewrite !orb_true_iff. intros [H|H]; [left | right; now apply Hk].
    revert H. apply (IH1 Hu); [exact Hpq | |].
    + intros x t. rewrite !andb_true_iff. intros [Hlt Hl]. split; [exact Hlt|].
      revert Hl. apply IHf; [reflexivity | apply Hall].
    + intros t. rewrite !andb_true_iff. intros [Hlt Hl]. split; [exact Hlt|].
      revert Hl. now apply IHf.
Qed.

Lemma search_change_prev (i : bool) (r : regex) (p q : option ascii) (s : string) :
  unanchored r = true -> is_word_opt p = is_word_opt q ->
  search i r p s = true -> search i r q s = true.
Proof.
  intros Hu Hpq. destruct s as [|a s]; simpl; rewrite !orb_true_iff;
    (intros [H|H]; [left | now right]);
    revert H; apply (m_change_prev i r Hu p q); auto.
Qed.

Lemma search_prefix (i : bool) (r : regex) (s : string) :
  unanchored r = true ->
  forall pre p,
    is_word_opt (char_before p pre) = false ->
    search i r None s = true -> search i r p (pre +:+ s) = true.
Proof.
  intros Hu pre. induction pre as [|c pre IH]; intros p Hb Hs.
  - rewrite app_nil_l. revert Hs. apply search_change_prev; [exact Hu|].
    simpl in Hb. now rewrite Hb.
  - rewrite app_cons. simpl. rewrite (IH (Some c) Hb Hs). apply orb_true_r.
Qed.

(** A match of an unanchored pattern stays a match when text is put before
    and after the input, as long as the text before does not end, and the
    text after does not start, with a word character. *)
Lemma test_embedded (pattern : RegExp) (pre s suf : string) :
  unanchored (source pattern) = true ->
  is_word_opt (char_before None pre) = false ->
  is_word_opt (next_char suf) = false ->
  test pattern s = true -> test pattern (pre +:+ s +:+ suf) = true.
Proof.
  intros Hu Hpre Hsuf Ht. unfold test in *.
  apply search_prefix; [exact Hu | exact Hpre|].
  now apply search_suffix.
Qed.

Lemma toLowerCase_app (a b : string) :
  toLowerCase (a +:+ b) = toLowerCase a +:+ toLowerCase b.
Proof.
  induction a as [|c a IH]; [reflexivity|].
  rewrite app_cons. simpl. now rewrite IH.
Qed.

Lemma char_before_lower (p : option ascii) (pre : string) :
  is_word_opt (char_before (lower_opt p) (toLowerCase pre))
  = is_word_opt (char_before p pre).
Proof.
  revert p. induction pre as [|c pre IH]; intros p; simpl.
  - apply is_word_opt_lower.
  - apply (IH (Some c)).
Qed.

End RegexMore.

(* ===================================================================== *)
(** * More of tools/shell.ts *)
(* ===================================================================== *)

Module ShellMore.
Import JsString Regex RegexMore Js Shell.

Lemma default_patterns_unanchored (pattern : RegExp) :
  In pattern DEFAULT_DENY_PATTERNS -> unanchored (source pattern) = true.
Proof.
  assert (H : forallb (fun p => unanchored (source p)) DEFAULT_DENY_PATTERNS = true)
    by (vm_compute; reflexivity).
  rewrite forallb_forall in H. apply H.
Qed.

Lemma deny_loop_inv (patterns : list RegExp) (lower msg : string) :
  deny_loop patterns lower = Some msg ->
  exists pattern, In pattern patterns /\ test pattern lower = true.
Proof.
  induction patterns as [|q rest IH]; simpl; [discriminate|].
  destruct (test q lower) eqn:Hq.
  - intros _. exists q. split; [now left | exact Hq].
  - intros H. destruct (IH H) as [p [Hin Hp]]. exists p. split; [now right | exact Hp].
Qed.

(** A command below U+0100 that the guard of a tool with the default
    patterns blocks is still blocked as a part of a longer one, when the
    text before it does not end, and the text after it does not start,
    with a letter, a digit or an underscore. *)
Lemma chained_command_blocked (t : ExecTool) (cmd pre suf : string) :
  denyPatterns t = DEFAULT_DENY_PATTERNS ->
  guardCommand t cmd <> None ->
  is_word_opt (char_before None pre) = false ->
  is_word_opt (next_char suf) = false ->
  exists msg, guardCommand t (pre +:+ cmd +:+ suf) = Some msg.
Proof.
  intros Hp Hblocked Hpre Hsuf.
  unfold guardCommand in *. rewrite Hp in *.
  destruct (deny_loop DEFAULT_DENY_PATTERNS (toLowerCase cmd)) as [b|] eqn:Hd.
  - destruct (deny_loop_inv _ _ _ Hd) as [pattern [Hin Ht]].
    rewrite (deny_loop_hit _ _ pattern Hin); [eauto|].
    rewrite !toLowerCase_app.
    apply test_embedded; [now apply default_patterns_unanchored | | | exact Ht].
    + rewrite <- Hpre. apply (char_before_lower None).
    + rewrite next_char_lower, is_word_opt_lower. exact Hsuf.
  - destruct (deny_loop _ (toLowerCase (pre +:+ cmd +:+ suf))); [eauto|].
    destruct (restrictToWorkspace t); [|contradiction].
    cbn [andb] in *.
    destruct (includes cmd "../" || includes cmd (".." +:+ backslash)) eqn:Hi;
      [|contradiction].
    apply orb_true_iff in Hi.
    assert (Hi' : includes (pre +:+ cmd +:+ suf) "../"
                  || includes (pre +:+ cmd +:+ suf) (".." +:+ backslash) = true).
    { apply orb_true_iff.
      destruct Hi as [Hi|Hi]; [left | right];
        now apply includes_app_r, includes_app_l. }
    rewrite Hi'. eauto.
Qed.

Lemma take_length (n : nat) (s : string) : String.length (take n s) <= n.
Proof.
  revert s. induction n as [|n IH]; intros s; [simpl; lia|].
  destruct s as [|c s]; simpl; [lia|]. specialize (IH s). lia.
Qed.

Lemma render_not_blank (r : ProcResult) : all_space (render r) = false.
Proof.
  destruct (truthy (trim (stderr r))) eqn:He.
  - rewrite (render_with_stderr r He), all_space_app.
    change (all_space ("STDERR:" +:+ nl +:+ stderr r)) with false.
    apply andb_false_r.
  - rewrite (render_without_stderr r He), all_space_app.
    destruct (truthy (trim (stdout r))) eqn:Ho.
    + rewrite trim_truthy in Ho. apply negb_true_iff in Ho. now rewrite Ho.
    + reflexivity.
Qed.

(** X4.  The answer of [execute] is never blank, whatever the guard says and
    whatever the process does; for a process that has run to its end it
    has at most 10,016 characters (the limit and the
    marker). *)
Theorem exec_answer_bounded
  (spawn : string -> string -> Completion ProcResult)
  (t : ExecTool) (params : ExecParams) :
  truthy (trim (fst (execute spawn t params))) = true /\
  (forall r,
     spawn (default (workingDir t) (working_dir params)) (command params)
     = Normal r ->
     String.length (fst (execute spawn t params)) <= MAX_OUTPUT + 16).
Proof.
  split.
  - rewrite trim_truthy. apply negb_true_iff. unfold execute.
    destruct (guardCommand t (command params)) as [blocked|] eqn:Hg.
    + simpl. unfold guardCommand in Hg.
      destruct (deny_loop _ _) as [b|] eqn:Hd.
      * injection Hg as <-. now rewrite (deny_loop_msg _ _ _ Hd).
      * destruct (_ && _); [injection Hg as <-; reflexivity | discriminate].
    + destruct (spawn _ _) as [r|err]; simpl; [|reflexivity].
      unfold format_output, truncate.
      destruct (MAX_OUTPUT <? String.length (render r))%nat.
      * rewrite all_space_app.
        change (all_space truncated_marker) with false. apply andb_false_r.
      * apply render_not_blank.
  - intros r Hs. unfold execute.
    destruct (guardCommand t (command params)) as [blocked|] eqn:Hg.
    + cbn [fst]. unfold guardCommand in Hg.
      destruct (deny_loop _ _) as [b|] eqn:Hd.
      * injection Hg as <-. rewrite (deny_loop_msg _ _ _ Hd).
        apply Nat.leb_le. vm_compute. reflexivity.
      * destruct (_ && _); [injection Hg as <-|discriminate].
        apply Nat.leb_le. vm_compute. reflexivity.
    + rewrite Hs. cbn [fst]. unfold format_output, truncate.
      destruct (MAX_OUTPUT <? String.length (render r))%nat eqn:E.
      * rewrite app_length. pose proof (take_length MAX_OUTPUT (render r)).
        change (String.length truncated_marker) with 16. lia.
      * apply Nat.ltb_ge in E. lia.
Qed.

End ShellMore.

Module ExecGuardMore.
Import JsString Regex RegexMore Js Utf16 ExecGuard.

Lemma last_of_string (pre : string) :
  forall p, from_option Some (code_opt p) (last (of_string pre))
            = code_opt (char_before p pre).
Proof.
  induction pre as [|c pre IH]; intros p; [reflexivity|].
  cbn [of_string char_before]. rewrite last_cons, <- (IH (Some c)).
  now destruct (last (of_string pre)).
Qed.

(** X3.  A command the guard of a tool with the default patterns blocks is
    still blocked as a part of a longer command line of code units below
    U+0100, when the text before it does not end, and the text after it
    does not start, with a letter, a digit or an underscore; the shell is
    not invoked.  [toLowerCase] is taken for what it is on the code units
    below U+0100. *)
Theorem guard_survives_chaining
  (toLowerCase : wstring -> wstring)
  (spawn : string -> wstring -> Completion Shell.ProcResult)
  (t : Shell.ExecTool) (cmd pre suf : wstring) (wd : option string) :
  (forall s, latin1 s -> toLowerCase s = map lower_latin1 s) ->
  latin1 pre -> latin1 cmd -> latin1 suf ->
  Shell.denyPatterns t = Shell.DEFAULT_DENY_PATTERNS ->
  guardCommand toLowerCase t cmd <> None ->
  word_unit_opt (last pre) = false ->
  word_unit_opt (head suf) = false ->
  exists msg,
    guardCommand toLowerCase t (pre ++ cmd ++ suf) = Some msg /\
    execute toLowerCase spawn t (mkExecParams (pre ++ cmd ++ suf) wd) = (msg, []).
Proof.
  intros Hlower Hpre Hcmd Hsuf Hp Hblocked Hbefore Hafter.
  destruct (latin1_of_string pre Hpre) as [pre' ->].
  destruct (latin1_of_string cmd Hcmd) as [cmd' ->].
  destruct (latin1_of_string suf Hsuf) as [suf' ->].
  rewrite <- !of_string_app.
  rewrite (guardCommand_of_string toLowerCase t cmd' Hlower) in Hblocked.
  rewrite (guardCommand_of_string toLowerCase t (pre' +:+ cmd' +:+ suf') Hlower).
  destruct (ShellMore.chained_command_blocked t cmd' pre' suf' Hp Hblocked)
    as [msg Hg].
  - rewrite <- word_unit_opt_code, <- (last_of_string pre' None).
    now destruct (last (of_string pre')).
  - now rewrite <- word_unit_opt_code, <- head_of_string.
  - exists msg. split; [exact Hg|]. unfold execute. cbn [command].
    now rewrite (guardCommand_of_string toLowerCase t _ Hlower), Hg.
Qed.

Lemma guard_survives_chaining_witness :
  exists msg,
    guardCommand lower_known (Shell.new_ExecTool Shell.no_options "/home/robun")
      (of_string "echo hi; " ++ of_string "rm -rf /" ++ of_string " && echo done")
    = Some msg /\
    execute lower_known (fun _ _ => Throw (JsError "spawn failed"))
      (Shell.new_ExecTool Shell.no_options "/home/robun")
      (mkExecParams
         (of_string "echo hi; " ++ of_string "rm -rf /"
          ++ of_string " && echo done") None)
    = (msg, []).
Proof.
  apply (guard_survives_chaining lower_known
           (fun _ _ => Throw (JsError "spawn failed"))
           (Shell.new_ExecTool Shell.no_options "/home/robun")
           (of_string "rm -rf /") (of_string "echo hi; ")
           (of_string " && echo done") None lower_known_latin1).
  - apply of_string_latin1.
  - apply of_string_latin1.
  - apply of_string_latin1.
  - reflexivity.
  - vm_compute. discriminate.
  - reflexivity.
  - reflexivity.
Defined.

End ExecGuardMore.

(* ===================================================================== *)
(** * More of node:path: resolve *)
(* ===================================================================== *)

Module PathMore.
Import JsString NodePath.

(** A component of a normalized path: a segment other than "." and "..". *)
Definition plain (seg : string) : Prop :=
  is_segment seg /\ seg <> "." /\ seg <> "..".

(** A normalized absolute path, as [process.cwd()] returns one. *)
Definition normalized (p : string) : Prop := Forall plain (segments p).

Lemma normalize_plain (segs : list string) :
  Forall is_segment segs ->
  forall stack, Forall plain stack -> Forall plain (normalize stack segs).
Proof.
  unfold normalize. induction segs as [|seg rest IH]; intros Hs stack Hst;
    [exact Hst|].
  apply Forall_cons in Hs as [Hseg Hrest]. simpl.
  destruct (String.eqb seg ".") eqn:E1; [now apply IH|].
  destruct (String.eqb seg "..") eqn:E2.
  - destruct stack as [|top below]; [now apply IH|].
    apply Forall_cons in Hst as [Htop Hbelow].
    destruct (String.eqb top ".."); apply IH; trivial; now constructor.
  - apply IH; [exact Hrest|]. constructor; [|exact Hst].
    apply String.eqb_neq in E1, E2. split; [exact Hseg | now split].
Qed.

Lemma normalize_plain_id (segs : list string) :
  Forall plain segs ->
  forall stack, normalize stack segs = rev segs ++ stack.
Proof.
  unfold normalize. induction segs as [|seg rest IH]; intros Hs stack;
    [reflexivity|].
  apply Forall_cons in Hs as [[_ [H1 H2]] Hrest]. simpl.
  apply String.eqb_neq in H1, H2. rewrite H1, H2, (IH Hrest).
  now rewrite <- List.app_assoc.
Qed.

Lemma plain_segments (l : list string) : Forall plain l -> Forall is_segment l.
Proof. intros H. eapply Forall_impl; [exact H|]. now intros seg [Hs _]. Qed.

Lemma resolve_plain (cwd p : string) :
  normalized cwd -> Forall plain (rev (normalize
    (if startsWith p "/" then [] else rev (segments cwd)) (segments p))).
Proof.
  intros Hc. apply Forall_rev, normalize_plain; [apply segments_are_segments|].
  destruct (startsWith p "/"); [constructor | now apply Forall_rev].
Qed.

Lemma of_segments_absolute (l : list string) :
  startsWith (of_segments l) "/" = true.
Proof.
  unfold of_segments. rewrite app_cons, app_nil_l. unfold startsWith.
  destruct (join "/" l); reflexivity.
Qed.

(** X5.  [resolve] answers with a normalized absolute path, and resolving such a
    path again changes nothing. *)
Theorem resolve_normalizes (cwd p : string) :
  normalized cwd ->
  startsWith (resolve cwd p) "/" = true /\
  normalized (resolve cwd p) /\
  resolve cwd (resolve cwd p) = resolve cwd p.
Proof.
  intros Hc. pose proof (resolve_plain cwd p Hc) as Hl.
  unfold resolve at 1 2 4 5, normalized.
  set (l := rev (normalize (if startsWith p "/" then [] else rev (segments cwd))
                   (segments p))) in *.
  split; [apply of_segments_absolute|].
  rewrite (segments_of_segments l (plain_segments l Hl)).
  split; [exact Hl|].
  unfold resolve. rewrite of_segments_absolute.
  rewrite (segments_of_segments l (plain_segments l Hl)).
  rewrite (normalize_plain_id l Hl), List.app_nil_r. now rewrite rev_involutive.
Qed.

Lemma resolve_normalizes_witness :
  startsWith (resolve "/home/robun" "ws/../../etc/./passwd") "/" = true /\
  normalized (resolve "/home/robun" "ws/../../etc/./passwd") /\
  resolve "/home/robun" (resolve "/home/robun" "ws/../../etc/./passwd")
  = resolve "/home/robun" "ws/../../etc/./passwd".
Proof.
  apply (resolve_normalizes "/home/robun" "ws/../../etc/./passwd").
  unfold normalized. vm_compute.
  repeat constructor; discriminate.
Defined.

End PathMore.

(* ===================================================================== *)
(** * More of the file tools: containment, read_file, what is left alone *)
(* ===================================================================== *)

Module StringMore.
Import JsString.

Lemma prefix_nil (s : string) : String.prefix "" s = true.
Proof. destruct s; reflexivity. Qed.

Lemma prefix_cons (c d : ascii) (a b : string) :
  String.prefix (String c a) (String d b)
  = if ascii_dec c d then String.prefix a b else false.
Proof. reflexivity. Qed.

Lemma prefix_app_self (a b : string) : String.prefix a (a +:+ b) = true.
Proof.
  induction a as [|c a IH]; [rewrite app_nil_l; apply prefix_nil|].
  rewrite app_cons, prefix_cons. destruct (ascii_dec c c); [exact IH | congruence].
Qed.

Lemma prefix_split (a s : string) :
  String.prefix a s = true -> exists b, s = a +:+ b.
Proof.
  revert s. induction a as [|c a IH]; intros s H.
  - exists s. now rewrite app_nil_l.
  - destruct s as [|d s]; [discriminate|]. rewrite prefix_cons in H.
    destruct (ascii_dec c d) as [<-|]; [|discriminate].
    destruct (IH _ H) as [b ->]. exists b. now rewrite app_cons.
Qed.

Lemma prefix_first (c : ascii) (a s : string) :
  String.prefix (String c a) s = true -> exists rest, s = String c rest.
Proof.
  intros H. destruct (prefix_split _ _ H) as [b ->]. rewrite app_cons. eauto.
Qed.

End StringMore.

Module FilesystemMore.
Import JsString Js NodePath NodeFs Filesystem PathMore StringMore.

(** ** resolvePath *)

Lemma split_on_sep_app (sep : ascii) (a b : string) :
  split_on sep (a +:+ String sep b) = split_on sep a ++ split_on sep b.
Proof.
  induction a as [|c a IH].
  - rewrite app_nil_l. cbn [split_on]. now rewrite Ascii.eqb_refl.
  - rewrite app_cons. cbn [split_on]. rewrite IH.
    destruct (Ascii.eqb c sep); [reflexivity|].
    destruct (split_on_cons sep a) as [piece [rest ->]]. reflexivity.
Qed.

Lemma segments_app_slash (a b : string) :
  segments (a +:+ "/" +:+ b) = segments a ++ segments b.
Proof.
  unfold segments. rewrite (app_cons "/" "" b), app_nil_l, split_on_sep_app.
  apply filter_app.
Qed.

Lemma join_app (l k : list string) :
  l <> [] -> k <> [] ->
  join "/" (l ++ k) = join "/" l +:+ "/" +:+ join "/" k.
Proof.
  intros Hl Hk. induction l as [|x [|y l] IH]; [contradiction| |].
  - destruct k as [|z k]; [contradiction | reflexivity].
  - change (join "/" ((x :: y :: l) ++ k))
      with (x +:+ "/" +:+ join "/" ((y :: l) ++ k)).
    rewrite IH by discriminate.
    change (join "/" (x :: y :: l)) with (x +:+ "/" +:+ join "/" (y :: l)).
    now rewrite <- !app_assoc.
Qed.

Lemma normalizeString_segments (allowAbove : bool) (segs : list string) :
  Forall is_segment segs ->
  forall stack, Forall is_segment stack ->
    Forall is_segment (normalizeString allowAbove stack segs).
Proof.
  induction segs as [|seg rest IH]; intros Hs stack Hst; [exact Hst|].
  apply Forall_cons in Hs as [Hseg Hrest]. simpl.
  destruct (String.eqb seg "."); [now apply IH|].
  destruct (String.eqb seg "..").
  - destruct stack as [|top below].
    + apply IH; [exact Hrest|].
      destruct allowAbove; [constructor; [exact Hseg|] |]; constructor.
    + pose proof Hst as Hst'. apply Forall_cons in Hst' as [Htop Hbelow].
      destruct (String.eqb top ".."); apply IH; trivial.
      destruct allowAbove; [now constructor | exact Hst].
  - apply IH; [exact Hrest | now constructor].
Qed.

(** What [resolve] answers is put together from path components. *)
Lemma resolve_segments (cwd p : string) :
  exists l, Forall is_segment l /\ resolve cwd p = of_segments l /\
            segments (resolve cwd p) = l.
Proof.
  unfold resolve.
  set (l := rev (normalize (if startsWith p "/" then [] else rev (segments cwd))
                   (segments p))).
  assert (Hl : Forall is_segment l).
  { apply Forall_rev, normalizeString_segments; [apply segments_are_segments|].
    destruct (startsWith p "/"); [constructor|].
    apply Forall_rev, segments_are_segments. }
  exists l. split; [exact Hl|]. split; [reflexivity|].
  now apply segments_of_segments.
Qed.

Lemma of_segments_no_double_slash (l : list string) :
  Forall is_segment l -> startsWith (of_segments l) "//" = false.
Proof.
  intros Hl. unfold of_segments, startsWith. rewrite app_cons, app_nil_l.
  rewrite prefix_cons. destruct (ascii_dec "/" "/"); [|reflexivity].
  destruct (String.prefix "/" (join "/" l)) eqn:Hp; [|reflexivity].
  apply prefix_first in Hp as [rest Hp].
  destruct l as [|x l]; [discriminate|].
  apply Forall_cons in Hl as [[Ht Hx] _].
  destruct x as [|c x]; [discriminate|].
  assert (Hc : c = "/"%char).
  { destruct l; cbn [join] in Hp; [|rewrite app_cons in Hp]; congruence. }
  subst c. cbn [has_char] in Hx. now rewrite Ascii.eqb_refl in Hx.
Qed.

(** X6.  With a workspace set, [resolvePath] accepts a path exactly when its
    components extend those of the workspace, and throws "Access denied"
    otherwise; with the root as workspace it accepts the root alone. *)
Theorem resolvePath_contains (cwd path dir : string) :
  truthy dir = true ->
  (forall r, resolvePath cwd path (Some dir) = Normal r ->
     r = resolve cwd path /\
     exists rest, segments r = segments (resolve cwd dir) ++ rest) /\
  (segments (resolve cwd dir) <> [] ->
   (exists rest,
      segments (resolve cwd path) = segments (resolve cwd dir) ++ rest) ->
   resolvePath cwd path (Some dir) = Normal (resolve cwd path)) /\
  (segments (resolve cwd dir) = [] ->
   segments (resolve cwd path) <> [] ->
   resolvePath cwd path (Some dir)
   = Throw (JsError ("Access denied: path '" +:+ path
                     +:+ "' is outside workspace"))).
Proof.
  intros Hd. unfold resolvePath. rewrite Hd.
  destruct (resolve_segments cwd path) as [lr [Hlr [Er Sr]]].
  destruct (resolve_segments cwd dir) as [la [Hla [Ea Sa]]].
  rewrite Sr, Sa. split; [|split].
  - intros r H.
    destruct (startsWith (resolve cwd path) (resolve cwd dir +:+ "/")) eqn:Hp.
    + cbn in H. injection H as <-. split; [reflexivity|].
      apply prefix_split in Hp as [b Hp]. rewrite <- app_assoc in Hp.
      exists (segments b). now rewrite <- Sa, Hp, segments_app_slash.
    + destruct (String.eqb_spec (resolve cwd path) (resolve cwd dir)) as [E|];
        [|discriminate]. cbn in H. injection H as <-. split; [reflexivity|].
      exists []. now rewrite List.app_nil_r, E.
  - intros Hne [rest Hrest]. rewrite Hrest in Er. destruct rest as [|x rest].
    + rewrite List.app_nil_r in Er. rewrite Er, Ea, String.eqb_refl.
      now rewrite andb_false_r.
    + rewrite Er, Ea. unfold of_segments. rewrite join_app by (trivial; discriminate).
      unfold startsWith.
      replace ("/" +:+ join "/" la +:+ "/" +:+ join "/" (x :: rest))
        with (("/" +:+ join "/" la +:+ "/") +:+ join "/" (x :: rest))
        by (now rewrite <- !app_assoc).
      now rewrite prefix_app_self.
  - intros -> Hne. rewrite Er, Ea.
    change (of_segments [] +:+ "/") with "//".
    rewrite (of_segments_no_double_slash lr Hlr).
    destruct (String.eqb_spec (of_segments lr) (of_segments [])) as [E|];
      [|reflexivity].
    exfalso. apply Hne. rewrite <- (segments_of_segments lr Hlr), E. reflexivity.
Qed.

Lemma resolvePath_contains_witness :
  (forall r, resolvePath "/home/robun" "ws/a/../b.txt" (Some "ws") = Normal r ->
     r = resolve "/home/robun" "ws/a/../b.txt" /\
     exists rest, segments r = segments (resolve "/home/robun" "ws") ++ rest) /\
  (segments (resolve "/home/robun" "ws") <> [] ->
   (exists rest,
      segments (resolve "/home/robun" "ws/a/../b.txt")
      = segments (resolve "/home/robun" "ws") ++ rest) ->
   resolvePath "/home/robun" "ws/a/../b.txt" (Some "ws")
   = Normal (resolve "/home/robun" "ws/a/../b.txt")) /\
  (segments (resolve "/home/robun" "ws") = [] ->
   segments (resolve "/home/robun" "ws/a/../b.txt") <> [] ->
   resolvePath "/home/robun" "ws/a/../b.txt" (Some "ws")
   = Throw (JsError ("Access denied: path '" +:+ "ws/a/../b.txt"
                     +:+ "' is outside workspace"))).
Proof.
  apply (resolvePath_contains "/home/robun" "ws/a/../b.txt" "ws"). reflexivity.
Defined.

(** ** read_file *)

Record ReadParams : Type := mkReadParams { r_path : string }.

(** [statSync(p).isFile()] *)
Definition statSync_isFile (fs : FS) (p : string) : Completion bool :=
  match node_at fs p with
  | Some (File _) => Normal true
  | Some Dir => Normal false
  | None =>
      Throw (JsError ("ENOENT: no such file or directory, stat '" +:+ p +:+ "'"))
  end.

(** [ReadFileTool.execute] *)
Definition read_file (t : FileTool) (params : ReadParams) (fs : FS) : string :=
  match resolvePath (cwd t) (r_path params) (allowedDir t) with
  | Throw err => "Error: " +:+ describe err
  | Normal resolved =>
      if negb (existsSync fs resolved)
      then "Error: File not found: " +:+ r_path params
      else
        match statSync_isFile fs resolved with
        | Throw err => "Error: " +:+ describe err
        | Normal isFile =>
            if negb isFile then "Error: Not a file: " +:+ r_path params
            else match readFileSync fs resolved with
                 | Throw err => "Error: " +:+ describe err
                 | Normal content => content
                 end
        end
  end.

Lemma read_file_content (t : FileTool) (path resolved content : string) (fs : FS) :
  resolvePath (cwd t) path (allowedDir t) = Normal resolved ->
  node_at fs resolved = Some (File content) ->
  read_file t (mkReadParams path) fs = content.
Proof.
  intros Hr Hn. unfold read_file, existsSync, statSync_isFile, readFileSync.
  cbn [r_path]. now rewrite Hr, Hn.
Qed.

Lemma error_is_no_success (x : string) :
  startsWith ("Error: " +:+ x) "Successfully" = false.
Proof. reflexivity. Qed.

Lemma warning_is_no_success (x : string) :
  startsWith ("Warning: old_text appears " +:+ x) "Successfully" = false.
Proof. reflexivity. Qed.

Lemma node_at_insert (fs : FS) (p : string) (n : Node) :
  node_at fs p <> Some Dir -> node_at (<[p := n]> fs) p = Some n.
Proof.
  unfold node_at. destruct (String.eqb p "/"); [congruence|].
  intros _. apply lookup_insert_eq.
Qed.

(** X7.  When [write_file] reports success, [read_file] with the same tool
    settings answers the content written, whatever it is. *)
Theorem read_after_write (t : FileTool) (path content : string) (fs : FS) :
  startsWith (fst (write_file t (mkWriteParams path content) fs)) "Successfully"
  = true ->
  read_file t (mkReadParams path)
    (snd (write_file t (mkWriteParams path content) fs)) = content.
Proof.
  unfold write_file. cbn [w_path w_content].
  destruct (resolvePath (cwd t) path (allowedDir t)) as [resolved|err] eqn:Hr;
    [|cbn [fst]; now rewrite error_is_no_success].
  destruct (mkdirSync_recursive fs (dirname resolved)) as [fs1|err] eqn:Hm;
    [|cbn [fst]; now rewrite error_is_no_success].
  unfold writeFileSync.
  destruct (node_at fs1 (dirname resolved)) as [[|c]|];
    try (cbn [fst]; now rewrite error_is_no_success).
  destruct (node_at fs1 resolved) as [[|c]|] eqn:Hn;
    try (cbn [fst]; now rewrite error_is_no_success);
    intros _; cbn [snd]; apply (read_file_content t path resolved); trivial;
    apply node_at_insert; congruence.
Qed.

Lemma read_after_write_witness :
  read_file a_tool (mkReadParams "/tmp/deep/nested/file.txt")
    (snd (write_file a_tool
            (mkWriteParams "/tmp/deep/nested/file.txt" "Error: not one") a_disk))
  = "Error: not one".
Proof.
  apply (read_after_write a_tool "/tmp/deep/nested/file.txt" "Error: not one" a_disk).
  vm_compute. reflexivity.
Defined.

(** ** What the tools leave alone *)

Lemma mkdir_walk_frame (segs : list string) :
  forall (fs fs' : FS) (at_ : string),
    mkdir_walk fs at_ segs = Normal fs' ->
    forall q, fs' !! q = fs !! q \/ (fs !! q = None /\ fs' !! q = Some Dir).
Proof.
  induction segs as [|seg rest IH]; intros fs fs' at_ Hw q.
  - injection Hw as <-. now left.
  - cbn [mkdir_walk] in Hw.
    destruct (fs !! (at_ +:+ "/" +:+ seg)) as [[|c]|] eqn:Hp; [| discriminate |].
    + now apply (IH _ _ _ Hw).
    + destruct (IH _ _ _ Hw q) as [E|[E1 E2]].
      * destruct (decide (q = at_ +:+ "/" +:+ seg)) as [->|Hq].
        -- right. rewrite E, lookup_insert_eq. now split.
        -- left. now rewrite E, lookup_insert_ne.
      * destruct (decide (q = at_ +:+ "/" +:+ seg)) as [->|Hq].
        -- now rewrite lookup_insert_eq in E1.
        -- right. rewrite lookup_insert_ne in E1 by congruence. now split.
Qed.

(** X8.  [write_file] sets the one file it is given and makes directories that
    were missing; every other entry of the file system is as it was. *)
Theorem write_file_keeps_the_rest (t : FileTool) (params : WriteParams) (fs : FS)
  (q : string) :
  q = resolve (cwd t) (w_path params) \/
  snd (write_file t params fs) !! q = fs !! q \/
  (fs !! q = None /\ snd (write_file t params fs) !! q = Some Dir).
Proof.
  unfold write_file.
  destruct (resolvePath (cwd t) (w_path params) (allowedDir t))
    as [resolved|err] eqn:Hr; [|right; now left].
  assert (resolved = resolve (cwd t) (w_path params)) as <-.
  { unfold resolvePath in Hr.
    destruct (allowedDir t) as [dir|]; [destruct (truthy dir)|];
      try destruct (_ && _); congruence. }
  destruct (mkdirSync_recursive fs (dirname resolved)) as [fs1|err] eqn:Hm;
    [|right; now left].
  pose proof (mkdir_walk_frame _ _ _ _ Hm q) as Hq.
  destruct (writeFileSync fs1 resolved (w_content params)) as [fs2|err] eqn:Hw;
    cbn [snd]; [|now right].
  unfold writeFileSync in Hw.
  destruct (node_at fs1 (dirname resolved)) as [[|c]|]; try discriminate.
  destruct (decide (q = resolved)) as [->|Hne]; [now left|]. right.
  destruct (node_at fs1 resolved) as [[|c]|]; try discriminate;
    injection Hw as <-; now rewrite lookup_insert_ne by congruence.
Qed.

Lemma includes_split_matches (sep s : string) :
  truthy sep = true -> includes s sep = true -> 1 <= split_matches sep 0 s.
Proof.
  intros Ht. induction s as [|c s IH]; intros Hi.
  - destruct sep; discriminate.
  - cbn [includes split_matches] in *.
    destruct (String.prefix sep (String c s)); [lia | now apply IH].
Qed.

(** X9.  [edit_file] changes nothing but the text of the file it is given, and
    only where that file is there; when it reports success, the file holds
    what [replace] made of its text, [read_file] answers that text, and
    [split] has counted one match of a non-empty [old_text]. *)
Theorem edit_file_touches_one_file (t : FileTool) (params : EditParams) (fs : FS) :
  (forall q, q = resolve (cwd t) (e_path params) \/
             snd (edit_file t params fs) !! q = fs !! q) /\
  (content_at fs (resolve (cwd t) (e_path params)) = None ->
   snd (edit_file t params fs) = fs) /\
  (startsWith (fst (edit_file t params fs)) "Successfully" = true ->
   exists content,
     content_at fs (resolve (cwd t) (e_path params)) = Some content /\
     includes content (old_text params) = true /\
     (truthy (old_text params) = true ->
      split_matches (old_text params) 0 content = 1) /\
     snd (edit_file t params fs)
     = <[resolve (cwd t) (e_path params) :=
          File (replace content (old_text params) (new_text params))]> fs /\
     read_file t (mkReadParams (e_path params)) (snd (edit_file t params fs))
     = replace content (old_text params) (new_text params)).
Proof.
  unfold edit_file.
  destruct (resolvePath (cwd t) (e_path params) (allowedDir t))
    as [resolved|err] eqn:Hr;
    [|cbn [fst snd]; rewrite error_is_no_success; repeat split; auto; discriminate].
  assert (resolved = resolve (cwd t) (e_path params)) as <-.
  { unfold resolvePath in Hr.
    destruct (allowedDir t) as [dir|]; [destruct (truthy dir)|];
      try destruct (_ && _); congruence. }
  unfold existsSync, readFileSync, content_at.
  destruct (node_at fs resolved) as [[|content]|] eqn:Hn; cbn [negb fst snd];
    try (repeat split; auto; discriminate).
  destruct (includes content (old_text params)) eqn:Hi; cbn [negb fst snd];
    [|repeat split; auto; discriminate].
  destruct (1 <? Z.of_nat (split_length content (old_text params)) - 1)%Z eqn:Hc;
    cbn [fst snd];
    [rewrite warning_is_no_success; repeat split; auto; discriminate|].
  unfold writeFileSync. rewrite Hn.
  destruct (node_at fs (dirname resolved)) as [[|c]|]; cbn [fst snd];
    try (rewrite error_is_no_success; repeat split; auto; discriminate).
  split; [|split; [discriminate|]].
  - intros q. destruct (decide (q = resolved)) as [->|Hne]; [now left|].
    right. now rewrite lookup_insert_ne by congruence.
  - intros _. exists content. repeat split; trivial.
    + intros Ht. pose proof (includes_split_matches _ _ Ht Hi).
      apply Z.ltb_ge in Hc. unfold split_length in Hc.
      destruct (old_text params); [discriminate | lia].
    + apply (read_file_content t _ resolved); [exact Hr|].
      apply node_at_insert. congruence.
Qed.

End FilesystemMore.

(* ===================================================================== *)
(** * More of the cron service: the timer, the public methods *)
(* ===================================================================== *)

Module CronMore.
Import JsString Js Cron.

(** ** getNextWakeMs *)

(** The test of the filter: [j.enabled && j.state.nextRunAtMs != null]. *)
Definition wakeable (s : Service) (j : nat) : bool :=
  enabled (objects s j) &&
  match nextRunAtMs (state (objects s j)) with Some _ => true | None => false end.

(** [Math.min(...times)] of a list that is not empty. *)
Definition min_of (x : Z) (rest : list Z) : Z := fold_left Z.min rest x.

(** [getNextWakeMs()]: the times of the jobs that pass the filter (each of
    them has one), and the least of them. *)
Definition getNextWakeMs (s : Service) : option Z :=
  let times :=
    omap (fun j => nextRunAtMs (state (objects s j)))
      (filter (fun j => wakeable s j = true) (jobs s)) in
  match times with
  | [] => None
  | x :: rest => Some (min_of x rest)
  end.

Lemma min_of_le (rest : list Z) :
  forall x, (min_of x rest <= x)%Z /\ Forall (fun y => (min_of x rest <= y)%Z) rest.
Proof.
  unfold min_of. induction rest as [|y rest IH]; intros x; simpl.
  - split; [lia | constructor].
  - destruct (IH (Z.min x y)) as [H1 H2]. split; [lia|].
    constructor; [lia | exact H2].
Qed.

Lemma min_of_In (rest : list Z) : forall x, In (min_of x rest) (x :: rest).
Proof.
  unfold min_of. induction rest as [|y rest IH]; intros x; [now left|].
  cbn [fold_left]. destruct (IH (Z.min x y)) as [H|H]; [|now right; right].
  rewrite <- H. destruct (Z.min_spec x y) as [[_ E]|[_ E]]; rewrite E;
    [now left | now right; left].
Qed.

Lemma wake_times_In (s : Service) (x : Z) :
  In x (omap (fun j => nextRunAtMs (state (objects s j)))
          (filter (fun j => wakeable s j = true) (jobs s)))
  <-> exists j, In j (jobs s) /\ enabled (objects s j) = true /\
                nextRunAtMs (state (objects s j)) = Some x.
Proof.
  rewrite <- list_elem_of_In, list_elem_of_omap. split.
  - intros [j [Hj Hx]]. apply list_elem_of_filter in Hj as [Hw Hj].
    apply list_elem_of_In in Hj. unfold wakeable in Hw.
    apply andb_true_iff in Hw as [He _]. eauto.
  - intros [j [Hj [He Hx]]]. exists j. split; [|exact Hx].
    apply list_elem_of_filter. split; [|now apply list_elem_of_In].
    unfold wakeable. now rewrite He, Hx.
Qed.

Lemma getNextWakeMs_facts (s : Service) :
  (getNextWakeMs s = None <->
   forall j, In j (jobs s) -> wakeable s j = false) /\
  (forall m, getNextWakeMs s = Some m ->
     (exists j, In j (jobs s) /\ enabled (objects s j) = true /\
                nextRunAtMs (state (objects s j)) = Some m) /\
     (forall j x, In j (jobs s) -> enabled (objects s j) = true ->
                  nextRunAtMs (state (objects s j)) = Some x -> (m <= x)%Z)).
Proof.
  pose proof (wake_times_In s) as Hin. unfold getNextWakeMs.
  destruct (omap _ _) as [|t rest] eqn:Ht.
  - split; [|discriminate]. split; [|reflexivity]. intros _ j Hj.
    destruct (wakeable s j) eqn:Hw; [|reflexivity]. exfalso.
    unfold wakeable in Hw. apply andb_true_iff in Hw as [He Hn].
    destruct (nextRunAtMs (state (objects s j))) as [x|] eqn:Hx; [|discriminate].
    apply (proj2 (Hin x)). eauto.
  - split.
    + split; [discriminate|]. intros Hall. exfalso.
      destruct (proj1 (Hin t) (or_introl eq_refl)) as [j [Hj [He Hx]]].
      specialize (Hall j Hj). unfold wakeable in Hall.
      now rewrite He, Hx in Hall.
    + intros m Hm. injection Hm as <-.
      destruct (min_of_le rest t) as [H1 H2]. split.
      * apply Hin, min_of_In.
      * intros j x Hj He Hx.
        assert (Hx' : In x (t :: rest)) by (apply Hin; eauto).
        destruct Hx' as [<-|Hx']; [exact H1|].
        rewrite Forall_forall in H2. apply H2. now apply list_elem_of_In.
Qed.

(** X10.  [getNextWakeMs] is null exactly when no enabled job of the store has a
    next run; otherwise it is the next run of an enabled job of the store,
    and no enabled job has an earlier one. *)
Theorem getNextWakeMs_least (s : Service) :
  (getNextWakeMs s = None <->
   forall j, In j (jobs s) -> wakeable s j = false) /\
  (forall m, getNextWakeMs s = Some m ->
     (exists j, In j (jobs s) /\ enabled (objects s j) = true /\
                nextRunAtMs (state (objects s j)) = Some m) /\
     (forall j x, In j (jobs s) -> enabled (objects s j) = true ->
                  nextRunAtMs (state (objects s j)) = Some x -> (m <= x)%Z)).
Proof. apply getNextWakeMs_facts. Qed.

(** ** listJobs *)

(** A list in the order of [before]: nulls last. *)
Fixpoint ordered (objs : nat -> CronJob) (l : list nat) : Prop :=
  match l with
  | [] => True
  | a :: rest => Forall (fun b => before objs a b = true) rest /\ ordered objs rest
  end.

Lemma before_total (objs : nat -> CronJob) (a b : nat) :
  before objs a b = false -> before objs b a = true.
Proof.
  unfold before.
  destruct (nextRunAtMs (state (objs a))), (nextRunAtMs (state (objs b)));
    try (discriminate || reflexivity).
  intros H. apply Z.leb_gt in H. apply Z.leb_le. lia.
Qed.

Lemma before_trans (objs : nat -> CronJob) (a b c : nat) :
  before objs a b = true -> before objs b c = true -> before objs a c = true.
Proof.
  unfold before.
  destruct (nextRunAtMs (state (objs a))), (nextRunAtMs (state (objs b))),
    (nextRunAtMs (state (objs c))); try (discriminate || reflexivity).
  rewrite !Z.leb_le. lia.
Qed.

Lemma insert_sorted_Forall (objs : nat -> CronJob) (P : nat -> Prop) (a : nat)
  (l : list nat) :
  P a -> Forall P l -> Forall P (insert_sorted objs a l).
Proof.
  intros Ha. induction l as [|b rest IH]; intros Hl; simpl; [now constructor|].
  destruct (before objs a b); [now constructor|].
  apply Forall_cons in Hl as [Hb Hrest]. constructor; [exact Hb | now apply IH].
Qed.

Lemma insert_sorted_ordered (objs : nat -> CronJob) (a : nat) (l : list nat) :
  ordered objs l -> ordered objs (insert_sorted objs a l).
Proof.
  induction l as [|b rest IH]; intros Hl; simpl; [now repeat constructor|].
  destruct Hl as [Hb Hrest]. destruct (before objs a b) eqn:Hab; simpl.
  - split; [|now split]. constructor; [exact Hab|].
    eapply Forall_impl; [exact Hb|]. intros c Hc. cbn beta in Hc.
    now apply (before_trans objs a b c).
  - split; [|now apply IH].
    apply insert_sorted_Forall; [now apply before_total | exact Hb].
Qed.

Lemma sort_jobs_ordered (objs : nat -> CronJob) (l : list nat) :
  ordered objs (sort_jobs objs l).
Proof.
  induction l as [|a rest IH]; simpl; [exact I|].
  now apply insert_sorted_ordered.
Qed.

Lemma insert_sorted_perm (objs : nat -> CronJob) (a : nat) (l : list nat) :
  Permutation (insert_sorted objs a l) (a :: l).
Proof.
  induction l as [|b rest IH]; simpl; [reflexivity|].
  destruct (before objs a b); [reflexivity|].
  rewrite IH. apply perm_swap.
Qed.

Lemma sort_jobs_perm (objs : nat -> CronJob) (l : list nat) :
  Permutation (sort_jobs objs l) l.
Proof.
  induction l as [|a rest IH]; simpl; [reflexivity|].
  now rewrite insert_sorted_perm, IH.
Qed.

(** X11.  [listJobs] answers the jobs asked for (all of them, or the enabled
    ones), each as often as the store holds it, ordered by next run with
    the jobs without one last.  With the disabled jobs included the store
    itself is left in that order; without them the store is left as it
    was.  No job object is written to. *)
Theorem listJobs_sorted (includeDisabled : bool) (s : Service) :
  ordered (objects s) (fst (listJobs includeDisabled s)) /\
  Permutation (fst (listJobs includeDisabled s))
    (if includeDisabled then jobs s
     else filter (fun j => enabled (objects s j) = true) (jobs s)) /\
  jobs (snd (listJobs includeDisabled s))
  = (if includeDisabled then fst (listJobs includeDisabled s) else jobs s) /\
  objects (snd (listJobs includeDisabled s)) = objects s.
Proof.
  unfold listJobs. destruct includeDisabled; cbn [fst snd];
    (split; [apply sort_jobs_ordered|]); (split; [apply sort_jobs_perm|]);
    split; reflexivity.
Qed.

(** ** The timer *)

(** The service with what the store does not hold: whether it runs, and
    the delay of the timeout that is pending, if one is. *)
Record Daemon : Type := mkDaemon {
  service : Service;
  running : bool;
  timer : option Z
}.

(** [armTimer()]: a wake time of 0 arms nothing, as a missing one. *)
Definition armTimer (d : Daemon) : Daemon :=
  let d := mkDaemon (service d) (running d) None in
  match getNextWakeMs (service d) with
  | Some nextWake =>
      if (nextWake =? 0)%Z || negb (running d) then d
      else
        let '(now, s) := nowMs (service d) in
        mkDaemon s (running d) (Some (Z.max 0 (nextWake - now)))
  | None => d
  end.

(** [stop()] *)
Definition stop (d : Daemon) : Daemon := mkDaemon (service d) false None.

Lemma armTimer_store (d : Daemon) :
  objects (service (armTimer d)) = objects (service d) /\
  jobs (service (armTimer d)) = jobs (service d) /\
  running (armTimer d) = running d.
Proof.
  unfold armTimer. cbn [service running].
  destruct (getNextWakeMs (service d)) as [w|]; [|now repeat split].
  destruct ((w =? 0)%Z || negb (running d)); now repeat split.
Qed.

(** X12.  The timer is set only while the service runs, and never to a negative
    delay; after [stop] the service does not run and no timeout is
    pending, whatever the store holds. *)
Theorem armTimer_needs_running (d : Daemon) :
  (forall delay, timer (armTimer d) = Some delay ->
     running d = true /\ (0 <= delay)%Z /\
     exists nextWake, getNextWakeMs (service d) = Some nextWake /\
                      nextWake <> 0%Z /\
                      delay = Z.max 0 (nextWake - wall (service d))) /\
  timer (armTimer (stop d)) = None /\
  running (armTimer (stop d)) = false.
Proof.
  split; [|split].
  - intros delay. unfold armTimer. cbn [service running].
    destruct (getNextWakeMs (service d)) as [w|]; [|discriminate].
    destruct (w =? 0)%Z eqn:Hw; [discriminate|].
    destruct (running d); [|discriminate]. cbn. intros H. injection H as <-.
    apply Z.eqb_neq in Hw. split; [reflexivity|]. split; [lia|]. eauto.
  - unfold armTimer, stop. cbn [service running].
    destruct (getNextWakeMs (service d)) as [w|]; [|reflexivity].
    now rewrite orb_true_r.
  - apply armTimer_store.
Qed.

Section Methods.

Variable cron_next : string -> option string -> Z -> option Z.

(** The store is loaded, and [saveStore] writes it to its file: neither
    touches the service. *)

(** [removeJob(jobId)] *)
Definition removeJob (jobId : string) (d : Daemon) : bool * Daemon :=
  let s := service d in
  let before := length (jobs s) in
  let s :=
    set_jobs
      (filter (fun j => negb (String.eqb (id (objects s j)) jobId) = true)
         (jobs s)) s in
  let removed := Nat.ltb (length (jobs s)) before in
  let d := mkDaemon s (running d) (timer d) in
  if removed then (true, armTimer d) else (false, d).

(** The writes of [enableJob] to the job it has found. *)
Definition set_enabled (job : nat) (on : bool) (s : Service) : Service :=
  let s := modify job (with_enabled on) s in
  let '(updated, s) := nowMs s in
  let s := modify job (with_updatedAtMs updated) s in
  if on then
    let '(now, s) := nowMs s in
    modify job
      (with_state
         (with_nextRunAtMs
            (computeNextRun cron_next (wall s) (schedule (objects s job)) now)))
      s
  else modify job (with_state (with_nextRunAtMs None)) s.

(** [enableJob(jobId, enabled)]: the first job of the store with that id. *)
Definition enableJob (jobId : string) (on : bool) (d : Daemon)
  : option nat * Daemon :=
  let s := service d in
  match List.find (fun j => String.eqb (id (objects s j)) jobId) (jobs s) with
  | Some job =>
      (Some job, armTimer (mkDaemon (set_enabled job on s) (running d) (timer d)))
  | None => (None, d)
  end.

(** The options of [addJob]; [None] for a key left out. *)
Record AddOptions : Type := mkAddOptions {
  o_name : string;
  o_schedule : CronSchedule;
  o_message : string;
  o_deliver : option bool;
  o_channel : option string;
  o_to : option string;
  o_deleteAfterRun : option bool
}.

(** [addJob(options)]: [uuid] is what [crypto.randomUUID()] answers and
    [addr] the address of the new job object. *)
Definition addJob (uuid : string) (addr : nat) (options : AddOptions) (d : Daemon)
  : nat * Daemon :=
  let '(now, s) := nowMs (service d) in
  let job :=
    mkJob (take 8 uuid) (o_name options) true (o_schedule options)
      (mkPayload AgentTurn (o_message options) (default false (o_deliver options))
         (o_channel options) (o_to options))
      (mkJobState (computeNextRun cron_next (wall s) (o_schedule options) now)
         None None None)
      now now (default false (o_deleteAfterRun options)) in
  let s :=
    mkService (fun a => if Nat.eqb a addr then job else objects s a)
      (jobs s ++ [addr]) (ticks s) (reads s) in
  (addr, armTimer (mkDaemon s (running d) (timer d))).

(** [recomputeNextRuns()]: one reading of the clock for all jobs. *)
Definition recomputeNextRuns (s : Service) : Service :=
  let '(now, s) := nowMs s in
  fold_left
    (fun s job =>
       if enabled (objects s job)
       then modify job
              (with_state
                 (with_nextRunAtMs
                    (computeNextRun cron_next (wall s) (schedule (objects s job))
                       now)))
              s
       else s)
    (jobs s) s.

(** [start()], the store loaded. *)
Definition start (d : Daemon) : Daemon :=
  armTimer (mkDaemon (recomputeNextRuns (service d)) true (timer d)).

End Methods.

Lemma filter_all {A : Type} (P : A -> Prop) `{!forall x, Decision (P x)}
  (l : list A) :
  Forall P l -> filter P l = l.
Proof.
  induction l as [|x l IH]; intros Hall; [reflexivity|].
  apply Forall_cons in Hall as [Hx Hl]. rewrite filter_cons.
  destruct (decide (P x)); [now rewrite IH | contradiction].
Qed.

Lemma removeJob_facts (jobId : string) (d : Daemon) :
  (fst (removeJob jobId d) = true <->
   exists j, In j (jobs (service d)) /\ id (objects (service d) j) = jobId) /\
  (forall j, In j (jobs (service (snd (removeJob jobId d)))) <->
             In j (jobs (service d)) /\ id (objects (service d) j) <> jobId) /\
  (exists dropped,
     Permutation (jobs (service d))
       (jobs (service (snd (removeJob jobId d))) ++ dropped) /\
     Forall (fun j => id (objects (service d) j) = jobId) dropped) /\
  objects (service (snd (removeJob jobId d))) = objects (service d) /\
  (fst (removeJob jobId d) = false -> snd (removeJob jobId d) = d).
Proof.
  unfold removeJob. cbn [jobs set_jobs].
  set (keep := fun j => negb (String.eqb (id (objects (service d) j)) jobId) = true).
  assert (Hkeep : forall j, keep j <-> id (objects (service d) j) <> jobId).
  { intros j. unfold keep. rewrite negb_true_iff. apply String.eqb_neq. }
  assert (Hmem : forall j, In j (filter keep (jobs (service d))) <->
                           In j (jobs (service d)) /\
                           id (objects (service d) j) <> jobId).
  { intros j. rewrite <- !list_elem_of_In, list_elem_of_filter, Hkeep. tauto. }
  assert (Hperm : exists dropped,
             Permutation (jobs (service d))
               (filter keep (jobs (service d)) ++ dropped) /\
             Forall (fun j => id (objects (service d) j) = jobId) dropped).
  { clear Hmem. induction (jobs (service d)) as [|j l [dropped [Hp Hd]]].
    - exists []. split; [reflexivity | constructor].
    - rewrite filter_cons. destruct (decide (keep j)) as [Hj|Hj].
      + exists dropped. split; [|exact Hd]. cbn. now rewrite <- Hp.
      + exists (j :: dropped). split.
        * rewrite <- Permutation_middle. now constructor.
        * constructor; [|exact Hd]. rewrite Hkeep in Hj.
          destruct (String.eqb_spec (id (objects (service d) j)) jobId);
            [assumption | contradiction]. }
  destruct (Nat.ltb (length (filter keep (jobs (service d))))
              (length (jobs (service d)))) eqn:Hlt; cbn [fst snd].
  - pose proof (armTimer_store
                  (mkDaemon (set_jobs (filter keep (jobs (service d))) (service d))
                     (running d) (timer d))) as [Ho [Hj _]].
    cbn [service jobs objects set_jobs] in Ho, Hj. rewrite Ho, Hj.
    split; [|split; [exact Hmem | split; [exact Hperm | split; [reflexivity | discriminate]]]].
    split; [intros _ | reflexivity].
    apply Nat.ltb_lt in Hlt.
    destruct (decide (Forall keep (jobs (service d)))) as [Hall|Hex].
    + rewrite filter_all in Hlt; [lia | exact Hall].
    + apply not_Forall_Exists in Hex; [|apply _].
      apply Exists_exists in Hex as [j [Hin Hn]]. exists j.
      apply list_elem_of_In in Hin. split; [exact Hin|].
      cbn in Hn. rewrite Hkeep in Hn.
      destruct (String.eqb_spec (id (objects (service d) j)) jobId);
        [assumption | contradiction].
  - cbn [service jobs objects set_jobs].
    apply Nat.ltb_ge in Hlt.
    assert (Hall : Forall keep (jobs (service d))).
    { apply Forall_forall. intros j Hj.
      destruct (decide (keep j)) as [Hk|Hk]; [exact Hk|]. exfalso.
      pose proof (length_filter_lt keep (jobs (service d)) j Hj Hk). lia. }
    split; [|split; [exact Hmem | split; [exact Hperm | split; [reflexivity|]]]].
    + split; [discriminate|]. intros [j [Hin Hid]]. exfalso.
      rewrite Forall_forall in Hall. apply list_elem_of_In in Hin.
      apply (proj1 (Hkeep j) (Hall j Hin)). exact Hid.
    + intros _. rewrite (filter_all keep _ Hall).
      destruct d as [[o j t r] run tm]. reflexivity.
Qed.

(** X13.  [removeJob] answers true exactly when the store holds a job of that
    id; after it the store holds the jobs of another id, in the order they
    had, and no job object has been written to.  When it answers false
    nothing has changed. *)
Theorem removeJob_removes (jobId : string) (d : Daemon) :
  (fst (removeJob jobId d) = true <->
   exists j, In j (jobs (service d)) /\ id (objects (service d) j) = jobId) /\
  (forall j, In j (jobs (service (snd (removeJob jobId d)))) <->
             In j (jobs (service d)) /\ id (objects (service d) j) <> jobId) /\
  (exists dropped,
     Permutation (jobs (service d))
       (jobs (service (snd (removeJob jobId d))) ++ dropped) /\
     Forall (fun j => id (objects (service d) j) = jobId) dropped) /\
  objects (service (snd (removeJob jobId d))) = objects (service d) /\
  (fst (removeJob jobId d) = false -> snd (removeJob jobId d) = d).
Proof. apply removeJob_facts. Qed.

(** ** enableJob *)

(** X14.  [enableJob] works on the first job of the store with the id, and on
    that job alone: it ends up enabled as asked; disabled it has no next
    run and [listJobs()] does not show it; enabled its next run is computed
    from the second reading of the clock.  With no job of that id the
    answer is null and nothing has changed. *)
Theorem enableJob_first_match
  (cron_next : string -> option string -> Z -> option Z)
  (jobId : string) (on : bool) (d : Daemon) :
  match fst (enableJob cron_next jobId on d) with
  | Some job =>
      In job (jobs (service d)) /\
      id (objects (service d) job) = jobId /\
      enabled (objects (service (snd (enableJob cron_next jobId on d))) job) = on /\
      updatedAtMs (objects (service (snd (enableJob cron_next jobId on d))) job)
      = wall (service d) /\
      nextRunAtMs
        (state (objects (service (snd (enableJob cron_next jobId on d))) job))
      = (if on
         then computeNextRun cron_next
                (ticks (service d) (S (S (reads (service d)))))
                (schedule (objects (service d) job))
                (ticks (service d) (S (reads (service d))))
         else None) /\
      (on = false ->
       ~ In job (fst (listJobs false
                        (service (snd (enableJob cron_next jobId on d)))))) /\
      (forall a, a <> job ->
         objects (service (snd (enableJob cron_next jobId on d))) a
         = objects (service d) a) /\
      jobs (service (snd (enableJob cron_next jobId on d))) = jobs (service d)
  | None =>
      (forall j, In j (jobs (service d)) -> id (objects (service d) j) <> jobId) /\
      snd (enableJob cron_next jobId on d) = d
  end.
Proof.
  unfold enableJob.
  destruct (List.find _ (jobs (service d))) as [job|] eqn:Hf; cbn [fst snd].
  - apply find_some in Hf as [Hin Hid]. apply String.eqb_eq in Hid.
    destruct (armTimer_store
                (mkDaemon (set_enabled cron_next job on (service d)) (running d)
                   (timer d))) as [Ho [Hj _]].
    rewrite Ho, Hj. cbn [service].
    assert (He : enabled (objects (set_enabled cron_next job on (service d)) job)
                 = on)
      by (destruct on; cbn; now rewrite !Nat.eqb_refl).
    split; [exact Hin|]. split; [exact Hid|]. split; [exact He|].
    split; [destruct on; cbn; now rewrite !Nat.eqb_refl|].
    split; [destruct on; cbn; now rewrite !Nat.eqb_refl|].
    split; [|split].
    + intros -> Hl. unfold listJobs in Hl. cbn [fst] in Hl.
      apply sort_jobs_In, list_elem_of_In, list_elem_of_filter in Hl as [Hl _].
      rewrite Ho in Hl. cbn [service] in Hl. congruence.
    + intros a Ha. apply Nat.eqb_neq in Ha. destruct on; cbn; now rewrite !Ha.
    + destruct on; reflexivity.
  - split; [|reflexivity]. intros j Hj.
    apply (find_none _ _ Hf) in Hj. now apply String.eqb_neq.
Qed.

(** ** addJob *)

Lemma removeJob_store (jobId : string) (d : Daemon) :
  jobs (service (snd (removeJob jobId d)))
  = filter (fun j => negb (String.eqb (id (objects (service d) j)) jobId) = true)
      (jobs (service d)) /\
  objects (service (snd (removeJob jobId d))) = objects (service d).
Proof.
  unfold removeJob. cbn [jobs set_jobs].
  destruct (Nat.ltb _ _); cbn [snd]; [|now split].
  match goal with
  | |- context [armTimer ?x] => destruct (armTimer_store x) as [Ho [Hj _]]
  end.
  now rewrite Ho, Hj.
Qed.

(** X15.  A job added is a new object at the end of the store, enabled, under
    the first eight characters of the UUID, and [listJobs()] shows it;
    [removeJob] with that id answers true and, where no job had the id
    before, leaves the store holding the jobs it held before. *)
Theorem addJob_then_removeJob
  (cron_next : string -> option string -> Z -> option Z)
  (uuid : string) (addr : nat) (options : AddOptions) (d : Daemon) :
  ~ In addr (jobs (service d)) ->
  (forall j, In j (jobs (service d)) ->
             id (objects (service d) j) <> take 8 uuid) ->
  fst (addJob cron_next uuid addr options d) = addr /\
  jobs (service (snd (addJob cron_next uuid addr options d)))
  = jobs (service d) ++ [addr] /\
  id (objects (service (snd (addJob cron_next uuid addr options d))) addr)
  = take 8 uuid /\
  String.length
    (id (objects (service (snd (addJob cron_next uuid addr options d))) addr)) <= 8 /\
  In addr (fst (listJobs false
                  (service (snd (addJob cron_next uuid addr options d))))) /\
  (forall a, a <> addr ->
     objects (service (snd (addJob cron_next uuid addr options d))) a
     = objects (service d) a) /\
  fst (removeJob (take 8 uuid) (snd (addJob cron_next uuid addr options d))) = true /\
  jobs (service (snd (removeJob (take 8 uuid)
                        (snd (addJob cron_next uuid addr options d)))))
  = jobs (service d).
Proof.
  intros Hfresh Hids.
  assert (Ho : objects (service (snd (addJob cron_next uuid addr options d)))
               = fun a =>
                   if Nat.eqb a addr
                   then objects (service (snd (addJob cron_next uuid addr options d)))
                          addr
                   else objects (service d) a).
  { unfold addJob. cbn [nowMs fst snd].
    match goal with
    | |- context [armTimer ?x] => destruct (armTimer_store x) as [Ho _]; rewrite Ho
    end.
    cbn [service objects]. now rewrite Nat.eqb_refl. }
  assert (Hj : jobs (service (snd (addJob cron_next uuid addr options d)))
               = jobs (service d) ++ [addr]).
  { unfold addJob. cbn [nowMs fst snd].
    match goal with
    | |- context [armTimer ?x] => destruct (armTimer_store x) as [_ [Hj _]]; rewrite Hj
    end.
    reflexivity. }
  assert (Hnew : id (objects (service (snd (addJob cron_next uuid addr options d)))
                      addr) = take 8 uuid /\
                 enabled (objects (service (snd (addJob cron_next uuid addr options d)))
                            addr) = true).
  { unfold addJob. cbn [nowMs fst snd].
    match goal with
    | |- context [armTimer ?x] => destruct (armTimer_store x) as [Ho' _]; rewrite Ho'
    end.
    cbn [service objects]. rewrite Nat.eqb_refl. now split. }
  destruct Hnew as [Hid Hen].
  assert (Hold : forall a, a <> addr ->
             objects (service (snd (addJob cron_next uuid addr options d))) a
             = objects (service d) a).
  { intros a Ha. rewrite Ho. apply Nat.eqb_neq in Ha. now rewrite Ha. }
  assert (Hfilter :
            filter (fun j =>
                      negb (String.eqb
                              (id (objects
                                     (service (snd (addJob cron_next uuid addr options d)))
                                     j))
                              (take 8 uuid)) = true)
              (jobs (service d) ++ [addr]) = jobs (service d)).
  { rewrite filter_app, filter_all.
    - rewrite filter_cons, filter_nil.
      destruct (decide _) as [Hk|_]; [|apply List.app_nil_r].
      rewrite Hid, String.eqb_refl in Hk. discriminate.
    - apply Forall_forall. intros j Hin. apply list_elem_of_In in Hin.
      rewrite Hold by (intros ->; contradiction).
      apply negb_true_iff, String.eqb_neq. now apply Hids. }
  split; [reflexivity|]. split; [exact Hj|]. split; [exact Hid|].
  split; [rewrite Hid; clear; revert uuid;
          assert (H : forall n s, String.length (take n s) <= n)
            by (induction n; intros [|c s]; simpl; try lia;
                specialize (IHn s); lia);
          intros uuid; apply H|].
  split; [|split; [exact Hold|]].
  - unfold listJobs. cbn [fst]. apply sort_jobs_In, list_elem_of_In.
    apply list_elem_of_filter. split; [exact Hen|].
    rewrite Hj. apply list_elem_of_In, in_or_app. right. now left.
  - destruct (removeJob_store (take 8 uuid)
                (snd (addJob cron_next uuid addr options d))) as [Hrj _].
    split; [|now rewrite Hrj, Hj, Hfilter].
    unfold removeJob. cbn [jobs set_jobs]. rewrite Hj, Hfilter.
    rewrite length_app. cbn [length].
    replace (Nat.ltb _ _) with true; [reflexivity|].
    symmetry. apply Nat.ltb_lt. lia.
Qed.

Definition a_daemon : Daemon := mkDaemon a_service true None.

Definition an_option : AddOptions :=
  mkAddOptions "tea" (mkSchedule KindEvery None (Some 60000%Z) None None)
    "make tea" (Some true) (Some "telegram") (Some "42") None.

Lemma addJob_then_removeJob_witness :
  fst (addJob (fun _ _ _ => None) "0f8fad5b-d9cb-469f-a165-70867728950e" 2
         an_option a_daemon) = 2 /\
  jobs (service (snd (addJob (fun _ _ _ => None)
                        "0f8fad5b-d9cb-469f-a165-70867728950e" 2 an_option a_daemon)))
  = jobs (service a_daemon) ++ [2] /\
  id (objects (service (snd (addJob (fun _ _ _ => None)
                               "0f8fad5b-d9cb-469f-a165-70867728950e" 2 an_option
                               a_daemon))) 2)
  = take 8 "0f8fad5b-d9cb-469f-a165-70867728950e" /\
  String.length
    (id (objects (service (snd (addJob (fun _ _ _ => None)
                                  "0f8fad5b-d9cb-469f-a165-70867728950e" 2 an_option
                                  a_daemon))) 2)) <= 8 /\
  In 2 (fst (listJobs false
               (service (snd (addJob (fun _ _ _ => None)
                                "0f8fad5b-d9cb-469f-a165-70867728950e" 2 an_option
                                a_daemon))))) /\
  (forall a, a <> 2 ->
     objects (service (snd (addJob (fun _ _ _ => None)
                              "0f8fad5b-d9cb-469f-a165-70867728950e" 2 an_option
                              a_daemon))) a
     = objects (service a_daemon) a) /\
  fst (removeJob (take 8 "0f8fad5b-d9cb-469f-a165-70867728950e")
         (snd (addJob (fun _ _ _ => None)
                 "0f8fad5b-d9cb-469f-a165-70867728950e" 2 an_option a_daemon)))
  = true /\
  jobs (service (snd (removeJob (take 8 "0f8fad5b-d9cb-469f-a165-70867728950e")
                        (snd (addJob (fun _ _ _ => None)
                                "0f8fad5b-d9cb-469f-a165-70867728950e" 2 an_option
                                a_daemon)))))
  = jobs (service a_daemon).
Proof.
  apply (addJob_then_removeJob (fun _ _ _ => None)
           "0f8fad5b-d9cb-469f-a165-70867728950e" 2 an_option a_daemon).
  - cbn. intros [H|[H|[]]]; discriminate.
  - cbn. intros j [<-|[<-|[]]]; discriminate.
Defined.

(** ** recomputeNextRuns, start *)

(** A job without its next run. *)
Definition but_next (j : CronJob) : CronJob := with_state (with_nextRunAtMs None) j.

Lemma recompute_loop (cron_next : string -> option string -> Z -> option Z)
  (now : Z) (l : list nat) :
  forall s : Service,
    let s' :=
      fold_left
        (fun s job =>
           if enabled (objects s job)
           then modify job
                  (with_state
                     (with_nextRunAtMs
                        (computeNextRun cron_next (wall s)
                           (schedule (objects s job)) now)))
                  s
           else s)
        l s in
    jobs s' = jobs s /\ ticks s' = ticks s /\ reads s' = reads s /\
    forall a,
      but_next (objects s' a) = but_next (objects s a) /\
      (In a l -> enabled (objects s a) = true ->
       nextRunAtMs (state (objects s' a))
       = computeNextRun cron_next (wall s) (schedule (objects s a)) now) /\
      (~ (In a l /\ enabled (objects s a) = true) -> objects s' a = objects s a).
Proof.
  induction l as [|j rest IH]; intros s; cbn zeta.
  - repeat split; first [reflexivity | intros []].
  - cbn [fold_left].
    set (s1 := if enabled (objects s j)
               then modify j
                      (with_state
                         (with_nextRunAtMs
                            (computeNextRun cron_next (wall s)
                               (schedule (objects s j)) now)))
                      s
               else s).
    assert (H1 : jobs s1 = jobs s /\ ticks s1 = ticks s /\ reads s1 = reads s /\
                 forall a,
                   but_next (objects s1 a) = but_next (objects s a) /\
                   (a = j -> enabled (objects s a) = true ->
                    nextRunAtMs (state (objects s1 a))
                    = computeNextRun cron_next (wall s) (schedule (objects s a)) now)
                   /\ (~ (a = j /\ enabled (objects s a) = true) ->
                       objects s1 a = objects s a)).
    { unfold s1. destruct (enabled (objects s j)) eqn:He.
      - repeat split; cbn [modify objects].
        + destruct (Nat.eqb_spec a j) as [->|]; reflexivity.
        + intros -> _. now rewrite Nat.eqb_refl.
        + intros Hn. destruct (Nat.eqb_spec a j) as [->|]; [|reflexivity].
          exfalso. now apply Hn.
      - repeat split; trivial. intros -> He'. congruence. }
    destruct H1 as [Hj1 [Ht1 [Hr1 Ha1]]].
    specialize (IH s1). cbn zeta in IH. destruct IH as [Hj [Ht [Hr Ha]]].
    split; [congruence|]. split; [congruence|]. split; [congruence|].
    intros a. destruct (Ha a) as [Hb [Hin Hout]]. destruct (Ha1 a) as [Hb1 [Hin1 Hout1]].
    assert (Hw : wall s1 = wall s) by (unfold wall; congruence).
    assert (He : enabled (objects s1 a) = enabled (objects s a))
      by (apply (f_equal enabled) in Hb1; exact Hb1).
    assert (Hs : schedule (objects s1 a) = schedule (objects s a))
      by (apply (f_equal schedule) in Hb1; exact Hb1).
    split; [congruence|]. split.
    + intros Hmem Hen. destruct (in_dec Nat.eq_dec a rest) as [Hr'|Hr'].
      * rewrite Hin by congruence. now rewrite Hw, Hs.
      * destruct Hmem as [<-|Hmem]; [|contradiction].
        rewrite Hout by tauto. now apply Hin1.
    + intros Hn. rewrite Hout, Hout1; [reflexivity | |].
      * intros [-> Hen]. apply Hn. split; [now left | exact Hen].
      * intros [Hr' Hen]. apply Hn. split; [now right | congruence].
Qed.

Lemma recompute_facts
  (cron_next : string -> option string -> Z -> option Z) (s : Service) (a : nat) :
  jobs (recomputeNextRuns cron_next s) = jobs s /\
  reads (recomputeNextRuns cron_next s) = S (reads s) /\
  but_next (objects (recomputeNextRuns cron_next s) a) = but_next (objects s a) /\
  (In a (jobs s) -> enabled (objects s a) = true ->
   nextRunAtMs (state (objects (recomputeNextRuns cron_next s) a))
   = computeNextRun cron_next (ticks s (S (reads s))) (schedule (objects s a))
       (wall s)) /\
  (~ (In a (jobs s) /\ enabled (objects s a) = true) ->
   objects (recomputeNextRuns cron_next s) a = objects s a).
Proof.
  unfold recomputeNextRuns, nowMs.
  pose proof (recompute_loop cron_next (wall s) (jobs s)
                (mkService (objects s) (jobs s) (ticks s) (S (reads s)))) as H.
  cbn zeta in H. cbn [jobs] in *. destruct H as [Hj [Ht [Hr Ha]]].
  destruct (Ha a) as [Hb [Hin Hout]].
  split; [exact Hj|]. split; [exact Hr|]. split; [exact Hb|].
  split; [exact Hin | exact Hout].
Qed.

(** X16.  [recomputeNextRuns] reads the clock once; every enabled job of the
    store gets its next run computed from that reading, however often the
    store holds it; nothing else of any job changes, and neither does the
    store's order. *)
Theorem recomputeNextRuns_spec
  (cron_next : string -> option string -> Z -> option Z) (s : Service) (a : nat) :
  jobs (recomputeNextRuns cron_next s) = jobs s /\
  reads (recomputeNextRuns cron_next s) = S (reads s) /\
  but_next (objects (recomputeNextRuns cron_next s) a) = but_next (objects s a) /\
  (In a (jobs s) -> enabled (objects s a) = true ->
   nextRunAtMs (state (objects (recomputeNextRuns cron_next s) a))
   = computeNextRun cron_next (ticks s (S (reads s))) (schedule (objects s a))
       (wall s)) /\
  (~ (In a (jobs s) /\ enabled (objects s a) = true) ->
   objects (recomputeNextRuns cron_next s) a = objects s a).
Proof. apply recompute_facts. Qed.

(** X17.  A one-shot job whose time has passed when the service starts stays in
    the store, enabled and without a next run: the timer never wakes for
    it, and it is not run. *)
Theorem start_keeps_missed_one_shot
  (cron_next : string -> option string -> Z -> option Z)
  (d : Daemon) (job : nat) (at_ : Z) :
  In job (jobs (service d)) ->
  enabled (objects (service d) job) = true ->
  kind (schedule (objects (service d) job)) = KindAt ->
  atMs (schedule (objects (service d) job)) = Some at_ ->
  (at_ <= wall (service d))%Z ->
  running (start cron_next d) = true /\
  In job (jobs (service (start cron_next d))) /\
  enabled (objects (service (start cron_next d)) job) = true /\
  nextRunAtMs (state (objects (service (start cron_next d)) job)) = None /\
  wakeable (service (start cron_next d)) job = false /\
  forall delay, timer (start cron_next d) = Some delay ->
    exists other, other <> job /\ In other (jobs (service d)) /\
                  wakeable (service (start cron_next d)) other = true.
Proof.
  intros Hin Hen Hk Ha Hpast. unfold start.
  destruct (armTimer_store
              (mkDaemon (recomputeNextRuns cron_next (service d)) true (timer d)))
    as [Ho [Hj Hr]].
  cbn [service running] in Ho, Hj, Hr.
  destruct (recompute_facts cron_next (service d) job)
    as [Hjobs [_ [Hb [Hnext _]]]].
  assert (Hnone : nextRunAtMs
                    (state (objects (recomputeNextRuns cron_next (service d)) job))
                  = None).
  { rewrite (Hnext Hin Hen). unfold computeNextRun. rewrite Hk, Ha. cbn.
    replace (wall (service d) <? at_)%Z with false
      by (symmetry; apply Z.ltb_ge; exact Hpast).
    now rewrite andb_false_r. }
  assert (Hen' : enabled (objects (recomputeNextRuns cron_next (service d)) job)
                 = true)
    by (apply (f_equal enabled) in Hb; exact (eq_trans Hb Hen)).
  split; [exact Hr|]. rewrite Ho, Hj, Hjobs.
  split; [exact Hin|]. split; [exact Hen'|]. split; [exact Hnone|].
  assert (Hw : wakeable (service (armTimer
                 (mkDaemon (recomputeNextRuns cron_next (service d)) true (timer d))))
                 job = false).
  { unfold wakeable. rewrite Ho, Hnone. apply andb_false_r. }
  split; [exact Hw|].
  intros delay Ht. unfold armTimer in Ht. cbn [service running] in Ht.
  destruct (getNextWakeMs (recomputeNextRuns cron_next (service d))) as [w|] eqn:Hg;
    [|discriminate].
  destruct (getNextWakeMs_facts (recomputeNextRuns cron_next (service d)))
    as [_ Hleast].
  destruct (Hleast w Hg) as [[other [Hoin [Hoen Hox]]] _].
  exists other. split; [intros ->; congruence|].
  split; [now rewrite <- Hjobs|].
  unfold wakeable. now rewrite Ho, Hoen, Hox.
Qed.

Lemma start_keeps_missed_one_shot_witness :
  running (start (fun _ _ _ => None) a_daemon) = true /\
  In 0 (jobs (service (start (fun _ _ _ => None) a_daemon))) /\
  enabled (objects (service (start (fun _ _ _ => None) a_daemon)) 0) = true /\
  nextRunAtMs (state (objects (service (start (fun _ _ _ => None) a_daemon)) 0))
  = None /\
  wakeable (service (start (fun _ _ _ => None) a_daemon)) 0 = false /\
  forall delay, timer (start (fun _ _ _ => None) a_daemon) = Some delay ->
    exists other, other <> 0 /\ In other (jobs (service a_daemon)) /\
                  wakeable (service (start (fun _ _ _ => None) a_daemon)) other
                  = true.
Proof.
  apply (start_keeps_missed_one_shot (fun _ _ _ => None) a_daemon 0 5000);
    first [reflexivity | now left | (cbn; lia)].
Defined.

End CronMore.

(* ===================================================================== *)
(** * The cron tool *)
(* ===================================================================== *)

Module CronToolMore.
Import JsString Js Cron CronMore.

(** The parameters of the tool; [None] for a key left out.  [everySeconds]
    is taken in whole seconds. *)
Record CronParams : Type := mkCronParams {
  action : string;
  message : option string;
  everySeconds : option Z;
  cronExpr : option string;
  at_ : option string;
  jobId : option string
}.

(** The tool: its service and the context of [setContext]. *)
Record CronTool : Type := mkCronTool {
  daemon : Daemon;
  channel : string;
  chatId : string
}.

Definition setContext (channel chatId : string) (t : CronTool) : CronTool :=
  mkCronTool (daemon t) channel chatId.

Definition kind_name (k : ScheduleKind) : string :=
  match k with KindAt => "at" | KindEvery => "every" | KindCron => "cron" end.

Definition bool_name (b : bool) : string := if b then "true" else "false".

(** [x || undefined] of a string. *)
Definition or_undefined (x : string) : option string :=
  if truthy x then Some x else None.

Section Tool.

Variable cron_next : string -> option string -> Z -> option Z.

(** [new Date(s).getTime()], [None] for NaN: as [atMs] of a schedule NaN
    is falsy, as null is, and is stored as null. *)
Variable date_parse : string -> option Z.

(** [CronTool.listJobs] *)
Definition tool_listJobs (t : CronTool) : string * CronTool :=
  let '(listed, s) := listJobs false (service (daemon t)) in
  let t :=
    mkCronTool (mkDaemon s (running (daemon t)) (timer (daemon t)))
      (channel t) (chatId t) in
  match listed with
  | [] => ("No scheduled jobs.", t)
  | _ =>
      (join Js.nl
         (map (fun j =>
                 "- " +:+ name (objects s j) +:+ " (id: " +:+ id (objects s j)
                 +:+ ", " +:+ kind_name (kind (schedule (objects s j)))
                 +:+ ", enabled=" +:+ bool_name (enabled (objects s j)) +:+ ")")
            listed), t)
  end.

(** The schedule [CronTool.addJob] makes of its parameters, with
    [deleteAfterRun]. *)
Definition schedule_of (params : CronParams) : option (CronSchedule * bool) :=
  if truthy_num (everySeconds params) then
    Some (mkSchedule KindEvery None ((fun n => n * 1000)%Z <$> everySeconds params)
            None None, false)
  else if truthy_str (cronExpr params) then
    Some (mkSchedule KindCron None None (cronExpr params) None, false)
  else
    match at_ params with
    | Some a =>
        if truthy a
        then Some (mkSchedule KindAt (date_parse a) None None None, true)
        else None
    | None => None
    end.

(** [CronTool.addJob] *)
Definition tool_addJob (uuid : string) (addr : nat) (params : CronParams)
  (t : CronTool) : string * CronTool :=
  match message params with
  | Some m =>
      if negb (truthy m) then ("Error: message is required for add.", t)
      else if negb (truthy (channel t)) || negb (truthy (chatId t))
      then ("Error: no session context (channel/chatId).", t)
      else
        match schedule_of params with
        | None => ("Error: must specify everySeconds, cronExpr, or at.", t)
        | Some (schedule, deleteAfterRun) =>
            let '(job, d) :=
              addJob cron_next uuid addr
                (mkAddOptions (take 50 m) schedule m (Some true)
                   (or_undefined (channel t)) (or_undefined (chatId t))
                   (Some deleteAfterRun))
                (daemon t) in
            ("Scheduled job '" +:+ name (objects (service d) job) +:+ "' ("
             +:+ id (objects (service d) job) +:+ ")",
             mkCronTool d (channel t) (chatId t))
        end
  | None => ("Error: message is required for add.", t)
  end.

(** [CronTool.removeJob] *)
Definition tool_removeJob (jobId : option string) (t : CronTool)
  : string * CronTool :=
  match jobId with
  | Some i =>
      if negb (truthy i) then ("Error: jobId is required for remove.", t)
      else
        let '(removed, d) := removeJob i (daemon t) in
        (if removed then "Removed job " +:+ i else "Job " +:+ i +:+ " not found.",
         mkCronTool d (channel t) (chatId t))
  | None => ("Error: jobId is required for remove.", t)
  end.

(** [CronTool.execute] *)
Definition execute (uuid : string) (addr : nat) (params : CronParams)
  (t : CronTool) : string * CronTool :=
  if String.eqb (action params) "list" then tool_listJobs t
  else if String.eqb (action params) "add" then tool_addJob uuid addr params t
  else if String.eqb (action params) "remove" then tool_removeJob (jobId params) t
  else ("Unknown action: " +:+ action params, t).

End Tool.

Lemma addJob_object (cron_next : string -> option string -> Z -> option Z)
  (uuid : string) (addr : nat) (o : AddOptions) (d : Daemon) :
  fst (addJob cron_next uuid addr o d) = addr /\
  jobs (service (snd (addJob cron_next uuid addr o d)))
  = jobs (service d) ++ [addr] /\
  objects (service (snd (addJob cron_next uuid addr o d))) addr
  = mkJob (take 8 uuid) (o_name o) true (o_schedule o)
      (mkPayload AgentTurn (o_message o) (default false (o_deliver o))
         (o_channel o) (o_to o))
      (mkJobState
         (computeNextRun cron_next (ticks (service d) (S (reads (service d))))
            (o_schedule o) (wall (service d)))
         None None None)
      (wall (service d)) (wall (service d)) (default false (o_deleteAfterRun o)).
Proof.
  unfold addJob, nowMs.
  match goal with
  | |- context [armTimer ?x] => destruct (armTimer_store x) as [Ho [Hj _]]
  end.
  cbn [fst snd]. rewrite Ho, Hj. cbn [service objects jobs].
  now rewrite Nat.eqb_refl.
Qed.

(** X18.  [add] with a message and a session context: without any of
    [everySeconds], [cronExpr] and [at] the answer is the error and nothing
    changes; otherwise one job is added, named by the first 50 characters
    of the message, to be delivered to the session.  [everySeconds] wins
    over [cronExpr], which wins over [at]; only an [at] job is deleted
    after its run.  An interval that is not positive is scheduled all the
    same and has no next run. *)
Theorem cron_tool_add
  (cron_next : string -> option string -> Z -> option Z)
  (date_parse : string -> option Z)
  (uuid : string) (addr : nat) (p : CronParams) (t : CronTool) (m : string) :
  action p = "add" ->
  message p = Some m ->
  truthy m = true ->
  truthy (channel t) = true ->
  truthy (chatId t) = true ->
  (truthy_num (everySeconds p) = false ->
   truthy_str (cronExpr p) = false ->
   truthy_str (at_ p) = false ->
   execute cron_next date_parse uuid addr p t
   = ("Error: must specify everySeconds, cronExpr, or at.", t)) /\
  (truthy_num (everySeconds p) || truthy_str (cronExpr p) || truthy_str (at_ p)
   = true ->
   fst (execute cron_next date_parse uuid addr p t)
   = "Scheduled job '" +:+ take 50 m +:+ "' (" +:+ take 8 uuid +:+ ")" /\
   jobs (service (daemon (snd (execute cron_next date_parse uuid addr p t))))
   = jobs (service (daemon t)) ++ [addr] /\
   String.length
     (name (objects
              (service (daemon (snd (execute cron_next date_parse uuid addr p t))))
              addr)) <= 50 /\
   payload (objects
              (service (daemon (snd (execute cron_next date_parse uuid addr p t))))
              addr)
   = mkPayload AgentTurn m true (Some (channel t)) (Some (chatId t)) /\
   enabled (objects
              (service (daemon (snd (execute cron_next date_parse uuid addr p t))))
              addr) = true /\
   (forall n, everySeconds p = Some n -> n <> 0%Z ->
      schedule (objects
                  (service (daemon (snd (execute cron_next date_parse uuid addr p t))))
                  addr)
      = mkSchedule KindEvery None (Some (n * 1000)%Z) None None /\
      deleteAfterRun
        (objects
           (service (daemon (snd (execute cron_next date_parse uuid addr p t))))
           addr) = false /\
      nextRunAtMs
        (state (objects
                  (service (daemon (snd (execute cron_next date_parse uuid addr p t))))
                  addr))
      = (if (0 <? n)%Z then Some (wall (service (daemon t)) + n * 1000)%Z
         else None)) /\
   (truthy_num (everySeconds p) = false ->
    forall e, cronExpr p = Some e -> truthy e = true ->
      schedule (objects
                  (service (daemon (snd (execute cron_next date_parse uuid addr p t))))
                  addr)
      = mkSchedule KindCron None None (Some e) None /\
      deleteAfterRun
        (objects
           (service (daemon (snd (execute cron_next date_parse uuid addr p t))))
           addr) = false) /\
   (truthy_num (everySeconds p) = false ->
    truthy_str (cronExpr p) = false ->
    forall a, at_ p = Some a -> truthy a = true ->
      schedule (objects
                  (service (daemon (snd (execute cron_next date_parse uuid addr p t))))
                  addr)
      = mkSchedule KindAt (date_parse a) None None None /\
      deleteAfterRun
        (objects
           (service (daemon (snd (execute cron_next date_parse uuid addr p t))))
           addr) = true)).
Proof.
  intros Ha Hm Ht Hc Hi. unfold execute, tool_addJob.
  rewrite Ha, Hm, Ht, Hc, Hi. cbn [String.eqb Ascii.eqb Bool.eqb negb orb].
  change (String.eqb "add" "list") with false.
  change (String.eqb "add" "add") with true. cbv iota.
  split.
  - intros H1 H2 H3. unfold schedule_of. rewrite H1, H2.
    destruct (at_ p) as [a|]; [|reflexivity]. cbn in H3. now rewrite H3.
  - intros Hany.
    destruct (schedule_of date_parse p) as [[sch del]|] eqn:Hs.
    + destruct (addJob_object cron_next uuid addr
                  (mkAddOptions (take 50 m) sch m (Some true)
                     (or_undefined (channel t)) (or_undefined (chatId t))
                     (Some del)) (daemon t)) as [H1 [H2 H3]].
      destruct (addJob _ _ _ _ _) as [job d]. cbn [fst snd] in *. subst job.
      cbn [daemon]. rewrite H2, H3.
      cbn [name id payload enabled schedule deleteAfterRun state nextRunAtMs
           o_name o_schedule o_message o_deliver o_channel o_to o_deleteAfterRun
           default fst snd].
      unfold or_undefined. rewrite Hc, Hi.
      split; [reflexivity|]. split; [reflexivity|].
      split; [apply ShellMore.take_length|]. split; [reflexivity|].
      split; [reflexivity|].
      unfold schedule_of in Hs. split; [|split].
      * intros n Hn Hn0. rewrite Hn in Hs. cbn in Hs.
        apply Z.eqb_neq in Hn0. rewrite Hn0 in Hs. cbn in Hs.
        injection Hs as <- <-. split; [reflexivity|]. split; [reflexivity|].
        rewrite computeNextRun_every by reflexivity. cbn.
        replace (0 <? n * 1000)%Z with (0 <? n)%Z; [reflexivity|].
        destruct (0 <? n)%Z eqn:E; symmetry;
          [apply Z.ltb_lt; apply Z.ltb_lt in E | apply Z.ltb_ge; apply Z.ltb_ge in E];
          lia.
      * intros Hn e He Het. rewrite Hn, He in Hs. cbn in Hs. rewrite Het in Hs.
        injection Hs as <- <-. now split.
      * intros Hn He a Hat Hatt. rewrite Hn, He, Hat, Hatt in Hs.
        injection Hs as <- <-. now split.
    + exfalso. unfold schedule_of in Hs.
      destruct (truthy_num (everySeconds p)); [discriminate|].
      destruct (truthy_str (cronExpr p)); [discriminate|].
      destruct (at_ p) as [a|]; [|discriminate]. cbn in Hany.
      destruct (truthy a); discriminate.
Qed.

Definition a_cron_tool : CronTool := mkCronTool a_daemon "telegram" "42".

(** Twenty to eight on 2026-01-01, and nothing else. *)
Definition one_date (s : string) : option Z :=
  if String.eqb s "2026-01-01T07:40:00Z" then Some 1767253200000%Z else None.

Definition all_three : CronParams :=
  mkCronParams "add" (Some "water the plants") (Some (-5)%Z) (Some "0 9 * * *")
    (Some "2026-01-01T07:40:00Z") None.

Lemma cron_tool_add_witness :
  execute (fun _ _ _ => None) one_date "0f8fad5b-d9cb-469f-a165-70867728950e" 2
    all_three a_cron_tool
  = ("Scheduled job 'water the plants' (0f8fad5b)",
     snd (execute (fun _ _ _ => None) one_date
            "0f8fad5b-d9cb-469f-a165-70867728950e" 2 all_three a_cron_tool)) /\
  schedule (objects
              (service (daemon (snd (execute (fun _ _ _ => None) one_date
                                       "0f8fad5b-d9cb-469f-a165-70867728950e" 2
                                       all_three a_cron_tool)))) 2)
  = mkSchedule KindEvery None (Some (-5000)%Z) None None /\
  nextRunAtMs
    (state (objects
              (service (daemon (snd (execute (fun _ _ _ => None) one_date
                                       "0f8fad5b-d9cb-469f-a165-70867728950e" 2
                                       all_three a_cron_tool)))) 2))
  = None.
Proof.
  destruct (cron_tool_add (fun _ _ _ => None) one_date
              "0f8fad5b-d9cb-469f-a165-70867728950e" 2 all_three a_cron_tool
              "water the plants" eq_refl eq_refl eq_refl eq_refl eq_refl)
    as [_ H].
  destruct (H eq_refl) as [H1 [_ [_ [_ [_ [H2 _]]]]]].
  destruct (H2 (-5)%Z eq_refl) as [H3 [_ H4]]; [discriminate|].
  split; [|split; [exact H3 | exact H4]].
  rewrite (surjective_pairing (execute _ _ _ _ _ _)). now rewrite H1.
Defined.

Lemma sort_jobs_nil (objs : nat -> CronJob) (l : list nat) :
  sort_jobs objs l = [] <-> l = [].
Proof.
  split; [|now intros ->]. intros H.
  pose proof (sort_jobs_perm objs l) as Hp. rewrite H in Hp.
  now apply Permutation_nil_l in Hp.
Qed.

Lemma listing_is_no_notice (x : string) (rest : list string) :
  join Js.nl (("- " +:+ x) :: rest) <> "No scheduled jobs.".
Proof.
  destruct rest as [|y rest]; cbn [join]; rewrite !app_cons; discriminate.
Qed.

(** X19.  [list] answers "No scheduled jobs." exactly when no job of the store is
    enabled, and changes nothing.  [remove] with an id answers "Removed
    job" exactly when the store holds a job of that id, and "not found"
    otherwise, when nothing changes.  Any other action but [add] is
    answered as unknown. *)
Theorem cron_tool_list_remove
  (cron_next : string -> option string -> Z -> option Z)
  (date_parse : string -> option Z)
  (uuid : string) (addr : nat) (p : CronParams) (t : CronTool) :
  (action p = "list" ->
   (fst (execute cron_next date_parse uuid addr p t) = "No scheduled jobs." <->
    forall j, In j (jobs (service (daemon t))) ->
              enabled (objects (service (daemon t)) j) = false) /\
   snd (execute cron_next date_parse uuid addr p t) = t) /\
  (action p = "remove" ->
   forall i, jobId p = Some i -> truthy i = true ->
     (fst (execute cron_next date_parse uuid addr p t) = "Removed job " +:+ i <->
      exists j, In j (jobs (service (daemon t))) /\
                id (objects (service (daemon t)) j) = i) /\
     (fst (execute cron_next date_parse uuid addr p t) <> "Removed job " +:+ i ->
      execute cron_next date_parse uuid addr p t
      = ("Job " +:+ i +:+ " not found.", t))) /\
  (action p <> "list" -> action p <> "add" -> action p <> "remove" ->
   execute cron_next date_parse uuid addr p t
   = ("Unknown action: " +:+ action p, t)).
Proof.
  unfold execute. split; [|split].
  - intros ->. change (String.eqb "list" "list") with true. cbv iota.
    unfold tool_listJobs, listJobs.
    destruct (sort_jobs _ _) as [|j rest] eqn:Hs; cbn [fst snd].
    + split; [|destruct t as [[sv r tm] c i]; reflexivity].
      split; [intros _|reflexivity]. intros j Hj.
      apply sort_jobs_nil in Hs.
      destruct (enabled (objects (service (daemon t)) j)) eqn:He; [|reflexivity].
      exfalso. assert (Hin : j ∈ @nil nat); [|inversion Hin].
      rewrite <- Hs. apply list_elem_of_filter. split; [exact He|].
      now apply list_elem_of_In.
    + split; [|destruct t as [[sv r tm] c i]; reflexivity].
      cbn [map]. split.
      * intros H. now apply listing_is_no_notice in H.
      * intros Hall. exfalso.
        assert (Hin : In j (sort_jobs (objects (service (daemon t)))
                              (filter (fun j => enabled (objects (service (daemon t)) j)
                                                = true)
                                 (jobs (service (daemon t))))))
          by (rewrite Hs; now left).
        apply sort_jobs_In, list_elem_of_In, list_elem_of_filter in Hin as [He Hin].
        apply list_elem_of_In in Hin. rewrite (Hall j Hin) in He. discriminate.
  - intros -> i Hi Ht. change (String.eqb "remove" "list") with false.
    change (String.eqb "remove" "add") with false.
    change (String.eqb "remove" "remove") with true. cbv iota.
    unfold tool_removeJob. rewrite Hi, Ht. cbn [negb].
    destruct (removeJob_facts i (daemon t)) as [Hiff [_ [_ [_ Hsame]]]].
    destruct (removeJob i (daemon t)) as [removed d]. cbn [fst snd] in *.
    destruct removed.
    + split; [|intros H; now contradiction H].
      split; [intros _; now apply Hiff | reflexivity].
    + split.
      * split; [rewrite !app_cons; discriminate|].
        intros H. apply Hiff in H. discriminate.
      * intros _. rewrite (Hsame eq_refl). destruct t as [dm c i']. reflexivity.
  - intros H1 H2 H3. apply String.eqb_neq in H1, H2, H3. now rewrite H1, H2, H3.
Qed.

End CronToolMore.

(* ===================================================================== *)
(** * More of the heartbeat: start, stop, the timer *)
(* ===================================================================== *)

Module HeartbeatMore.
Import JsString Regex Js NodePath NodeFs Heartbeat.

(** [start()] *)
Definition start (svc : HeartbeatService) : HeartbeatService :=
  if negb (enabled svc) then svc
  else scheduleNext
         (mkHeartbeat (workspace svc) (intervalS svc) (enabled svc) true
            (timer svc)).

(** [stop()] *)
Definition stop (svc : HeartbeatService) : HeartbeatService :=
  mkHeartbeat (workspace svc) (intervalS svc) (enabled svc) false None.

Section Run.

Variable cwd : string.
Variable onHeartbeat : option (string -> Completion string).

(** The timeouts that fire, one after the other, each finding the file
    system in a state of its own: a timeout fires when one is armed. *)
Fixpoint fire (disks : list FS) (svc : HeartbeatService)
  : list string * HeartbeatService :=
  match disks with
  | [] => ([], svc)
  | fs :: rest =>
      match timer svc with
      | Some _ =>
          let '(prompts, svc) := tick cwd onHeartbeat svc fs in
          let '(more, svc) := fire rest svc in
          (prompts ++ more, svc)
      | None => ([], svc)
      end
  end.

End Run.

Lemma tick_at_most_once (cwd : string)
  (onHeartbeat : option (string -> Completion string))
  (svc : HeartbeatService) (fs : FS) :
  (fst (tick cwd onHeartbeat svc fs) = [] \/
   fst (tick cwd onHeartbeat svc fs) = [HEARTBEAT_PROMPT]) /\
  snd (tick cwd onHeartbeat svc fs) = scheduleNext svc.
Proof.
  unfold tick, scheduleNext. destruct (running svc); cbn [negb]; [|now split; [left|]].
  destruct (isHeartbeatEmpty _); [now split; [left|]|].
  destruct onHeartbeat as [handler|]; [|now split; [left|]].
  destruct (handler HEARTBEAT_PROMPT); now split; [right|].
Qed.

Lemma scheduleNext_armed (svc : HeartbeatService) :
  running svc = true -> timer svc = Some (intervalS svc * 1000)%Z ->
  scheduleNext svc = svc.
Proof.
  intros Hr Ht. unfold scheduleNext. rewrite Hr. cbn [negb].
  destruct svc as [ws int en run tm]. cbn in *. now subst.
Qed.

Lemma fire_armed (cwd : string)
  (onHeartbeat : option (string -> Completion string)) (disks : list FS) :
  forall svc : HeartbeatService,
    running svc = true -> timer svc = Some (intervalS svc * 1000)%Z ->
    snd (fire cwd onHeartbeat disks svc) = svc /\
    length (fst (fire cwd onHeartbeat disks svc)) <= length disks /\
    Forall (fun prompt => prompt = HEARTBEAT_PROMPT)
      (fst (fire cwd onHeartbeat disks svc)).
Proof.
  induction disks as [|fs rest IH]; intros svc Hr Ht; cbn [fire].
  - cbn. repeat split; [lia | constructor].
  - rewrite Ht.
    destruct (tick_at_most_once cwd onHeartbeat svc fs) as [Hp Hs].
    rewrite (scheduleNext_armed svc Hr Ht) in Hs.
    destruct (tick cwd onHeartbeat svc fs) as [prompts svc1].
    cbn [fst snd] in Hp, Hs. subst svc1.
    destruct (IH svc Hr Ht) as [H1 [H2 H3]].
    destruct (fire cwd onHeartbeat rest svc) as [more svc2].
    cbn [fst snd length] in *. split; [exact H1|].
    destruct Hp as [-> | ->]; cbn [app length]; split;
      [lia | exact H3 | lia | now constructor].
Qed.

(** X20.  A service that has not been started yet, through [start] and any
    number of timeouts: disabled it stays as it was and the handler is
    never invoked; enabled it is running with the timer armed at its
    interval after every tick, whatever the handler did, and the handler
    has been invoked at most once a tick, with the heartbeat prompt.  After
    [stop] no timeout is pending and nothing fires. *)
Theorem heartbeat_lifecycle (cwd : string)
  (onHeartbeat : option (string -> Completion string))
  (disks : list FS) (svc : HeartbeatService) :
  running svc = false ->
  timer svc = None ->
  (enabled svc = false ->
   fire cwd onHeartbeat disks (start svc) = ([], svc)) /\
  (enabled svc = true ->
   running (snd (fire cwd onHeartbeat disks (start svc))) = true /\
   timer (snd (fire cwd onHeartbeat disks (start svc)))
   = Some (intervalS svc * 1000)%Z /\
   length (fst (fire cwd onHeartbeat disks (start svc))) <= length disks /\
   Forall (fun prompt => prompt = HEARTBEAT_PROMPT)
     (fst (fire cwd onHeartbeat disks (start svc)))) /\
  fire cwd onHeartbeat disks (stop (start svc)) = ([], stop (start svc)) /\
  running (stop (start svc)) = false.
Proof.
  intros Hrun Htimer. split; [|split; [|split]].
  - intros He. unfold start. rewrite He. cbn [negb].
    destruct disks; cbn [fire]; [reflexivity | now rewrite Htimer].
  - intros He. unfold start. rewrite He. cbn [negb]. unfold scheduleNext.
    cbn [running negb workspace intervalS enabled].
    destruct (fire_armed cwd onHeartbeat disks
                (mkHeartbeat (workspace svc) (intervalS svc) true true
                   (Some (intervalS svc * 1000)%Z)) eq_refl eq_refl)
      as [H1 [H2 H3]].
    rewrite H1. now repeat split.
  - destruct disks; reflexivity.
  - reflexivity.
Qed.

Lemma heartbeat_lifecycle_witness :
  (enabled (stop a_heartbeat) = false ->
   fire "/" (Some (fun _ => Throw (JsError "provider down")))
     [with_task; header_only; with_task] (start (stop a_heartbeat))
   = ([], stop a_heartbeat)) /\
  (enabled (stop a_heartbeat) = true ->
   running (snd (fire "/" (Some (fun _ => Throw (JsError "provider down")))
                   [with_task; header_only; with_task] (start (stop a_heartbeat))))
   = true /\
   timer (snd (fire "/" (Some (fun _ => Throw (JsError "provider down")))
                 [with_task; header_only; with_task] (start (stop a_heartbeat))))
   = Some (intervalS (stop a_heartbeat) * 1000)%Z /\
   length (fst (fire "/" (Some (fun _ => Throw (JsError "provider down")))
                  [with_task; header_only; with_task] (start (stop a_heartbeat))))
   <= length [with_task; header_only; with_task] /\
   Forall (fun prompt => prompt = HEARTBEAT_PROMPT)
     (fst (fire "/" (Some (fun _ => Throw (JsError "provider down")))
             [with_task; header_only; with_task] (start (stop a_heartbeat))))) /\
  fire "/" (Some (fun _ => Throw (JsError "provider down")))
    [with_task; header_only; with_task] (stop (start (stop a_heartbeat)))
  = ([], stop (start (stop a_heartbeat))) /\
  running (stop (start (stop a_heartbeat))) = false.
Proof.
  apply (heartbeat_lifecycle "/" (Some (fun _ => Throw (JsError "provider down")))
           [with_task; header_only; with_task] (stop a_heartbeat));
    reflexivity.
Defined.

(** X21.  Without a file to read at HEARTBEAT.md (none there, or a directory),
    with an empty one, without a handler, or when the service does not run,
    a tick invokes nothing. *)
Theorem tick_without_tasks (cwd : string)
  (onHeartbeat : option (string -> Completion string))
  (svc : HeartbeatService) (fs : FS) :
  content_at fs (at_cwd cwd (heartbeatFile svc)) = None \/
  content_at fs (at_cwd cwd (heartbeatFile svc)) = Some EmptyString \/
  onHeartbeat = None \/ running svc = false ->
  fst (tick cwd onHeartbeat svc fs) = [].
Proof.
  intros H. unfold tick. destruct (running svc); cbn [negb]; [|reflexivity].
  assert (Hread : content_at fs (at_cwd cwd (heartbeatFile svc)) = None \/
                  content_at fs (at_cwd cwd (heartbeatFile svc)) = Some EmptyString ->
                  isHeartbeatEmpty (readHeartbeatFile cwd svc fs) = true).
  { unfold readHeartbeatFile, content_at, existsSync, readFileSync.
    destruct (node_at fs (at_cwd cwd (heartbeatFile svc))) as [[|c]|];
      cbn [negb]; intros [Hc|Hc]; try discriminate; try reflexivity.
    now injection Hc as ->. }
  destruct H as [H|[H|[H|H]]]; try discriminate.
  - now rewrite Hread by (now left).
  - now rewrite Hread by (now right).
  - subst onHeartbeat. now destruct (isHeartbeatEmpty _).
Qed.

(** A workspace whose HEARTBEAT.md is a directory. *)
Definition dir_for_file : FS :=
  <["/home/robun/ws/HEARTBEAT.md" := Dir]> (<["/home/robun/ws" := Dir]> ∅).

Lemma tick_without_tasks_witness :
  fst (tick "/" (Some (fun _ => Normal "done")) a_heartbeat dir_for_file) = [].
Proof.
  apply (tick_without_tasks "/" (Some (fun _ => Normal "done")) a_heartbeat
           dir_for_file).
  left. reflexivity.
Defined.

End HeartbeatMore.

(* ===================================================================== *)
(** * More of the two loops, and the way back from a sub-agent *)
(* ===================================================================== *)

Module AgentMore.
Import JsString Js Agent StringMore.

(** A message list that starts with [base]. *)
Definition extends (base l : list Message) : Prop := exists more, l = base ++ more.

Lemma extends_refl (l : list Message) : extends l l.
Proof. exists []. now rewrite List.app_nil_r. Qed.

Lemma extends_app (base l more : list Message) :
  extends (base ++ more) l -> extends base l.
Proof. intros [x ->]. exists (more ++ x). now rewrite List.app_assoc. Qed.

Lemma has_calls (response : LLMResponse) :
  hasToolCalls response = true <-> toolCalls response <> [].
Proof.
  unfold hasToolCalls. destruct (toolCalls response) as [|tc rest]; cbn.
  - split; [discriminate | intros H; exfalso; now apply H].
  - split; [discriminate | reflexivity].
Qed.

Section Loops.

Variable World : Type.
Variable chat : list Message -> World -> Completion LLMResponse * World.
Variable stringify : Params -> string.
Variable tools : ToolRegistry.ToolRegistry World.

Lemma agent_loop_appends (n : nat) :
  forall msgs used w,
    extends msgs (messages (fst (agent_loop chat stringify tools n msgs used w))) /\
    Forall (extends msgs)
      (chats (fst (agent_loop chat stringify tools n msgs used w))) /\
    length (chats (fst (agent_loop chat stringify tools n msgs used w))) <= n /\
    exists names, snd (agent_loop chat stringify tools n msgs used w) = used ++ names.
Proof.
  induction n as [|n IH]; intros msgs used w.
  - cbn. repeat split; [apply extends_refl | constructor | lia |].
    exists []. now rewrite List.app_nil_r.
  - destruct (chat msgs w) as [[response|err] w1] eqn:Hchat.
    + destruct (hasToolCalls response) eqn:Hcalls.
      * destruct (agent_turn_reflects World chat stringify tools n msgs used w w1
                    response Hchat (proj1 (has_calls response) Hcalls))
          as [results [w2 [_ ->]]].
        match goal with
        | |- context [agent_loop chat stringify tools n ?m ?u ?x] =>
            destruct (IH m u x) as [H1 [H2 [H3 [names H4]]]];
            destruct (agent_loop chat stringify tools n m u x) as [r u'] eqn:Hr
        end.
        cbn [fst snd after_chat messages chats length] in *.
        unfold addAssistantMessage in H1, H2. rewrite <- List.app_assoc in H1, H2.
        split; [now apply extends_app in H1|].
        split; [constructor; [apply extends_refl|];
                eapply Forall_impl; [exact H2|]; intros l Hl;
                now apply extends_app in Hl|].
        split; [lia|]. subst u'. eexists. now rewrite <- List.app_assoc.
      * cbn [agent_loop]. rewrite Hchat, Hcalls. cbn.
        repeat split; [apply extends_refl | repeat constructor; apply extends_refl
                       | lia |].
        exists []. now rewrite List.app_nil_r.
    + cbn [agent_loop]. rewrite Hchat. cbn.
      repeat split; [apply extends_refl | repeat constructor; apply extends_refl
                     | lia |].
      exists []. now rewrite List.app_nil_r.
Qed.

Lemma tool_loop_appends (n : nat) :
  forall msgs w,
    extends msgs (messages (tool_loop chat stringify tools n msgs w)) /\
    Forall (extends msgs) (chats (tool_loop chat stringify tools n msgs w)).
Proof.
  induction n as [|n IH]; intros msgs w.
  - cbn. split; [apply extends_refl | constructor].
  - cbn [tool_loop]. destruct (chat msgs w) as [[response|err] w1];
      [|cbn; split; [apply extends_refl | repeat constructor; apply extends_refl]].
    destruct (hasToolCalls response);
      [|cbn; split; [apply extends_refl | repeat constructor; apply extends_refl]].
    match goal with
    | |- context [run_tool_calls tools ?tcs ?m ?x] =>
        destruct (run_tool_calls_pushes World tools tcs m x)
          as [results [w2 [_ ->]]]
    end.
    match goal with
    | |- context [tool_loop chat stringify tools n ?m ?x] =>
        destruct (IH m x) as [H1 H2]
    end.
    cbn [after_chat messages chats]. rewrite <- List.app_assoc in H1, H2 |- *.
    split; [now apply extends_app in H1|].
    constructor; [apply extends_refl|].
    eapply Forall_impl; [exact H2|]. intros l Hl. now apply extends_app in Hl.
Qed.

Lemma agent_loop_busy (n : nat) :
  (forall msgs w, exists response w',
      chat msgs w = (Normal response, w') /\ toolCalls response <> []) ->
  forall msgs used w,
    result (fst (agent_loop chat stringify tools n msgs used w)) = Normal None /\
    length (chats (fst (agent_loop chat stringify tools n msgs used w))) = n.
Proof.
  intros Hbusy. induction n as [|n IH]; intros msgs used w; [now split|].
  destruct (Hbusy msgs w) as [response [w1 [Hchat Hcalls]]].
  destruct (agent_turn_reflects World chat stringify tools n msgs used w w1
              response Hchat Hcalls) as [results [w2 [_ ->]]].
  match goal with
  | |- context [agent_loop chat stringify tools n ?m ?u ?x] =>
      destruct (IH m u x) as [H1 H2];
      destruct (agent_loop chat stringify tools n m u x) as [r u']
  end.
  cbn [fst snd after_chat result chats length] in *. split; [exact H1 | lia].
Qed.

Lemma tool_loop_busy (n : nat) :
  (forall msgs w, exists response w',
      chat msgs w = (Normal response, w') /\ toolCalls response <> []) ->
  forall msgs w,
    result (tool_loop chat stringify tools n msgs w) = Normal None /\
    length (chats (tool_loop chat stringify tools n msgs w)) = n.
Proof.
  intros Hbusy. induction n as [|n IH]; intros msgs w; [now split|].
  destruct (Hbusy msgs w) as [response [w1 [Hchat Hcalls]]].
  cbn [tool_loop]. rewrite Hchat, (proj2 (has_calls response) Hcalls).
  match goal with
  | |- context [run_tool_calls tools ?tcs ?m ?x] =>
      destruct (run_tool_calls_pushes World tools tcs m x)
        as [results [w2 [_ ->]]]
  end.
  match goal with
  | |- context [tool_loop chat stringify tools n ?m ?x] =>
      destruct (IH m x) as [H1 H2]
  end.
  cbn [after_chat result chats length]. split; [exact H1 | lia].
Qed.

End Loops.

(** X22.  Both loops only ever add to the conversation: what they started with
    is the beginning of every message list the provider is called with and
    of the list they end with, whatever the provider and the tools do.  The
    agent loop calls the provider at most [maxIterations] times, and the
    tools it reports as used come after those it was given. *)
Theorem loops_only_append (World : Type)
  (chat : list Message -> World -> Completion LLMResponse * World)
  (stringify : Params -> string) (tools : ToolRegistry.ToolRegistry World)
  (maxIterations : nat) (initialMessages : list Message)
  (systemPrompt task : string) (w : World) :
  extends initialMessages
    (messages (fst (runAgentLoop chat stringify tools maxIterations
                      initialMessages w))) /\
  Forall (extends initialMessages)
    (chats (fst (runAgentLoop chat stringify tools maxIterations
                   initialMessages w))) /\
  length (chats (fst (runAgentLoop chat stringify tools maxIterations
                        initialMessages w))) <= maxIterations /\
  extends [system_message systemPrompt; user_message task]
    (messages (runSubagent chat stringify tools systemPrompt task w)) /\
  Forall (extends [system_message systemPrompt; user_message task])
    (chats (runSubagent chat stringify tools systemPrompt task w)).
Proof.
  unfold runAgentLoop, runSubagent.
  destruct (agent_loop_appends World chat stringify tools maxIterations
              initialMessages [] w) as [H1 [H2 [H3 _]]].
  destruct (tool_loop_appends World chat stringify tools Agent.maxIterations
              [system_message systemPrompt; user_message task] w) as [H4 H5].
  split; [exact H1|]. split; [exact H2|]. split; [exact H3|].
  destruct (result (tool_loop _ _ _ _ _ _)) as [[text|]|err]; now split.
Qed.

(** X23.  With a provider that asks for tools on every call, the agent loop
    gives up after exactly [maxIterations] calls with no content, and the
    sub-agent after exactly 15 with the text that stands in for a
    result. *)
Theorem loops_stop_at_ceiling (World : Type)
  (chat : list Message -> World -> Completion LLMResponse * World)
  (stringify : Params -> string) (tools : ToolRegistry.ToolRegistry World)
  (maxIterations : nat) (initialMessages : list Message)
  (systemPrompt task : string) (w : World) :
  (forall msgs w, exists response w',
      chat msgs w = (Normal response, w') /\ toolCalls response <> []) ->
  result (fst (runAgentLoop chat stringify tools maxIterations initialMessages w))
  = Normal None /\
  length (chats (fst (runAgentLoop chat stringify tools maxIterations
                        initialMessages w))) = maxIterations /\
  result (runSubagent chat stringify tools systemPrompt task w)
  = Normal (Some "Task completed but no final response was generated.") /\
  length (chats (runSubagent chat stringify tools systemPrompt task w)) = 15.
Proof.
  intros Hbusy. unfold runAgentLoop, runSubagent.
  destruct (agent_loop_busy World chat stringify tools maxIterations Hbusy
              initialMessages [] w) as [H1 H2].
  destruct (tool_loop_busy World chat stringify tools Agent.maxIterations Hbusy
              [system_message systemPrompt; user_message task] w) as [H3 H4].
  split; [exact H1|]. split; [exact H2|]. rewrite H3. cbn [result chats].
  split; [reflexivity | exact H4].
Qed.

(** A provider that asks for the same tool call whatever it is told. *)
Definition insistent (msgs : list Message) (w : unit)
  : Completion LLMResponse * unit :=
  (Normal (mkResponse None
             [mkToolCall "call_1" "dummy" [("value", JString "x")]] None), w).

Lemma loops_stop_at_ceiling_witness :
  result (fst (runAgentLoop insistent (fun _ => "{}") one_tool 20
                 [system_message "prompt"; user_message "task"] tt))
  = Normal None /\
  length (chats (fst (runAgentLoop insistent (fun _ => "{}") one_tool 20
                        [system_message "prompt"; user_message "task"] tt))) = 20 /\
  result (runSubagent insistent (fun _ => "{}") one_tool "prompt" "task" tt)
  = Normal (Some "Task completed but no final response was generated.") /\
  length (chats (runSubagent insistent (fun _ => "{}") one_tool "prompt" "task" tt))
  = 15.
Proof.
  apply (loops_stop_at_ceiling unit insistent (fun _ => "{}") one_tool 20
           [system_message "prompt"; user_message "task"] "prompt" "task" tt).
  intros msgs w.
  exists (mkResponse None [mkToolCall "call_1" "dummy" [("value", JString "x")]]
            None), w.
  split; [reflexivity | discriminate].
Defined.

End AgentMore.

(* ===================================================================== *)
(** * The way back from a sub-agent *)
(* ===================================================================== *)

Module SubagentMore.
Import JsString Js StringMore.

Inductive Status : Type := Done | Failed.

(** An inbound message, without its timestamp; [media] and [metadata] are
    empty. *)
Record InboundMessage : Type := mkInbound {
  channel : string;
  senderId : string;
  chatId : string;
  content : string
}.

(** [announceResult]: the message it publishes on the bus. *)
Definition announceResult (label task result originChannel originChatId : string)
  (status : Status) : InboundMessage :=
  let statusText :=
    match status with Done => "completed successfully" | Failed => "failed" end in
  mkInbound "system" "subagent" (originChannel +:+ ":" +:+ originChatId)
    ("[Subagent '" +:+ label +:+ "' " +:+ statusText +:+ "]" +:+ nl +:+ nl
     +:+ "Task: " +:+ task +:+ nl +:+ nl
     +:+ "Result:" +:+ nl +:+ result +:+ nl +:+ nl
     +:+ "Summarize this naturally for the user. Keep it brief (1-2 sentences). Do not mention technical details like "
     +:+ String (ascii_of_nat 34) "subagent"
     +:+ String (ascii_of_nat 34) " or task IDs.").

(** The origin [processSystemMessage] reads from a chat id; [indexOf] is
    -1 for [None]. *)
Definition origin_of (chatId : string) : string * string :=
  if includes chatId ":" then
    match indexOf chatId ":" with
    | Some sepIdx => (take sepIdx chatId, drop (sepIdx + 1) chatId)
    | None => (take (String.length chatId - 1) chatId, chatId)
    end
  else ("cli", chatId).

(** The session key [processSystemMessage] makes of the origin. *)
Definition sessionKey (origin : string * string) : string :=
  fst origin +:+ ":" +:+ snd origin.

Lemma indexOf_colon (ch rest : string) :
  has_char ":" ch = false ->
  indexOf (ch +:+ ":" +:+ rest) ":" = Some (String.length ch).
Proof.
  induction ch as [|c ch IH]; intros H.
  - rewrite app_nil_l, app_cons, app_nil_l. cbn [indexOf].
    rewrite prefix_cons, prefix_nil. now destruct (ascii_dec ":" ":").
  - cbn [has_char] in H. apply orb_false_iff in H as [Hc Hch].
    rewrite app_cons. cbn [indexOf]. rewrite prefix_cons.
    destruct (ascii_dec ":" c) as [<-|_]; [now rewrite Ascii.eqb_refl in Hc|].
    now rewrite (IH Hch).
Qed.

Lemma take_app_length (a b : string) : take (String.length a) (a +:+ b) = a.
Proof.
  induction a as [|c a IH]; [rewrite app_nil_l; now destruct b|].
  rewrite app_cons. cbn [String.length take]. now rewrite IH.
Qed.

Lemma drop_app_length (a b : string) : drop (String.length a) (a +:+ b) = b.
Proof.
  induction a as [|c a IH]; [rewrite app_nil_l; now destruct b|].
  rewrite app_cons. cbn [String.length drop]. exact IH.
Qed.

Lemma indexOf_split (s : string) :
  forall i, indexOf s ":" = Some i ->
            take i s +:+ ":" +:+ drop (i + 1) s = s /\
            has_char ":" (take i s) = false.
Proof.
  induction s as [|c s IH]; intros i; cbn [indexOf].
  - discriminate.
  - rewrite prefix_cons, prefix_nil. destruct (ascii_dec ":" c) as [<-|Hne].
    + intros H. injection H as <-. cbn [take drop Nat.add].
      rewrite app_nil_l, app_cons, app_nil_l. split; [|reflexivity].
      now destruct s.
    + destruct (indexOf s ":") as [j|]; [|discriminate]. cbn.
      intros H. injection H as <-. destruct (IH j eq_refl) as [H1 H2].
      cbn [take drop Nat.add]. rewrite app_cons, H1. split; [reflexivity|].
      cbn [has_char]. rewrite H2, orb_false_r.
      apply Ascii.eqb_neq. congruence.
Qed.

Lemma includes_indexOf (s sub : string) :
  includes s sub = true -> exists i, indexOf s sub = Some i.
Proof.
  induction s as [|c s IH]; cbn [includes indexOf].
  - destruct (String.prefix sub ""); [eauto | discriminate].
  - destruct (String.prefix sub (String c s)); [eauto|]. cbn [orb].
    intros H. destruct (IH H) as [i ->]. cbn. eauto.
Qed.

(** X24.  What a sub-agent announces goes to the system channel, where
    [processSystemMessage] takes it.  The origin read back from it is the
    origin the sub-agent was spawned from exactly when the channel name
    holds no colon; a colon in the chat id does no harm.  For any chat id
    with a colon the session key is the chat id itself; without one it is
    filed under "cli". *)
Theorem announce_origin_round_trip
  (label task result originChannel originChatId : string) (status : Status)
  (anyChatId : string) :
  channel (announceResult label task result originChannel originChatId status)
  = "system" /\
  (origin_of (chatId (announceResult label task result originChannel
                        originChatId status))
   = (originChannel, originChatId)
   <-> has_char ":" originChannel = false) /\
  has_char ":" (fst (origin_of (originChannel +:+ ":" +:+ originChatId))) = false /\
  sessionKey (origin_of anyChatId)
  = (if includes anyChatId ":" then anyChatId else "cli:" +:+ anyChatId).
Proof.
  split; [reflexivity|]. cbn [chatId announceResult].
  assert (Hinc : includes (originChannel +:+ ":" +:+ originChatId) ":" = true).
  { apply includes_app_r. rewrite (app_cons ":" "" originChatId), app_nil_l.
    cbn [includes]. rewrite prefix_cons, prefix_nil.
    now destruct (ascii_dec ":" ":"). }
  assert (Hfst : has_char ":" (fst (origin_of (originChannel +:+ ":" +:+ originChatId)))
                 = false).
  { unfold origin_of. rewrite Hinc.
    destruct (includes_indexOf _ _ Hinc) as [i Hi]. rewrite Hi. cbn [fst].
    now apply indexOf_split. }
  split; [|split; [exact Hfst|]].
  - split.
    + intros H. rewrite H in Hfst. exact Hfst.
    + intros H. unfold origin_of. rewrite Hinc, (indexOf_colon _ _ H).
      rewrite take_app_length.
      replace (String.length originChannel + 1)
        with (String.length (originChannel +:+ ":"))
        by (rewrite app_length; reflexivity).
      replace (originChannel +:+ ":" +:+ originChatId)
        with ((originChannel +:+ ":") +:+ originChatId)
        by (now rewrite <- app_assoc).
      now rewrite drop_app_length.
  - unfold origin_of, sessionKey.
    destruct (includes anyChatId ":") eqn:Hi; [|reflexivity].
    destruct (includes_indexOf _ _ Hi) as [i Hidx]. rewrite Hidx. cbn [fst snd].
    now apply indexOf_split.
Qed.

End SubagentMore.

(* ===================================================================== *)
(** * What a run leaves on the job *)
(* ===================================================================== *)

Module CronRun.
Import JsString Js Cron CronMore.

(** What [executeJob] does to the job after the handler, by the kind of
    its schedule: none of it touches the record of the run. *)
Lemma after_handler_keeps_record
  (cron_next : string -> option string -> Z -> option Z) (job : nat)
  (s1 : Service) :
  let s' :=
    match kind (schedule (objects s1 job)) with
    | KindAt =>
        if deleteAfterRun (objects s1 job)
        then set_jobs
               (filter (fun j => negb (String.eqb (id (objects s1 j))
                                         (id (objects s1 job))) = true)
                  (jobs s1)) s1
        else modify job
               (fun j => with_state (with_nextRunAtMs None) (with_enabled false j))
               s1
    | _ =>
        let '(now, s) := nowMs s1 in
        modify job
          (with_state
             (with_nextRunAtMs
                (computeNextRun cron_next (wall s) (schedule (objects s job)) now)))
          s
    end in
  lastRunAtMs (state (objects s' job)) = lastRunAtMs (state (objects s1 job)) /\
  lastStatus (state (objects s' job)) = lastStatus (state (objects s1 job)) /\
  lastError (state (objects s' job)) = lastError (state (objects s1 job)).
Proof.
  cbn zeta. destruct (kind (schedule (objects s1 job)));
    [destruct (deleteAfterRun (objects s1 job))| |];
    cbn; rewrite ?Nat.eqb_refl; now repeat split.
Qed.

(** X25.  Whatever the kind of the schedule and whatever the handler does, to
    the job or to the store, a run leaves on the job the clock reading
    taken before the handler as [lastRunAtMs], and its outcome: "ok" with
    no error when the handler returned (or there is none), "error" with the
    thrown value as text when it threw.  Nothing is thrown on. *)
Theorem executeJob_records_outcome
  (cron_next : string -> option string -> Z -> option Z)
  (onJob : option (nat -> Service -> Completion (option string) * Service))
  (job : nat) (s : Service) :
  lastRunAtMs (state (objects (executeJob cron_next onJob job s) job))
  = Some (wall s) /\
  match onJob with
  | Some handler =>
      match fst (handler job (snd (nowMs s))) with
      | Normal _ =>
          lastStatus (state (objects (executeJob cron_next onJob job s) job))
          = Some StatusOk /\
          lastError (state (objects (executeJob cron_next onJob job s) job)) = None
      | Throw e =>
          lastStatus (state (objects (executeJob cron_next onJob job s) job))
          = Some StatusError /\
          lastError (state (objects (executeJob cron_next onJob job s) job))
          = Some (to_String e)
      end
  | None =>
      lastStatus (state (objects (executeJob cron_next onJob job s) job))
      = Some StatusOk /\
      lastError (state (objects (executeJob cron_next onJob job s) job)) = None
  end.
Proof.
  unfold executeJob.
  destruct (after_handler_keeps_record cron_next job (run_handler onJob job s))
    as [H1 [H2 H3]].
  cbn zeta in H1, H2, H3. rewrite H1, H2, H3. clear H1 H2 H3.
  unfold run_handler, nowMs. destruct onJob as [handler|].
  - cbn [snd]. destruct (handler job _) as [[r|e] s1]; cbn;
      rewrite ?Nat.eqb_refl; cbn; now repeat split.
  - cbn. rewrite ?Nat.eqb_refl. cbn. now repeat split.
Qed.

(** ** onTimer *)

(** The test of the filter of [onTimer]:
    [j.enabled && j.state.nextRunAtMs != null && now >= j.state.nextRunAtMs]. *)
Definition due (s : Service) (now : Z) (j : nat) : bool :=
  enabled (objects s j) &&
  match nextRunAtMs (state (objects s j)) with
  | Some t => (t <=? now)%Z
  | None => false
  end.

(** [dueJobs], at what the clock reads. *)
Definition due_jobs (s : Service) : list nat :=
  filter (fun j => due s (wall s) j = true) (jobs s).

Section Timer.

Variable cron_next : string -> option string -> Z -> option Z.
Variable onJob : option (nat -> Service -> Completion (option string) * Service).

(** The [for] loop of [onTimer]: [executeJob] on each job in turn. *)
Definition run_all (l : list nat) (s : Service) : Service :=
  fold_left (fun s job => executeJob cron_next onJob job s) l s.

(** [onTimer()]: the jobs due at one reading of the clock, run in the
    order of the store. *)
Definition onTimer (d : Daemon) : Daemon :=
  let dueJobs := due_jobs (service d) in
  let '(now, s) := nowMs (service d) in
  let s := run_all dueJobs s in
  armTimer (mkDaemon s (running d) (timer d)).

(** A handler that leaves the service alone. *)
Definition quiet : Prop :=
  match onJob with
  | Some handler => forall job s, snd (handler job s) = s
  | None => True
  end.

Lemma executeJob_frame (job : nat) (s : Service) :
  quiet ->
  (forall a, a <> job -> objects (executeJob cron_next onJob job s) a = objects s a) /\
  (forall j, In j (jobs (executeJob cron_next onJob job s)) -> In j (jobs s)).
Proof.
  intros Hq.
  assert (H1 : (forall a, a <> job ->
                  objects (run_handler onJob job s) a = objects s a) /\
               jobs (run_handler onJob job s) = jobs s).
  { unfold run_handler, nowMs, quiet in *. destruct onJob as [handler|].
    - specialize (Hq job (mkService (objects s) (jobs s) (ticks s) (S (reads s)))).
      destruct (handler job _) as [[r|e] s1]; cbn [snd] in Hq; subst s1; cbn;
        (split; [|reflexivity]);
        intros a Ha; apply Nat.eqb_neq in Ha; now rewrite !Ha.
    - cbn. split; [|reflexivity].
      intros a Ha. apply Nat.eqb_neq in Ha. now rewrite !Ha. }
  destruct H1 as [Ho Hj].
  unfold executeJob. split.
  - intros a Ha. rewrite <- (Ho a Ha). apply Nat.eqb_neq in Ha.
    destruct (kind (schedule (objects (run_handler onJob job s) job)));
      [destruct (deleteAfterRun (objects (run_handler onJob job s) job))| |];
      cbn; now rewrite ?Ha.
  - intros j. rewrite <- Hj.
    destruct (kind (schedule (objects (run_handler onJob job s) job)));
      [destruct (deleteAfterRun (objects (run_handler onJob job s) job))| |];
      cbn; trivial.
    intros Hin. apply list_elem_of_In, list_elem_of_filter in Hin as [_ Hin].
    now apply list_elem_of_In.
Qed.

Lemma run_all_frame (l : list nat) :
  quiet ->
  forall s,
    (forall a, ~ In a l -> objects (run_all l s) a = objects s a) /\
    (forall j, In j (jobs (run_all l s)) -> In j (jobs s)).
Proof.
  intros Hq. unfold run_all.
  induction l as [|job rest IH]; intros s; cbn [fold_left].
  - split; [reflexivity | trivial].
  - destruct (executeJob_frame job s Hq) as [F1 F2].
    destruct (IH (executeJob cron_next onJob job s)) as [I1 I2].
    split.
    + intros a Ha. rewrite I1 by (intros H; apply Ha; now right).
      apply F1. intros ->. apply Ha. now left.
    + intros j Hj. apply F2, I2, Hj.
Qed.

Lemma run_all_app (l k : list nat) (s : Service) :
  run_all (l ++ k) s = run_all k (run_all l s).
Proof. apply fold_left_app. Qed.

Lemma executeJob_lastRun (job : nat) (s : Service) :
  lastRunAtMs (state (objects (executeJob cron_next onJob job s) job))
  = Some (wall s).
Proof.
  unfold executeJob.
  destruct (after_handler_keeps_record cron_next job (run_handler onJob job s))
    as [H1 _].
  cbn zeta in H1. rewrite H1.
  unfold run_handler, nowMs. destruct onJob as [handler|].
  - destruct (handler job _) as [[r|e] s1]; cbn; now rewrite ?Nat.eqb_refl.
  - cbn. now rewrite ?Nat.eqb_refl.
Qed.

End Timer.

(** X26.  With a handler that leaves the service alone, the timer runs the
    jobs of the store that are enabled and due at its reading of the
    clock, each in its turn, and no other.  A job that is not due keeps
    its object untouched (a disabled job is never run).  A due job ends as
    [executeJob] leaves it when its turn comes, after the due jobs before
    it in the store have been run: its last run is the reading of the
    clock at that moment, for the first due job the reading after the
    timer's own.  No job enters the store. *)
Theorem onTimer_runs_due_only
  (cron_next : string -> option string -> Z -> option Z)
  (onJob : option (nat -> Service -> Completion (option string) * Service))
  (d : Daemon) :
  quiet onJob ->
  (forall a, ~ In a (due_jobs (service d)) ->
     objects (service (onTimer cron_next onJob d)) a = objects (service d) a) /\
  (forall before job after,
     due_jobs (service d) = before ++ job :: after -> ~ In job after ->
     objects (service (onTimer cron_next onJob d)) job
     = objects (executeJob cron_next onJob job
                  (run_all cron_next onJob before (snd (nowMs (service d))))) job /\
     lastRunAtMs (state (objects (service (onTimer cron_next onJob d)) job))
     = Some (wall (run_all cron_next onJob before (snd (nowMs (service d)))))) /\
  (forall job after,
     due_jobs (service d) = job :: after -> ~ In job after ->
     lastRunAtMs (state (objects (service (onTimer cron_next onJob d)) job))
     = Some (ticks (service d) (S (reads (service d))))) /\
  (forall j, In j (jobs (service (onTimer cron_next onJob d))) ->
             In j (jobs (service d))).
Proof.
  intros Hq. unfold onTimer, nowMs. cbn [snd].
  match goal with
  | |- context [armTimer ?x] => destruct (armTimer_store x) as [Ho [Hj _]]
  end.
  rewrite Ho, Hj. cbn [service jobs objects].
  set (s0 := mkService (objects (service d)) (jobs (service d))
               (ticks (service d)) (S (reads (service d)))).
  assert (Hrun : forall before job after,
             due_jobs (service d) = before ++ job :: after -> ~ In job after ->
             objects (run_all cron_next onJob (due_jobs (service d)) s0) job
             = objects (executeJob cron_next onJob job
                          (run_all cron_next onJob before s0)) job).
  { intros before job after -> Hnot.
    rewrite run_all_app. change (job :: after) with ([job] ++ after).
    rewrite run_all_app.
    destruct (run_all_frame cron_next onJob after Hq
                (run_all cron_next onJob [job] (run_all cron_next onJob before s0)))
      as [R1 _].
    now rewrite (R1 job Hnot). }
  destruct (run_all_frame cron_next onJob (due_jobs (service d)) Hq s0) as [R1 R2].
  split; [|split; [|split]].
  - intros a Ha. now rewrite (R1 a Ha).
  - intros before job after Hd Hnot. rewrite (Hrun before job after Hd Hnot).
    split; [reflexivity | apply executeJob_lastRun].
  - intros job after Hd Hnot. rewrite (Hrun [] job after Hd Hnot).
    now rewrite executeJob_lastRun.
  - intros j Hin. now apply R2 in Hin.
Qed.

(** The two jobs of [a_service], both due. *)
Definition late_daemon : Daemon :=
  mkDaemon (mkService (objects a_service) (jobs a_service)
              (fun n => 70000 + Z.of_nat n)%Z 0) true None.

Lemma onTimer_runs_due_only_witness :
  due_jobs (service late_daemon) = [0; 1] /\
  jobs (service (onTimer (fun _ _ _ => None) (Some quiet_handler) late_daemon))
  = [1] /\
  lastRunAtMs
    (state (objects
              (service (onTimer (fun _ _ _ => None) (Some quiet_handler)
                          late_daemon)) 0)) = Some 70001%Z /\
  objects (service (onTimer (fun _ _ _ => None) (Some quiet_handler) late_daemon)) 1
  = objects (executeJob (fun _ _ _ => None) (Some quiet_handler) 1
               (run_all (fun _ _ _ => None) (Some quiet_handler) [0]
                  (snd (nowMs (service late_daemon))))) 1 /\
  lastRunAtMs
    (state (objects
              (service (onTimer (fun _ _ _ => None) (Some quiet_handler)
                          late_daemon)) 1)) = Some 70003%Z /\
  nextRunAtMs
    (state (objects
              (service (onTimer (fun _ _ _ => None) (Some quiet_handler)
                          late_daemon)) 1)) = Some 130005%Z.
Proof.
  destruct (onTimer_runs_due_only (fun _ _ _ => None) (Some quiet_handler)
              late_daemon (fun job s => eq_refl)) as [_ [Hrun [Hfirst _]]].
  split; [reflexivity|]. split; [reflexivity|].
  split; [apply (Hfirst 0 [1] eq_refl); intros [H|[]]; discriminate|].
  destruct (Hrun [0] 1 [] eq_refl (fun H => H)) as [H1 H2].
  split; [exact H1|]. split; [exact H2 | reflexivity].
Defined.

End CronRun.
